(** * TPU head outside-compilation extraction

    A shallow embedding of
    [tensorflow/compiler/mlir/tensorflow/transforms/tpu_extract_head_tail_outside_compilation.cc]
    and the properties of its head-extraction pass.

    The pass reaches the MLIR in-memory IR through the MLIR API only.  The IR
    is modelled as an arena: operations are addressed by a stable index
    ([Operation*] becomes a [nat]), every SSA value is a block argument or the
    [i]-th result of an operation, and every value carries its use-list.

    Use-lists are the intrusive lists of [mlir/IR/UseDefLists.h]: a value
    holds its first use, every operand slot holds the next use of the value
    it reads, an operand that is created or set is linked in at the front of
    the list of its value, and the use iterator steps by reading the next-use
    link of the operand it stands on.

    The model covers one function.  Every operation holds one region of one
    block (empty for an operation without region), so that clusters, launch
    operations and operations such as [tf_device.replicate] nest to any
    depth.  The function is the only holder of block arguments. *)

From Stdlib Require Import String List Arith Bool Lia.
From stdpp Require Import base decidable list strings.

Open Scope string_scope.
Open Scope list_scope.
Open Scope nat_scope.

(** ** llvm::SetVector

    An insertion-ordered set: [insert] appends an element that is not yet
    present and ignores one that is; iteration follows insertion order. *)

Module SetVector.
Section SetVector.
Context {A : Type} `{EqDecision A}.

Definition count (x : A) (s : list A) : nat :=
  if decide (x ∈ s) then 1 else 0.

Definition insert (x : A) (s : list A) : list A :=
  if decide (x ∈ s) then s else s ++ [x].

(** [insert(first, last)]: the range is inserted element by element. *)
Fixpoint insert_range (xs : list A) (s : list A) : list A :=
  match xs with
  | [] => s
  | x :: xs' => insert_range xs' (insert x s)
  end.

Definition empty (s : list A) : bool :=
  match s with [] => true | _ :: _ => false end.
End SetVector.
End SetVector.

(** ** The IR *)

(** An SSA value: an argument of the enclosing function block, or a result
    of an operation. *)
Inductive Value : Type :=
| BlockArgument (argNumber : nat)
| OpResult (owner : nat) (resultNumber : nat).

#[global] Instance Value_eq_dec : EqDecision Value.
Proof. solve_decision. Defined.

(** A use-site: operand slot [getOperandNumber] of operation [getOwner]. *)
Record OpOperand : Type := mkOpOperand {
  getOwner : nat;
  getOperandNumber : nat
}.

#[global] Instance OpOperand_eq_dec : EqDecision OpOperand.
Proof. solve_decision. Defined.

Inductive Attribute : Type :=
| StringAttr (value : string)
| UnitAttr.

(** What a value stores: its type (a type is identified by a number) and the
    head of its use-list.  New uses are linked in at the front. *)
Record ValueImpl : Type := mkValueImpl {
  getType : nat;
  useList : list OpOperand
}.

(** An operation: its name, attribute dictionary, operand slots, results and
    the operations of the single block of its region, in block order (none
    for an operation without region). *)
Record Operation : Type := mkOperation {
  getName : string;
  getAttrs : list (string * Attribute);
  getOperands : list Value;
  opResults : list ValueImpl;
  getBody : list nat
}.

(** The module: the arguments and the block of the enclosing function and the
    arena of all operations.  An operation is linked in the function block
    or in the body of another operation. *)
Record ModuleOp : Type := mkModuleOp {
  getArguments : list ValueImpl;
  opTable : list Operation;
  getBlock : list nat
}.

Definition nullOperation : Operation :=
  mkOperation EmptyString [] [] [] [].

(** Dereferencing an [Operation*].  An index outside the arena reads as an
    operation with no attribute, operand or result. *)
Definition getOp (m : ModuleOp) (op : nat) : Operation :=
  default nullOperation (opTable m !! op).

Definition getValueImpl (m : ModuleOp) (v : Value) : option ValueImpl :=
  match v with
  | BlockArgument n => getArguments m !! n
  | OpResult op i => opResults (getOp m op) !! i
  end.

(** [Value::getUses()]: every use of the value, anywhere in the module, in
    use-list order. *)
Definition getUses (m : ModuleOp) (v : Value) : list OpOperand :=
  match getValueImpl m v with
  | Some impl => useList impl
  | None => []
  end.

(** [Operation::getResults()]. *)
Definition getResults (m : ModuleOp) (op : nat) : list Value :=
  map (OpResult op) (seq 0 (length (opResults (getOp m op)))).

(** [Operation::getUsers()]: the owners of the uses of result 0, then of
    result 1, and so on. *)
Definition getUsers (m : ModuleOp) (op : nat) : list nat :=
  flat_map (fun r => map getOwner (getUses m r)) (getResults m op).

(** [OpOperand::get()]. *)
Definition getOperandValue (m : ModuleOp) (use : OpOperand) : option Value :=
  getOperands (getOp m (getOwner use)) !! getOperandNumber use.

Definition getAttr (op : Operation) (name : string) : option Attribute :=
  match find (fun kv => String.eqb (fst kv) name) (getAttrs op) with
  | Some kv => Some (snd kv)
  | None => None
  end.

(** [getAttrOfType<StringAttr>]: the attribute, when present and a string. *)
Definition getAttrOfType_StringAttr (op : Operation) (name : string)
  : option string :=
  match getAttr op name with
  | Some (StringAttr s) => Some s
  | _ => None
  end.

(** ** Regions

    A region is named by the operation that holds it. *)

Inductive Region : Type :=
| FunctionBody
| BodyOf (op : nat).

#[global] Instance Region_eq_dec : EqDecision Region.
Proof. solve_decision. Defined.

(** The operations of the block of a region. *)
Definition Region_front (m : ModuleOp) (region : Region) : list nat :=
  match region with
  | FunctionBody => getBlock m
  | BodyOf op => getBody (getOp m op)
  end.

(** The first operation of the arena whose body lists [op]. *)
Fixpoint findHolder (op : nat) (index : nat) (table : list Operation)
  : option nat :=
  match table with
  | [] => None
  | holder :: rest =>
      if bool_decide (op ∈ getBody holder) then Some index
      else findHolder op (S index) rest
  end.

(** [Operation::getParentRegion()]: the region whose block links the
    operation, or [None] for an operation that no block links. *)
Definition Operation_getParentRegion (m : ModuleOp) (op : nat)
  : option Region :=
  if bool_decide (op ∈ getBlock m) then Some FunctionBody
  else
    match findHolder op 0 (opTable m) with
    | Some holder => Some (BodyOf holder)
    | None => None
    end.

(** [Value::getParentRegion()]: the region of the block that owns a block
    argument, the parent region of the operation that defines a result. *)
Definition Value_getParentRegion (m : ModuleOp) (v : Value) : option Region :=
  match v with
  | BlockArgument _ => Some FunctionBody
  | OpResult op _ => Operation_getParentRegion m op
  end.

(** [for (reg = op->getParentRegion(); reg; reg = reg->getParentRegion())]:
    the regions around [op], innermost first.  The region that holds the
    function defines no value and is left out.  [fuel] bounds the nesting
    depth. *)
Fixpoint enclosingRegions (fuel : nat) (m : ModuleOp) (op : nat)
  : list Region :=
  match fuel with
  | 0 => []
  | S fuel' =>
      match Operation_getParentRegion m op with
      | None => []
      | Some FunctionBody => [FunctionBody]
      | Some (BodyOf holder) => BodyOf holder :: enclosingRegions fuel' m holder
      end
  end.

(** The regions of a module form a tree, so that the nesting depth is below
    the number of operations: this fuel is enough for the two walks
    ([Region_walk_fuel], [properAncestors_fuel]). *)
Definition nestingFuel (m : ModuleOp) : nat := S (length (opTable m)).

(** The proper ancestors of the body of [op]. *)
Definition properAncestors (m : ModuleOp) (op : nat) : list Region :=
  enclosingRegions (nestingFuel m) m op.

(** [detail::walkOperations(op, callback)]: the operations nested in the
    region of [op] first, in block order, then [op] itself; the list is the
    order of the callbacks.  [fuel] bounds the nesting depth below [op]. *)
Fixpoint walkOperations (fuel : nat) (m : ModuleOp) (op : nat) : list nat :=
  match fuel with
  | 0 => [op]
  | S fuel' => flat_map (walkOperations fuel' m) (getBody (getOp m op)) ++ [op]
  end.

(** [Region::walk(callback)]. *)
Definition Region_walk (m : ModuleOp) (region : Region) : list nat :=
  flat_map (walkOperations (nestingFuel m) m) (Region_front m region).

(** ** The analysis *)

Definition kXlaOutsideCompilationAttr : string := "_xla_outside_compilation".

Definition HasOutsideCompilationAttribute (op : Operation) : bool :=
  match getAttrOfType_StringAttr op kXlaOutsideCompilationAttr with
  | Some _ => true
  | None => false
  end.

(** Returns whether all operands of [op] are from values inside the
    [input_value_set]. *)
Fixpoint OpContainsOperandsFromSet_loop
    (operands : list Value) (input_value_set : list Value) : bool :=
  match operands with
  | [] => true
  | operand :: rest =>
      if SetVector.count operand input_value_set =? 0 then false
      else OpContainsOperandsFromSet_loop rest input_value_set
  end.

Definition OpContainsOperandsFromSet
    (op : Operation) (input_value_set : list Value) : bool :=
  OpContainsOperandsFromSet_loop (getOperands op) input_value_set.

(** The two out-parameters of the recording functions, threaded as a pair:
    the set of recorded operations and the set of available values. *)
Definition RecordState : Type := (list nat * list Value)%type.

Definition RecordOutsideCompiledOpsAndUsages
    (m : ModuleOp) (op : nat) (st : RecordState) : RecordState :=
  let '(outside_compiled_ops, outside_compiled_op_usages) := st in
  if HasOutsideCompilationAttribute (getOp m op)
     && OpContainsOperandsFromSet (getOp m op) outside_compiled_op_usages
  then (SetVector.insert op outside_compiled_ops,
        SetVector.insert_range (getResults m op) outside_compiled_op_usages)
  else st.

(** [for (auto& usage : value.getUses()) Record(usage.getOwner(), ...)]. *)
Fixpoint recordUses (m : ModuleOp) (uses : list OpOperand) (st : RecordState)
  : RecordState :=
  match uses with
  | [] => st
  | usage :: rest =>
      recordUses m rest (RecordOutsideCompiledOpsAndUsages m (getOwner usage) st)
  end.

(** [for (auto op_result : op_results) for (auto& use : op_result.getUses())]. *)
Fixpoint recordResults (m : ModuleOp) (op_results : list Value) (st : RecordState)
  : RecordState :=
  match op_results with
  | [] => st
  | op_result :: rest =>
      recordResults m rest (recordUses m (getUses m op_result) st)
  end.

(** The body of the [while] loop up to the insertion into
    [outside_compiled_ops]: one pass over the current frontier. *)
Fixpoint recordConnected (m : ModuleOp) (parent : list nat) (st : RecordState)
  : RecordState :=
  match parent with
  | [] => st
  | head_outside_compiled_op :: rest =>
      recordConnected m rest
        (recordResults m (getResults m head_outside_compiled_op) st)
  end.

(** The [while (!parent_outside_compiled_ops_at_head.empty())] loop; [fuel]
    bounds the number of iterations and [None] means it was exhausted. *)
Fixpoint traverseConnected (fuel : nat) (m : ModuleOp)
    (parent_outside_compiled_ops_at_head : list nat)
    (values_used_in_host_cluster : list Value)
    (outside_compiled_ops : list nat)
  : option (list Value * list nat) :=
  if SetVector.empty parent_outside_compiled_ops_at_head
  then Some (values_used_in_host_cluster, outside_compiled_ops)
  else
    match fuel with
    | 0 => None
    | S fuel' =>
        let '(connected_outside_compiled_ops, values') :=
          recordConnected m parent_outside_compiled_ops_at_head
            ([], values_used_in_host_cluster) in
        traverseConnected fuel' m connected_outside_compiled_ops values'
          (SetVector.insert_range parent_outside_compiled_ops_at_head
             outside_compiled_ops)
    end.

(** Traverses the graph and returns the ops that are connected to inputs of
    the TPU computation and outside compiled. *)
Definition ExtractOutsideCompiledOpsConnectedToHead (fuel : nat) (m : ModuleOp)
    (input_value : Value)
    (values_used_in_host_cluster : list Value)
    (outside_compiled_ops : list nat)
  : option (list Value * list nat) :=
  let '(parent_outside_compiled_ops_at_head, values') :=
    recordUses m (getUses m input_value) ([], values_used_in_host_cluster) in
  traverseConnected fuel m parent_outside_compiled_ops_at_head values'
    outside_compiled_ops.

(** [properAncestors.count(operand.get().getParentRegion())]. *)
Definition isDefinedAbove (m : ModuleOp) (properAncestors : list Region)
    (v : Value) : bool :=
  match Value_getParentRegion m v with
  | Some region => bool_decide (region ∈ properAncestors)
  | None => false
  end.

(** [for (OpOperand &operand : op->getOpOperands())
       if (properAncestors.count(...)) values.insert(operand.get());] *)
Fixpoint collectOperandsDefinedAbove (m : ModuleOp)
    (properAncestors : list Region) (operands : list Value)
    (values : list Value) : list Value :=
  match operands with
  | [] => values
  | operand :: rest =>
      collectOperandsDefinedAbove m properAncestors rest
        (if isDefinedAbove m properAncestors operand
         then SetVector.insert operand values
         else values)
  end.

(** The callback of [visitUsedValuesDefinedAbove] over the operations that
    the region walk visits. *)
Fixpoint walkUsedValuesDefinedAbove (m : ModuleOp)
    (properAncestors : list Region) (ops : list nat)
    (values : list Value) : list Value :=
  match ops with
  | [] => values
  | op :: rest =>
      walkUsedValuesDefinedAbove m properAncestors rest
        (collectOperandsDefinedAbove m properAncestors
           (getOperands (getOp m op)) values)
  end.

(** [getUsedValuesDefinedAbove(cluster_region, cluster_region, values)]: the
    operands of the operations nested in the cluster region, at any depth,
    whose parent region is a proper ancestor of the cluster region. *)
Definition getUsedValuesDefinedAbove (m : ModuleOp) (tpu_cluster : nat)
  : list Value :=
  walkUsedValuesDefinedAbove m (properAncestors m tpu_cluster)
    (Region_walk m (BodyOf tpu_cluster)) [].

Fixpoint extractFromInputs (fuel : nat) (m : ModuleOp)
    (input_value_list : list Value)
    (values_used_in_cluster : list Value)
    (outside_compiled_at_head_ops : list nat)
  : option (list Value * list nat) :=
  match input_value_list with
  | [] => Some (values_used_in_cluster, outside_compiled_at_head_ops)
  | input_value :: rest =>
      match ExtractOutsideCompiledOpsConnectedToHead fuel m input_value
              values_used_in_cluster outside_compiled_at_head_ops with
      | Some (values', ops') => extractFromInputs fuel m rest values' ops'
      | None => None
      end
  end.

(** Returns the set of ops that are outside compiled and are directly
    connected to inputs to the TPU computation. *)
Definition IdentifyOutsideCompiledOpsAtHead (fuel : nat) (m : ModuleOp)
    (tpu_cluster : nat) : option (list nat) :=
  let values_used_in_cluster := getUsedValuesDefinedAbove m tpu_cluster in
  let input_value_list := values_used_in_cluster in
  match extractFromInputs fuel m input_value_list values_used_in_cluster [] with
  | Some (_, outside_compiled_at_head_ops) => Some outside_compiled_at_head_ops
  | None => None
  end.

(** Returns output values of the extracted outside compiled cluster at head
    that are used by the TPU computation. *)
Fixpoint GetHeadExtractedClusterOutputs_loop (m : ModuleOp)
    (ops : list nat) (head_outside_compiled_ops : list nat) : list Value :=
  match ops with
  | [] => []
  | op :: rest =>
      (if existsb
            (fun user => SetVector.count user head_outside_compiled_ops =? 0)
            (getUsers m op)
       then getResults m op else [])
      ++ GetHeadExtractedClusterOutputs_loop m rest head_outside_compiled_ops
  end.

Definition GetHeadExtractedClusterOutputs (m : ModuleOp)
    (head_outside_compiled_ops : list nat) : list Value :=
  GetHeadExtractedClusterOutputs_loop m head_outside_compiled_ops
    head_outside_compiled_ops.

(** ** Mutation primitives *)

Definition Value_getType (m : ModuleOp) (v : Value) : nat :=
  match getValueImpl m v with
  | Some impl => getType impl
  | None => 0
  end.

Definition updateOp (m : ModuleOp) (op : nat) (f : Operation → Operation)
  : ModuleOp :=
  mkModuleOp (getArguments m) (alter f op (opTable m)) (getBlock m).

Definition updateUses (f : list OpOperand → list OpOperand) (impl : ValueImpl)
  : ValueImpl :=
  mkValueImpl (getType impl) (f (useList impl)).

Definition updateResult (i : nat) (f : list OpOperand → list OpOperand)
    (op : Operation) : Operation :=
  mkOperation (getName op) (getAttrs op) (getOperands op)
    (alter (updateUses f) i (opResults op)) (getBody op).

(** Rewrites the use-list stored in value [v]. *)
Definition updateUseList (m : ModuleOp) (v : Value)
    (f : list OpOperand → list OpOperand) : ModuleOp :=
  match v with
  | BlockArgument n =>
      mkModuleOp (alter (updateUses f) n (getArguments m)) (opTable m)
        (getBlock m)
  | OpResult op i => updateOp m op (updateResult i f)
  end.

Definition setOperandValue (use : OpOperand) (v : Value) (op : Operation)
  : Operation :=
  mkOperation (getName op) (getAttrs op)
    (<[getOperandNumber use := v]> (getOperands op)) (opResults op) (getBody op).

(** Unlinks node [x] from an intrusive list (a use-list, or the operation
    list of a block).  A node is linked at one place at most. *)
Fixpoint unlink {A} `{EqDecision A} (x : A) (l : list A) : list A :=
  match l with
  | [] => []
  | y :: l' => if decide (y = x) then unlink x l' else y :: unlink x l'
  end.

Definition removeFromCurrent (m : ModuleOp) (use : OpOperand) : ModuleOp :=
  match getOperandValue m use with
  | Some v => updateUseList m v (unlink use)
  | None => m
  end.

Definition insertIntoCurrent (m : ModuleOp) (use : OpOperand) : ModuleOp :=
  match getOperandValue m use with
  | Some v => updateUseList m v (cons use)
  | None => m
  end.

(** [IROperand::set(newValue)]: [removeFromCurrent(); value = newValue;
    insertIntoCurrent();], the operand becoming the first use of [newValue]. *)
Definition OpOperand_set (m : ModuleOp) (use : OpOperand) (newValue : Value)
  : ModuleOp :=
  let m1 := removeFromCurrent m use in
  let m2 := updateOp m1 (getOwner use) (setOperandValue use newValue) in
  insertIntoCurrent m2 use.

(** Constructing the operand slots of a new operation links each of them, in
    operand order, at the front of the use-list of the value it reads. *)
Fixpoint linkOperands (m : ModuleOp) (op : nat) (index : nat)
    (operands : list Value) : ModuleOp :=
  match operands with
  | [] => m
  | v :: rest =>
      linkOperands (updateUseList m v (cons (mkOpOperand op index)))
        op (S index) rest
  end.

(** [Operation::create]: the new operation takes the next free slot of the
    arena; its results have no use yet. *)
Definition createOperation (m : ModuleOp) (name : string)
    (attributes : list (string * Attribute)) (operands : list Value)
    (resultTypes : list nat) : ModuleOp * nat :=
  let op := length (opTable m) in
  let state :=
    mkOperation name attributes operands
      (map (fun t => mkValueImpl t []) resultTypes) [] in
  let m1 := mkModuleOp (getArguments m) (opTable m ++ [state]) (getBlock m) in
  (linkOperands m1 op 0 operands, op).

Definition setBody (f : list nat → list nat) (op : Operation) : Operation :=
  mkOperation (getName op) (getAttrs op) (getOperands op) (opResults op)
    (f (getBody op)).

(** Applies a block edit to every block of the module. *)
Definition mapBlocks (f : list nat → list nat) (m : ModuleOp) : ModuleOp :=
  mkModuleOp (getArguments m) (map (setBody f) (opTable m)) (f (getBlock m)).

(** Inserts [op] in front of [before] in the block that holds [before]. *)
Fixpoint insertBefore (before op : nat) (block : list nat) : list nat :=
  match block with
  | [] => []
  | y :: rest =>
      if decide (y = before) then op :: y :: rest
      else y :: insertBefore before op rest
  end.

(** [Operation::moveBefore(existingOp)]: unlink from the current block, then
    insert in front of [existingOp] in its block. *)
Definition moveBefore (m : ModuleOp) (op existingOp : nat) : ModuleOp :=
  mapBlocks (insertBefore existingOp op) (mapBlocks (unlink op) m).

(** ** The transformation *)

(** The inner loop of the use replacement,
    [for (auto& use : output.getUses()) if (...) use.set(newValue);].

    The use iterator is a pointer to the current operand, and
    [ValueUseIterator::operator++] follows the next-use link of that operand;
    the state of the iterator is the part of the use-list from the current
    operand on.  An operand owned by a head operation stays linked, and [++]
    reaches the next use of [output].  [use.set], that is [IROperand::set],
    relinks the operand as the first use of [newValue], so that [++] then
    reads the rest of the use-list of [newValue] (the range is not an
    early-increment range): for the result of a launch operation that was
    just created there is none, and the loop is over.  The result is [None]
    where the list of [newValue] would go on, which is outside this model and
    never happens in [IsolateHeadExtractedOpsToLaunchOp]. *)
Fixpoint replaceUses (m : ModuleOp) (head_outside_compiled_ops : list nat)
    (newValue : Value) (uses : list OpOperand) : option ModuleOp :=
  match uses with
  | [] => Some m
  | use :: rest =>
      if SetVector.count (getOwner use) head_outside_compiled_ops =? 0
      then
        let m' := OpOperand_set m use newValue in
        match tail (getUses m' newValue) with
        | [] => Some m'
        | _ :: _ => None
        end
      else replaceUses m head_outside_compiled_ops newValue rest
  end.

(** The outer loop, [for (auto output_and_index : llvm::enumerate(output_values))]. *)
Fixpoint replaceOutputs (m : ModuleOp) (head_outside_compiled_ops : list nat)
    (host_launch_op : nat) (output_index : nat) (output_values : list Value)
  : option ModuleOp :=
  match output_values with
  | [] => Some m
  | output :: rest =>
      match replaceUses m head_outside_compiled_ops
              (OpResult host_launch_op output_index) (getUses m output) with
      | Some m' =>
          replaceOutputs m' head_outside_compiled_ops host_launch_op
            (S output_index) rest
      | None => None
      end
  end.

(** [for (auto outside_compiled_op : head_outside_compiled_ops)
       outside_compiled_op->moveBefore(terminator);] *)
Fixpoint moveOpsBefore (m : ModuleOp) (ops : list nat) (terminator : nat)
  : ModuleOp :=
  match ops with
  | [] => m
  | outside_compiled_op :: rest =>
      moveOpsBefore (moveBefore m outside_compiled_op terminator) rest terminator
  end.

(** Creates a new [tf_device.launch] op with the outside compiled ops
    extracted from the head of the TPU computation.  The second component is
    the launch operation, when one was created. *)
Definition IsolateHeadExtractedOpsToLaunchOp (m : ModuleOp) (cluster : nat)
    (head_outside_compiled_ops : list nat) : option (ModuleOp * option nat) :=
  if SetVector.empty head_outside_compiled_ops then Some (m, None)
  else
    let output_values := GetHeadExtractedClusterOutputs m head_outside_compiled_ops in
    let output_return_types := map (Value_getType m) output_values in
    let '(m1, host_launch_op) :=
      createOperation m "tf_device.launch" [("device", StringAttr EmptyString)]
        [] output_return_types in
    let m2 := mapBlocks (insertBefore cluster host_launch_op) m1 in
    match replaceOutputs m2 head_outside_compiled_ops host_launch_op 0
            output_values with
    | None => None
    | Some m3 =>
        let '(m4, terminator) :=
          createOperation m3 "tf_device.return" [] output_values [] in
        let m5 := updateOp m4 host_launch_op (setBody (fun b => b ++ [terminator])) in
        Some (moveOpsBefore m5 head_outside_compiled_ops terminator,
              Some host_launch_op)
    end.

(** ** The pass *)

Inductive LogicalResult : Type := success | failure.

Definition isClusterOp (m : ModuleOp) (op : nat) : bool :=
  String.eqb (getName (getOp m op)) "tf_device.cluster".

(** [Operation::getNextNode()]: the operation linked after [op] in [block]. *)
Fixpoint successor (op : nat) (block : list nat) : option nat :=
  match block with
  | [] => None
  | y :: rest => if decide (y = op) then head rest else successor op rest
  end.

Definition getNextNode (m : ModuleOp) (op : nat) : option nat :=
  match Operation_getParentRegion m op with
  | Some region => successor op (Region_front m region)
  | None => None
  end.

(** The operations that hold the regions around [op], innermost first. *)
Definition enclosingOps (m : ModuleOp) (op : nat) : list nat :=
  flat_map (fun region =>
              match region with BodyOf holder => [holder] | FunctionBody => [] end)
    (properAncestors m op).

(** [walkOperations] iterates every block with [llvm::make_early_inc_range]:
    when the callback runs on [op], the loop over the block of [op] and the
    loops over the blocks of the operations around it each hold the
    operation that follows, already fetched. *)
Definition fetchedNextNodes (m : ModuleOp) (op : nat) : list nat :=
  flat_map (fun o => option_list (getNextNode m o)) (op :: enclosingOps m op).

(** [op] is one of [moved] or nested in one of them. *)
Definition isNestedIn (m : ModuleOp) (moved : list nat) (op : nat) : bool :=
  existsb (fun o => bool_decide (o ∈ moved)) (op :: enclosingOps m op).

(** The callbacks of [module.walk([&](tf_device::ClusterOp) {...})], in walk
    order over the clusters that the walk can meet.

    A callback links the new launch operation in front of the cluster it
    visits and moves the head operations into it, behind every loop of the
    walk: a cluster that is moved, or nested in a moved operation, before the
    walk reaches it is not visited ([moved] holds the operations moved so
    far).  The result is [None] where the head set holds an operation that a
    loop of the walk has already fetched (the loop then goes on in the body
    of the launch operation and runs past its end: the walk does not return)
    or an operation around the cluster (it is moved into its own region, and
    the regions are no tree any more, which is outside this model). *)
Fixpoint walkClusters (fuel : nat) (m : ModuleOp) (moved : list nat)
    (clusters : list nat) : option ModuleOp :=
  match clusters with
  | [] => Some m
  | cluster :: rest =>
      if isNestedIn m moved cluster then walkClusters fuel m moved rest
      else
        match IdentifyOutsideCompiledOpsAtHead fuel m cluster with
        | None => None
        | Some head_outside_compiled_ops =>
            if existsb (fun op => bool_decide (op ∈ head_outside_compiled_ops))
                 (fetchedNextNodes m cluster ++ enclosingOps m cluster)
            then None
            else
              match IsolateHeadExtractedOpsToLaunchOp m cluster
                      head_outside_compiled_ops with
              | None => None
              | Some (m', _) =>
                  walkClusters fuel m' (head_outside_compiled_ops ++ moved) rest
              end
        end
  end.

Section Pass.
(** [tensorflow::GetDevicesFromOp] lives in [utils/device_util.cc]: the pass
    only looks at whether it fails. *)
Variable RuntimeDevices : Type.
Variable GetDevicesFromOp : ModuleOp → option RuntimeDevices.

(** [TPUExtractHeadTailOutsideCompilation::runOnOperation]: the result is
    whether the pass signalled failure, and the module it leaves; it is
    [None] where the fuel of the head set is exhausted or the walk gives
    [None].  The walk is a post-order walk of the whole module: it meets the
    clusters at any depth, a nested one before the operation around it. *)
Definition runOnOperation (fuel : nat) (module : ModuleOp)
  : option (LogicalResult * ModuleOp) :=
  match GetDevicesFromOp module with
  | None => Some (failure, module)
  | Some devices =>
      match walkClusters fuel module []
              (filter (fun op => isClusterOp module op = true)
                 (Region_walk module FunctionBody)) with
      | Some module' => Some (success, module')
      | None => None
      end
  end.
End Pass.

(** ** Building modules

    Operations are created one after the other, each linked at the end of a
    block, the way a parser or a builder produces a module. *)

Definition appendToBlock (m : ModuleOp) (parent : option nat) (op : nat)
  : ModuleOp :=
  match parent with
  | None => mkModuleOp (getArguments m) (opTable m) (getBlock m ++ [op])
  | Some p => updateOp m p (setBody (fun b => b ++ [op]))
  end.

Definition addOp (parent : option nat) (name : string)
    (attributes : list (string * Attribute)) (operands : list Value)
    (resultTypes : list nat) (m : ModuleOp) : ModuleOp :=
  let '(m', op) := createOperation m name attributes operands resultTypes in
  appendToBlock m' parent op.

Definition emptyModule (argTypes : list nat) : ModuleOp :=
  mkModuleOp (map (fun t => mkValueImpl t []) argTypes) [] [].

Definition outsideCompiled : list (string * Attribute) :=
  [(kXlaOutsideCompilationAttr, StringAttr "cluster1")].

(** * Specification vocabulary *)

(** ** The head set as a recording order *)

(** [v] is a boundary input or a result of one of [ops]. *)
Definition producedBy (boundary : list Value) (ops : list nat) (v : Value)
  : Prop :=
  v ∈ boundary ∨ ∃ p i, v = OpResult p i ∧ p ∈ ops.

(** The operations were recorded one after the other, each one tagged, new,
    and reading only boundary inputs and results of earlier ones. *)
Inductive Ordered (m : ModuleOp) (boundary : list Value) : list nat → Prop :=
| Ordered_nil : Ordered m boundary []
| Ordered_snoc ops op :
    Ordered m boundary ops →
    op ∉ ops →
    HasOutsideCompilationAttribute (getOp m op) = true →
    (∀ v, v ∈ getOperands (getOp m op) → producedBy boundary ops v) →
    Ordered m boundary (ops ++ [op]).

Definition HeadInv (m : ModuleOp) (boundary : list Value)
    (ops : list nat) (values : list Value) : Prop :=
  Ordered m boundary ops ∧ ∀ v, v ∈ values → producedBy boundary ops v.

(** ** Well-formed modules *)

(** Every value that some operation or the function defines. *)
Definition allValues (m : ModuleOp) : list Value :=
  map BlockArgument (seq 0 (length (getArguments m)))
  ++ flat_map (getResults m) (seq 0 (length (opTable m))).

(** Every operand slot linked in the use-list of a value reads that value. *)
Definition useListsConsistent (m : ModuleOp) : bool :=
  forallb
    (fun v =>
       forallb (fun use => bool_decide (getOperandValue m use = Some v))
         (getUses m v))
    (allValues m).

Definition rankBelow (rank : nat → nat) (op : nat) (v : Value) : bool :=
  match v with
  | BlockArgument _ => true
  | OpResult p _ => rank p <? rank op
  end.

(** The graph is finite and acyclic: [rank] numbers the operations below
    [bound], each one above the operations whose results it reads. *)
Definition isTopologicalRank (rank : nat → nat) (bound : nat) (m : ModuleOp)
  : bool :=
  forallb
    (fun op =>
       (rank op <? bound)
       && forallb (rankBelow rank op) (getOperands (getOp m op)))
    (seq 0 (length (opTable m))).

(** The regions nest properly: [depth] numbers the operations below [bound],
    each one above the operations of its body. *)
Definition isNestingDepth (depth : nat → nat) (bound : nat) (m : ModuleOp)
  : bool :=
  forallb
    (fun holder =>
       (depth holder <? bound)
       && forallb (fun op => depth op <? depth holder)
            (getBody (getOp m holder)))
    (seq 0 (length (opTable m))).

(** The operations of a frontier: tagged, and at least [k] deep. *)
Definition frontierAt (m : ModuleOp) (rank : nat → nat) (k : nat)
    (parent : list nat) : Prop :=
  ∀ o, o ∈ parent →
       HasOutsideCompilationAttribute (getOp m o) = true ∧ k ≤ rank o.

(** ** Blocks *)

(** The operation lists of all blocks: the function block first, then the
    body of every operation of the arena. *)
Definition blocks (m : ModuleOp) : list (list nat) :=
  getBlock m :: map getBody (opTable m).

(** [moveBefore] of each of [ops] in turn, seen from one block. *)
Fixpoint moveBlock (ops : list nat) (terminator : nat) (block : list nat)
  : list nat :=
  match ops with
  | [] => block
  | op :: rest =>
      moveBlock rest terminator (insertBefore terminator op (unlink op block))
  end.

(** Every block lists operations of the arena only. *)
Definition blocksInArena (m : ModuleOp) : bool :=
  forallb (forallb (fun op => op <? length (opTable m))) (blocks m).

(** The name, the attributes and the result types of an operation. *)
Definition signature (op : Operation) : string * list (string * Attribute) * list nat :=
  (getName op, getAttrs op, map getType (opResults op)).

Definition signatures (m : ModuleOp) : list (string * list (string * Attribute) * list nat) :=
  map signature (opTable m).


(** ** Positions in a block *)

Fixpoint indexOf (x : nat) (block : list nat) : option nat :=
  match block with
  | [] => None
  | y :: rest =>
      if decide (y = x) then Some 0
      else match indexOf x rest with
           | Some i => Some (S i)
           | None => None
           end
  end.

(** Both operations are in the block, [x] in front of [y]. *)
Definition comesBefore (x y : nat) (block : list nat) : bool :=
  match indexOf x block, indexOf y block with
  | Some i, Some j => i <? j
  | _, _ => false
  end.

(** ** Sample modules

    Each function takes one argument [%a] and holds one cluster.  Operations
    are numbered in creation order. *)

Definition arg_a : Value := BlockArgument 0.

(** A device-metadata provider that succeeds, and one that fails. *)
Definition devicesAvailable (m : ModuleOp) : option unit := Some tt.
Definition devicesMissing (m : ModuleOp) : option unit := None.

(** cluster 0 { %1 = A(%a) tagged; %2 = B(%1) tagged; %3 = C(%2) } *)
Definition chained : ModuleOp :=
  addOp (Some 0) "tf.C" [] [OpResult 2 0] [7]
  (addOp (Some 0) "tf.B" outsideCompiled [OpResult 1 0] [7]
  (addOp (Some 0) "tf.A" outsideCompiled [arg_a] [7]
  (addOp None "tf_device.cluster" [] [] [] (emptyModule [7])))).

(** cluster 0 { %1 = A(%a) tagged }, the result of A being unused. *)
Definition unusedHead : ModuleOp :=
  addOp (Some 0) "tf.A" outsideCompiled [arg_a] [7]
  (addOp None "tf_device.cluster" [] [] [] (emptyModule [7])).

(** cluster 0 { %1 = A(%a) tagged; %2 = B(%1) tagged; %3 = C(%a) tagged;
                %4 = D(%2, %3) } *)
Definition interleaved : ModuleOp :=
  addOp (Some 0) "tf.D" [] [OpResult 2 0; OpResult 3 0] [7]
  (addOp (Some 0) "tf.C" outsideCompiled [arg_a] [7]
  (addOp (Some 0) "tf.B" outsideCompiled [OpResult 1 0] [7]
  (addOp (Some 0) "tf.A" outsideCompiled [arg_a] [7]
  (addOp None "tf_device.cluster" [] [] [] (emptyModule [7]))))).

(** The same module with the uses of [%a] linked in the opposite order. *)
Definition interleaved_rev : ModuleOp :=
  updateUseList interleaved arg_a (@rev OpOperand).

(** cluster 0 { %1 = A(%a) tagged; %2 = B(%1); %3 = C(%1) } *)
Definition twoConsumers : ModuleOp :=
  addOp (Some 0) "tf.C" [] [OpResult 1 0] [7]
  (addOp (Some 0) "tf.B" [] [OpResult 1 0] [7]
  (addOp (Some 0) "tf.A" outsideCompiled [arg_a] [7]
  (addOp None "tf_device.cluster" [] [] [] (emptyModule [7])))).

(** cluster 0 { %1 = A(%a) tagged; %2 = B(%a, %1) } *)
Definition sharedInput : ModuleOp :=
  addOp (Some 0) "tf.B" [] [arg_a; OpResult 1 0] [7]
  (addOp (Some 0) "tf.A" outsideCompiled [arg_a] [7]
  (addOp None "tf_device.cluster" [] [] [] (emptyModule [7]))).

(** %0 = P(%a) tagged, in the function block;
    cluster 1 { %2 = X(%0) tagged; %3 = Y(%a, %2) } *)
Definition taggedOutside : ModuleOp :=
  addOp (Some 1) "tf.Y" [] [arg_a; OpResult 2 0] [7]
  (addOp (Some 1) "tf.X" outsideCompiled [OpResult 0 0] [7]
  (addOp None "tf_device.cluster" [] [] []
  (addOp None "tf.P" outsideCompiled [arg_a] [7] (emptyModule [7])))).

(** cluster 0 { %1 = A(%a); %2 = B(%1) }, no operation being tagged. *)
Definition untagged : ModuleOp :=
  addOp (Some 0) "tf.B" [] [OpResult 1 0] [7]
  (addOp (Some 0) "tf.A" [] [arg_a] [7]
  (addOp None "tf_device.cluster" [] [] [] (emptyModule [7]))).

(** A cluster nested in a [tf_device.replicate]: operation 1 of the body of
    replicate 0 reads [%a]; cluster 2 follows it in that body; in the cluster,
    tagged 3 reads the result of 1 and untagged 4 reads the result of 3. *)
Definition nestedCluster : ModuleOp :=
  addOp (Some 2) "tf.D" [] [OpResult 3 0] [7]
  (addOp (Some 2) "tf.H" outsideCompiled [OpResult 1 0] [7]
  (addOp (Some 0) "tf_device.cluster" [] [] []
  (addOp (Some 0) "tf.P" [] [arg_a] [7]
  (addOp None "tf_device.replicate" [] [] [] (emptyModule [7]))))).

(** The same nesting with a chain in the cluster: replicate 0
    { %1 = P(%a); cluster 2 { %3 = H(%1) tagged; %4 = K(%3) tagged;
    %5 = D(%4) } }. *)
Definition nestedChain : ModuleOp :=
  addOp (Some 2) "tf.D" [] [OpResult 4 0] [7]
  (addOp (Some 2) "tf.K" outsideCompiled [OpResult 3 0] [7]
  (addOp (Some 2) "tf.H" outsideCompiled [OpResult 1 0] [7]
  (addOp (Some 0) "tf_device.cluster" [] [] []
  (addOp (Some 0) "tf.P" [] [arg_a] [7]
  (addOp None "tf_device.replicate" [] [] [] (emptyModule [7])))))).

(** A region inside the cluster: cluster 0 { 1 = If { %2 = X(%a) tagged } },
    operation 2 standing in the body of operation 1. *)
Definition nestedUser : ModuleOp :=
  addOp (Some 1) "tf.X" outsideCompiled [arg_a] [7]
  (addOp (Some 0) "tf.IfRegion" [] [] []
  (addOp None "tf_device.cluster" [] [] [] (emptyModule [7]))).

(** cluster 0 { %1 = X(%a) tagged }; %2 = Y(%a) tagged, the operation that
    follows the cluster in the function block. *)
Definition followedByHead : ModuleOp :=
  addOp None "tf.Y" outsideCompiled [arg_a] [7]
  (addOp (Some 0) "tf.X" outsideCompiled [arg_a] [7]
  (addOp None "tf_device.cluster" [] [] [] (emptyModule [7]))).

(** ** More vocabulary *)

(** No operation of the arena carries the attribute. *)
Definition noOutsideCompiledOp (m : ModuleOp) : bool :=
  forallb (fun op => negb (HasOutsideCompilationAttribute op)) (opTable m).

(** Every operand slot of every operation is linked in the use-list of the
    value it reads. *)
Definition useListsComplete (m : ModuleOp) : bool :=
  forallb
    (fun op =>
       forallb
         (fun k =>
            match getOperands (getOp m op) !! k with
            | Some v => bool_decide (mkOpOperand op k ∈ getUses m v)
            | None => true
            end)
         (seq 0 (length (getOperands (getOp m op)))))
    (seq 0 (length (opTable m))).

(** [op] owns a use of some value. *)
Definition isUser (m : ModuleOp) (op : nat) : Prop :=
  ∃ v use, use ∈ getUses m v ∧ getOwner use = op.

(** The state of the traversal, with the uses it has looked at so far:
    a tagged operation with operands, all of them available, is recorded or
    has a use that was not looked at yet; the uses looked at read available
    values; the results of the recorded operations are available. *)
Definition Pending (m : ModuleOp) (ops : list nat) (values : list Value)
    (visited : list OpOperand) : Prop :=
  ∀ op,
    HasOutsideCompilationAttribute (getOp m op) = true →
    getOperands (getOp m op) ≠ [] →
    (∀ v, v ∈ getOperands (getOp m op) → v ∈ values) →
    op ∈ ops
    ∨ ∃ k, k < length (getOperands (getOp m op)) ∧ mkOpOperand op k ∉ visited.

Definition VisitedAvailable (m : ModuleOp) (values : list Value)
    (visited : list OpOperand) : Prop :=
  ∀ use, use ∈ visited →
         ∃ v, getOperandValue m use = Some v ∧ v ∈ values.

Definition ResultsAvailable (m : ModuleOp) (ops : list nat)
    (values : list Value) : Prop :=
  ∀ op r, op ∈ ops → r ∈ getResults m op → r ∈ values.

Definition Explored (m : ModuleOp) (ops : list nat) (values : list Value)
    (visited : list OpOperand) : Prop :=
  Pending m ops values visited
  ∧ VisitedAvailable m values visited
  ∧ ResultsAvailable m ops values.

(** The uses of the results of [ops] were all looked at. *)
Definition Covered (m : ModuleOp) (ops : list nat) (visited : list OpOperand)
  : Prop :=
  ∀ op r use, op ∈ ops → r ∈ getResults m op → use ∈ getUses m r →
              use ∈ visited.

(** Every use linked in the use-list of a value that is not a result of
    [launch] reads that value. *)
Definition UsesReadValue (launch : nat) (m : ModuleOp) : Prop :=
  ∀ w use, (∀ i, w ≠ OpResult launch i) → use ∈ getUses m w →
           getOperandValue m use = Some w.

(** Every operand slot of [m] reads what it read in [base], or reads result
    [j] of [launch] where it read the [j]-th of the values [done] in [base],
    its owner not being a head operation. *)
Definition Redirected (base : ModuleOp) (head : list nat) (launch : nat)
    (done : list Value) (m : ModuleOp) : Prop :=
  ∀ op k v',
    getOperands (getOp m op) !! k = Some v' →
    getOperands (getOp base op) !! k = Some v'
    ∨ ∃ j w,
        v' = OpResult launch j ∧ done !! j = Some w
        ∧ getOperands (getOp base op) !! k = Some w ∧ op ∉ head.



(** * Properties *)

(** ** SetVector *)

Section SetVectorFacts.
Context {A : Type} `{EqDecision A}.
Implicit Types (x y : A) (s xs : list A).

Lemma count_eqb_0 x s : (SetVector.count x s =? 0) = true ↔ x ∉ s.
Proof.
  unfold SetVector.count. destruct (decide (x ∈ s)); simpl; split; intros;
    try done; try lia.
Qed.

Lemma count_eqb_0_false x s : (SetVector.count x s =? 0) = false ↔ x ∈ s.
Proof.
  unfold SetVector.count. destruct (decide (x ∈ s)); simpl; split; intros;
    try done; try lia.
Qed.

Lemma elem_of_insert y x s : y ∈ SetVector.insert x s ↔ y ∈ s ∨ y = x.
Proof.
  unfold SetVector.insert. destruct (decide (x ∈ s)).
  - split; [auto | intros [?| ->]; done].
  - rewrite elem_of_app, list_elem_of_singleton. done.
Qed.

Lemma elem_of_insert_range y xs s :
  y ∈ SetVector.insert_range xs s ↔ y ∈ s ∨ y ∈ xs.
Proof.
  revert s. induction xs as [|x xs IH]; intros s; simpl.
  - rewrite elem_of_nil. tauto.
  - rewrite IH, elem_of_insert, elem_of_cons. tauto.
Qed.

Lemma NoDup_insert x s : NoDup s → NoDup (SetVector.insert x s).
Proof.
  intros Hs. unfold SetVector.insert. destruct (decide (x ∈ s)); [done|].
  apply NoDup_app. split; [done|]. split.
  - intros y Hy ->%list_elem_of_singleton. done.
  - apply NoDup_singleton.
Qed.

Lemma NoDup_insert_range xs s : NoDup s → NoDup (SetVector.insert_range xs s).
Proof.
  revert s. induction xs as [|x xs IH]; intros s Hs; simpl; [done|].
  apply IH, NoDup_insert, Hs.
Qed.

Lemma insert_range_snoc xs x s :
  SetVector.insert_range (xs ++ [x]) s
  = SetVector.insert x (SetVector.insert_range xs s).
Proof.
  revert s. induction xs as [|z xs IH]; intros s; simpl; [done|]. apply IH.
Qed.

(** Recording into the set that is appended last commutes with the
    appending. *)
Lemma insert_range_insert xs x s :
  SetVector.insert_range (SetVector.insert x xs) s
  = SetVector.insert x (SetVector.insert_range xs s).
Proof.
  unfold SetVector.insert at 1. destruct (decide (x ∈ xs)) as [Hin|Hin].
  - unfold SetVector.insert.
    destruct (decide (x ∈ SetVector.insert_range xs s)) as [|Hn]; [done|].
    exfalso. apply Hn, elem_of_insert_range. auto.
  - apply insert_range_snoc.
Qed.

Lemma empty_true s : SetVector.empty s = true ↔ s = [].
Proof. destruct s; simpl; split; congruence. Qed.
End SetVectorFacts.

(** ** The head set *)

Lemma OpContainsOperandsFromSet_loop_true operands set :
  OpContainsOperandsFromSet_loop operands set = true
  ↔ ∀ v, v ∈ operands → v ∈ set.
Proof.
  induction operands as [|operand rest IH]; simpl.
  - split; [|done]. intros _ v Hv. by apply elem_of_nil in Hv.
  - destruct (SetVector.count operand set =? 0) eqn:Hc.
    + apply count_eqb_0 in Hc. split; [done|]. intros Hall.
      exfalso. apply Hc, Hall. left.
    + apply count_eqb_0_false in Hc. rewrite IH. split.
      * intros Hall v [->|Hv]%elem_of_cons; auto.
      * intros Hall v Hv. apply Hall. by right.
Qed.

Lemma elem_of_getResults m op v :
  v ∈ getResults m op
  ↔ ∃ i, v = OpResult op i ∧ i < length (opResults (getOp m op)).
Proof.
  unfold getResults. rewrite list_elem_of_fmap. split.
  - intros (i & -> & Hi). apply elem_of_seq in Hi. exists i. split; [done|lia].
  - intros (i & -> & Hi). exists i. split; [done|]. apply elem_of_seq. lia.
Qed.

(** An operation that carries the attribute is an operation of the arena. *)
Lemma HasOutsideCompilationAttribute_in_arena m op :
  HasOutsideCompilationAttribute (getOp m op) = true → op < length (opTable m).
Proof.
  unfold getOp. destruct (opTable m !! op) as [o|] eqn:Hop; simpl.
  - intros _. eapply lookup_lt_Some, Hop.
  - discriminate.
Qed.

Lemma traverseConnected_nil fuel m values ops :
  traverseConnected fuel m [] values ops = Some (values, ops).
Proof. by destruct fuel. Qed.

Lemma traverseConnected_step fuel m parent values ops :
  parent ≠ [] →
  traverseConnected (S fuel) m parent values ops
  = traverseConnected fuel m
      (recordConnected m parent ([], values)).1
      (recordConnected m parent ([], values)).2
      (SetVector.insert_range parent ops).
Proof.
  intros Hne. destruct parent; [done|].
  cbn [traverseConnected SetVector.empty].
  by destruct (recordConnected m (n :: parent) ([], values)).
Qed.

Lemma traverseConnected_0 m parent values ops :
  parent ≠ [] → traverseConnected 0 m parent values ops = None.
Proof. by destruct parent. Qed.

(** More fuel does not change a result. *)
Lemma traverseConnected_mono fuel fuel' m parent values ops result :
  fuel ≤ fuel' →
  traverseConnected fuel m parent values ops = Some result →
  traverseConnected fuel' m parent values ops = Some result.
Proof.
  revert fuel' parent values ops.
  induction fuel as [|fuel IH]; intros fuel' parent values ops Hle.
  - destruct parent; [|done]. by rewrite !traverseConnected_nil.
  - destruct (decide (parent = [])) as [->|Hne].
    + by rewrite !traverseConnected_nil.
    + destruct fuel' as [|fuel']; [lia|].
      rewrite !traverseConnected_step by done. apply IH. lia.
Qed.

Lemma extractFromInputs_mono fuel fuel' m inputs values ops result :
  fuel ≤ fuel' →
  extractFromInputs fuel m inputs values ops = Some result →
  extractFromInputs fuel' m inputs values ops = Some result.
Proof.
  intros Hle. revert values ops.
  induction inputs as [|input rest IH]; intros values ops; simpl; [done|].
  destruct (ExtractOutsideCompiledOpsConnectedToHead fuel m input values ops)
    as [[values1 ops1]|] eqn:Hex; [|done].
  unfold ExtractOutsideCompiledOpsConnectedToHead in *.
  destruct (recordUses m (getUses m input) ([], values)) as [parent values0].
  rewrite (traverseConnected_mono _ _ _ _ _ _ _ Hle Hex). apply IH.
Qed.

Lemma Identify_mono fuel fuel' m cluster head :
  fuel ≤ fuel' →
  IdentifyOutsideCompiledOpsAtHead fuel m cluster = Some head →
  IdentifyOutsideCompiledOpsAtHead fuel' m cluster = Some head.
Proof.
  intros Hle. unfold IdentifyOutsideCompiledOpsAtHead.
  destruct (extractFromInputs fuel m _ _ []) as [[values ops]|] eqn:Hex;
    [|done].
  by rewrite (extractFromInputs_mono _ _ _ _ _ _ _ Hle Hex).
Qed.

Section HeadSet.
Variable m : ModuleOp.
Variable boundary : list Value.

Lemma producedBy_mono ops ops' v :
  (∀ p, p ∈ ops → p ∈ ops') → producedBy boundary ops v → producedBy boundary ops' v.
Proof.
  intros Hsub [Hb|(p & i & -> & Hp)]; [by left|].
  right. exists p, i. auto.
Qed.

Lemma Ordered_NoDup ops : Ordered m boundary ops → NoDup ops.
Proof.
  induction 1 as [|ops op _ IH Hnew _ _]; [constructor|].
  apply NoDup_app. split; [done|]. split.
  - intros y Hy ->%list_elem_of_singleton. done.
  - apply NoDup_singleton.
Qed.

Lemma Ordered_split ops ops1 op ops2 :
  Ordered m boundary ops → ops = ops1 ++ op :: ops2 →
  HasOutsideCompilationAttribute (getOp m op) = true
  ∧ (∀ v, v ∈ getOperands (getOp m op) → producedBy boundary ops1 v).
Proof.
  intros Hord. revert ops1 op ops2.
  induction Hord as [|ops x Hord IH Hnew Htag Hops]; intros ops1 op ops2 Heq.
  - by destruct ops1.
  - destruct ops2 as [|y ops2 _] using rev_ind.
    + apply app_inj_tail in Heq as [-> ->]. done.
    + rewrite app_comm_cons, app_assoc in Heq.
      apply app_inj_tail in Heq as [-> ->]. by eapply IH.
Qed.

Lemma HeadInv_record prefix op ops values :
  HeadInv m boundary (SetVector.insert_range ops prefix) values →
  HeadInv m boundary
    (SetVector.insert_range
       (RecordOutsideCompiledOpsAndUsages m op (ops, values)).1 prefix)
    (RecordOutsideCompiledOpsAndUsages m op (ops, values)).2.
Proof.
  intros [Hord Hval]. unfold RecordOutsideCompiledOpsAndUsages.
  destruct (HasOutsideCompilationAttribute (getOp m op)) eqn:Htag;
    simpl; [|done].
  destruct (OpContainsOperandsFromSet (getOp m op) values) eqn:Hin;
    simpl; [|done].
  unfold OpContainsOperandsFromSet in Hin.
  pose proof (proj1 (OpContainsOperandsFromSet_loop_true _ _) Hin) as Hall.
  rewrite insert_range_insert.
  set (recorded := SetVector.insert_range ops prefix) in *.
  assert (Hres : ∀ v, v ∈ SetVector.insert_range (getResults m op) values →
                      producedBy boundary (SetVector.insert op recorded) v).
  { intros v [Hv|Hv]%elem_of_insert_range.
    - eapply producedBy_mono, Hval, Hv.
      intros p Hp. apply elem_of_insert. by left.
    - apply elem_of_getResults in Hv as (i & -> & _).
      right. exists op, i. split; [done|]. apply elem_of_insert. by right. }
  split; [|done].
  unfold SetVector.insert in *. destruct (decide (op ∈ recorded)); [done|].
  constructor; auto.
Qed.

Lemma HeadInv_recordUses prefix uses st :
  HeadInv m boundary (SetVector.insert_range st.1 prefix) st.2 →
  HeadInv m boundary (SetVector.insert_range (recordUses m uses st).1 prefix)
          (recordUses m uses st).2.
Proof.
  revert st. induction uses as [|usage rest IH]; intros [ops values] Hinv;
    [done|].
  apply IH, HeadInv_record, Hinv.
Qed.

Lemma HeadInv_recordResults prefix results st :
  HeadInv m boundary (SetVector.insert_range st.1 prefix) st.2 →
  HeadInv m boundary (SetVector.insert_range (recordResults m results st).1 prefix)
          (recordResults m results st).2.
Proof.
  revert st. induction results as [|r rest IH]; intros st Hinv; [done|].
  apply IH, HeadInv_recordUses, Hinv.
Qed.

Lemma HeadInv_recordConnected prefix parent st :
  HeadInv m boundary (SetVector.insert_range st.1 prefix) st.2 →
  HeadInv m boundary (SetVector.insert_range (recordConnected m parent st).1 prefix)
          (recordConnected m parent st).2.
Proof.
  revert st. induction parent as [|p rest IH]; intros st Hinv; [done|].
  apply IH, HeadInv_recordResults, Hinv.
Qed.

Lemma HeadInv_traverseConnected fuel parent values ops values' ops' :
  HeadInv m boundary (SetVector.insert_range parent ops) values →
  traverseConnected fuel m parent values ops = Some (values', ops') →
  HeadInv m boundary ops' values'.
Proof.
  revert parent values ops.
  induction fuel as [|fuel IH]; intros parent values ops Hinv Hrun;
    destruct (decide (parent = [])) as [->|Hne].
  - rewrite traverseConnected_nil in Hrun. by simplify_eq.
  - by rewrite traverseConnected_0 in Hrun.
  - rewrite traverseConnected_nil in Hrun. by simplify_eq.
  - rewrite traverseConnected_step in Hrun by done.
    eapply IH; [|exact Hrun].
    apply (HeadInv_recordConnected _ parent ([], values)), Hinv.
Qed.

Lemma HeadInv_Extract fuel input values ops values' ops' :
  HeadInv m boundary ops values →
  ExtractOutsideCompiledOpsConnectedToHead fuel m input values ops
    = Some (values', ops') →
  HeadInv m boundary ops' values'.
Proof.
  intros Hinv. unfold ExtractOutsideCompiledOpsConnectedToHead.
  destruct (recordUses m (getUses m input) ([], values))
    as [parent values1] eqn:Hrec.
  apply HeadInv_traverseConnected.
  pose proof (HeadInv_recordUses ops (getUses m input) ([], values) Hinv) as H.
  by rewrite Hrec in H.
Qed.

Lemma HeadInv_extractFromInputs fuel inputs values ops values' ops' :
  HeadInv m boundary ops values →
  extractFromInputs fuel m inputs values ops = Some (values', ops') →
  HeadInv m boundary ops' values'.
Proof.
  revert values ops. induction inputs as [|input rest IH];
    intros values ops Hinv Hrun; simpl in Hrun; [by simplify_eq|].
  destruct (ExtractOutsideCompiledOpsConnectedToHead fuel m input values ops)
    as [[values1 ops1]|] eqn:Hex; [|done].
  eapply IH; [|exact Hrun]. eapply HeadInv_Extract; eauto.
Qed.
End HeadSet.

Lemma Identify_Ordered fuel m cluster head :
  IdentifyOutsideCompiledOpsAtHead fuel m cluster = Some head →
  Ordered m (getUsedValuesDefinedAbove m cluster) head.
Proof.
  unfold IdentifyOutsideCompiledOpsAtHead. intros Hrun.
  destruct (extractFromInputs fuel m _ _ []) as [[values ops]|] eqn:Hex; [|done].
  simplify_eq.
  eapply (HeadInv_extractFromInputs m (getUsedValuesDefinedAbove m cluster));
    [|exact Hex].
  split; [constructor|]. intros v Hv. by left.
Qed.

(** ** Nesting *)

Lemma findHolder_Some op index table holder :
  findHolder op index table = Some holder →
  index ≤ holder
  ∧ ∃ x, table !! (holder - index) = Some x ∧ op ∈ getBody x.
Proof.
  revert index. induction table as [|x rest IH]; intros index; simpl; [done|].
  destruct (bool_decide (op ∈ getBody x)) eqn:Hin.
  - intros [= <-]. split; [done|]. exists x. rewrite Nat.sub_diag.
    split; [done|]. by apply bool_decide_eq_true in Hin.
  - intros (Hle & y & Hy & Hop)%IH. split; [lia|]. exists y. split; [|done].
    by replace (holder - index) with (S (holder - S index)) by lia.
Qed.

(** The parent region of an operation is a region whose block links it. *)
Lemma Operation_getParentRegion_Some m op region :
  Operation_getParentRegion m op = Some region →
  op ∈ Region_front m region.
Proof.
  unfold Operation_getParentRegion.
  destruct (bool_decide (op ∈ getBlock m)) eqn:Hin.
  - intros [= <-]. by apply bool_decide_eq_true in Hin.
  - destruct (findHolder op 0 (opTable m)) as [holder|] eqn:Hfind; [|done].
    intros [= <-]. apply findHolder_Some in Hfind as (_ & x & Hx & Hop).
    rewrite Nat.sub_0_r in Hx. simpl. unfold getOp. by rewrite Hx.
Qed.

Lemma isNestingDepth_body depth bound m holder op :
  isNestingDepth depth bound m = true →
  op ∈ getBody (getOp m holder) →
  depth op < depth holder ∧ depth holder < bound.
Proof.
  unfold isNestingDepth. rewrite forallb_forall. intros Hall Hop.
  assert (Hlt : holder < length (opTable m)).
  { apply lookup_lt_is_Some. unfold getOp in Hop.
    destruct (opTable m !! holder); [done|]. by apply elem_of_nil in Hop. }
  specialize (Hall holder). rewrite in_seq in Hall.
  destruct (proj1 (andb_true_iff _ _) (Hall ltac:(lia))) as [Hb Hbody].
  apply Nat.ltb_lt in Hb. split; [|done].
  rewrite forallb_forall in Hbody. apply list_elem_of_In, Hbody in Hop.
  by apply Nat.ltb_lt in Hop.
Qed.

Lemma flat_map_ext_elem {A B} (f g : A → list B) l :
  (∀ x, x ∈ l → f x = g x) → flat_map f l = flat_map g l.
Proof.
  induction l as [|x l IH]; intros Hext; simpl; [done|].
  rewrite Hext by left. rewrite IH; [done|]. intros y Hy. apply Hext. by right.
Qed.

Lemma walkOperations_leaf fuel m op :
  getBody (getOp m op) = [] → walkOperations fuel m op = [op].
Proof. intros Hbody. destruct fuel; simpl; [done|]. by rewrite Hbody. Qed.

(** In a properly nested module the walk does not depend on the fuel, once
    the fuel covers the depth of the operation. *)
Lemma walkOperations_fuel depth bound m fuel fuel' op :
  isNestingDepth depth bound m = true →
  depth op ≤ fuel → depth op ≤ fuel' →
  walkOperations fuel m op = walkOperations fuel' m op.
Proof.
  intros Hnest. revert fuel' op.
  assert (Hleaf : ∀ op, depth op = 0 → getBody (getOp m op) = []).
  { intros op Hd. destruct (getBody (getOp m op)) as [|x body] eqn:Hbody;
      [done|].
    destruct (isNestingDepth_body depth bound m op x Hnest); [|lia].
    rewrite Hbody. left. }
  induction fuel as [|fuel IH]; intros fuel' op Hd Hd'.
  - rewrite !walkOperations_leaf; [done|apply Hleaf; lia|apply Hleaf; lia].
  - destruct fuel' as [|fuel'].
    + rewrite !walkOperations_leaf; [done|apply Hleaf; lia|apply Hleaf; lia].
    + simpl. f_equal. apply flat_map_ext_elem. intros x Hx.
      destruct (isNestingDepth_body depth bound m op x Hnest Hx).
      apply IH; lia.
Qed.

(** The fuel of [Region_walk] is enough for a properly nested module. *)
Lemma Region_walk_fuel depth bound m region fuel :
  isNestingDepth depth bound m = true →
  (∀ op, op ∈ Region_front m region → depth op < bound) →
  bound ≤ nestingFuel m → bound ≤ fuel →
  flat_map (walkOperations fuel m) (Region_front m region)
  = Region_walk m region.
Proof.
  intros Hnest Hfront Hbound Hfuel. unfold Region_walk.
  apply flat_map_ext_elem. intros op Hop%Hfront.
  eapply walkOperations_fuel; [done|lia|lia].
Qed.

Lemma enclosingRegions_fuel depth bound m fuel fuel' op :
  isNestingDepth depth bound m = true →
  0 < fuel → bound ≤ depth op + fuel →
  0 < fuel' → bound ≤ depth op + fuel' →
  enclosingRegions fuel m op = enclosingRegions fuel' m op.
Proof.
  intros Hnest. revert fuel' op.
  induction fuel as [|fuel IH]; intros fuel' op H0 Hd H0' Hd'; [lia|].
  destruct fuel' as [|fuel']; [lia|]. simpl.
  destruct (Operation_getParentRegion m op) as [[|holder]|] eqn:Hparent;
    [done| |done].
  apply Operation_getParentRegion_Some in Hparent. simpl in Hparent.
  destruct (isNestingDepth_body depth bound m holder op Hnest Hparent).
  f_equal. apply IH; lia.
Qed.

(** The fuel of [properAncestors] is enough for a properly nested module. *)
Lemma properAncestors_fuel depth bound m op fuel :
  isNestingDepth depth bound m = true →
  bound ≤ nestingFuel m → bound ≤ fuel → 0 < fuel →
  enclosingRegions fuel m op = properAncestors m op.
Proof.
  intros Hnest Hbound Hfuel H0. unfold properAncestors.
  eapply enclosingRegions_fuel; [done|lia|lia| |]; unfold nestingFuel in *; lia.
Qed.

(** Without nested region the walk of a region is its block. *)
Lemma Region_walk_flat m region :
  (∀ op, op ∈ Region_front m region → getBody (getOp m op) = []) →
  Region_walk m region = Region_front m region.
Proof.
  unfold Region_walk. induction (Region_front m region) as [|op rest IH];
    intros Hflat; [done|]. cbn [flat_map].
  rewrite walkOperations_leaf by (apply Hflat; left). cbn [app]. f_equal.
  apply IH. intros x Hx. apply Hflat. by right.
Qed.

(** The only region around an operation of the function block is the body
    of the function. *)
Lemma properAncestors_function_block m op :
  op ∈ getBlock m → properAncestors m op = [FunctionBody].
Proof.
  intros Hop. unfold properAncestors, nestingFuel. simpl.
  unfold Operation_getParentRegion. by rewrite bool_decide_eq_true_2.
Qed.

(** A value is defined in the body of the function when it is an argument
    of the function or a result of an operation of the function block. *)
Lemma isDefinedAbove_function_block m v :
  isDefinedAbove m [FunctionBody] v
  = match v with
    | BlockArgument _ => true
    | OpResult op _ => bool_decide (op ∈ getBlock m)
    end.
Proof.
  unfold isDefinedAbove. destruct v as [n|op i]; simpl; [done|].
  unfold Operation_getParentRegion.
  destruct (bool_decide (op ∈ getBlock m)); [done|].
  by destruct (findHolder op 0 (opTable m)).
Qed.

(** ** Boundary inputs *)

Lemma elem_of_collectOperandsDefinedAbove m ancestors operands values v :
  v ∈ collectOperandsDefinedAbove m ancestors operands values
  ↔ v ∈ values ∨ (v ∈ operands ∧ isDefinedAbove m ancestors v = true).
Proof.
  revert values. induction operands as [|operand rest IH]; intros values; simpl.
  - rewrite elem_of_nil. tauto.
  - rewrite IH, elem_of_cons.
    destruct (isDefinedAbove m ancestors operand) eqn:Habove.
    + rewrite elem_of_insert. split.
      * intros [[?| ->]|[? ?]]; auto.
      * intros [?|[[->|?] ?]]; auto.
    + split.
      * intros [?|[? ?]]; auto.
      * intros [?|[[->|?] ?]]; [auto|congruence|auto].
Qed.

Lemma elem_of_walkUsedValuesDefinedAbove m ancestors ops values v :
  v ∈ walkUsedValuesDefinedAbove m ancestors ops values
  ↔ v ∈ values
    ∨ (isDefinedAbove m ancestors v = true
       ∧ ∃ user, user ∈ ops ∧ v ∈ getOperands (getOp m user)).
Proof.
  revert values. induction ops as [|op rest IH]; intros values; simpl.
  - split; [auto|]. intros [?|[_ (user & Hu & _)]]; [done|].
    by apply elem_of_nil in Hu.
  - rewrite IH, elem_of_collectOperandsDefinedAbove. split.
    + intros [[?|[? ?]]|[? (user & ? & ?)]]; [auto| |].
      * right. split; [done|]. exists op. split; [left|done].
      * right. split; [done|]. exists user. split; [by right|done].
    + intros [?|[? (user & [->|?]%elem_of_cons & ?)]]; [auto|auto|].
      right. split; [done|]. by exists user.
Qed.

(** A boundary input of a cluster is a value whose parent region is a proper
    ancestor of the cluster region and that an operation nested in the
    cluster region reads. *)
Lemma elem_of_getUsedValuesDefinedAbove m cluster v :
  v ∈ getUsedValuesDefinedAbove m cluster
  ↔ isDefinedAbove m (properAncestors m cluster) v = true
    ∧ ∃ user, user ∈ Region_walk m (BodyOf cluster)
              ∧ v ∈ getOperands (getOp m user).
Proof.
  unfold getUsedValuesDefinedAbove.
  rewrite elem_of_walkUsedValuesDefinedAbove, elem_of_nil. tauto.
Qed.

(** ** Where recorded operations come from *)

Lemma elem_of_record m op st o :
  o ∈ (RecordOutsideCompiledOpsAndUsages m op st).1 →
  o ∈ st.1 ∨ (o = op ∧ HasOutsideCompilationAttribute (getOp m o) = true).
Proof.
  destruct st as [ops values]. unfold RecordOutsideCompiledOpsAndUsages.
  destruct (HasOutsideCompilationAttribute (getOp m op)) eqn:Htag; simpl;
    [|auto].
  destruct (OpContainsOperandsFromSet (getOp m op) values); simpl; [|auto].
  intros [?| ->]%elem_of_insert; auto.
Qed.

Lemma elem_of_recordUses m uses st o :
  o ∈ (recordUses m uses st).1 →
  o ∈ st.1
  ∨ ∃ use, use ∈ uses ∧ getOwner use = o
           ∧ HasOutsideCompilationAttribute (getOp m o) = true.
Proof.
  revert st. induction uses as [|usage rest IH]; intros st Ho; [by left|].
  apply IH in Ho as [Ho|(use & ? & ? & ?)].
  - apply elem_of_record in Ho as [?|[-> ?]]; [by left|].
    right. exists usage. split; [left|done].
  - right. exists use. split; [by right|done].
Qed.

Lemma elem_of_recordResults m results st o :
  o ∈ (recordResults m results st).1 →
  o ∈ st.1
  ∨ ∃ r use, r ∈ results ∧ use ∈ getUses m r ∧ getOwner use = o
             ∧ HasOutsideCompilationAttribute (getOp m o) = true.
Proof.
  revert st. induction results as [|r rest IH]; intros st Ho; [by left|].
  apply IH in Ho as [Ho|(r' & use & ? & ?)].
  - apply elem_of_recordUses in Ho as [?|(use & ? & ?)]; [by left|].
    right. exists r, use. split; [left|done].
  - right. exists r', use. split; [by right|done].
Qed.

Lemma elem_of_recordConnected m parent st o :
  o ∈ (recordConnected m parent st).1 →
  o ∈ st.1
  ∨ ∃ p r use, p ∈ parent ∧ r ∈ getResults m p ∧ use ∈ getUses m r
               ∧ getOwner use = o
               ∧ HasOutsideCompilationAttribute (getOp m o) = true.
Proof.
  revert st. induction parent as [|p rest IH]; intros st Ho; [by left|].
  apply IH in Ho as [Ho|(p' & r & use & ? & ?)].
  - apply elem_of_recordResults in Ho as [?|(r & use & ? & ?)]; [by left|].
    right. exists p, r, use. split; [left|done].
  - right. exists p', r, use. split; [by right|done].
Qed.

Lemma getResults_in_arena m p r :
  r ∈ getResults m p → p < length (opTable m).
Proof.
  intros (i & -> & Hi)%elem_of_getResults. unfold getOp in Hi.
  destruct (opTable m !! p) as [o|] eqn:Hp; simpl in Hi; [|lia].
  eapply lookup_lt_Some, Hp.
Qed.

Lemma useListsConsistent_use m p r use :
  useListsConsistent m = true →
  r ∈ getResults m p → use ∈ getUses m r →
  getOperandValue m use = Some r.
Proof.
  unfold useListsConsistent. rewrite forallb_forall. intros Hall Hr Huse.
  assert (Hin : In r (allValues m)).
  { unfold allValues. apply in_or_app. right. apply in_flat_map.
    exists p. split; [|by apply list_elem_of_In].
    apply in_seq. pose proof (getResults_in_arena _ _ _ Hr). lia. }
  specialize (Hall r Hin). rewrite forallb_forall in Hall.
  apply list_elem_of_In in Huse. apply Hall in Huse.
  by apply bool_decide_eq_true in Huse.
Qed.

Lemma isTopologicalRank_op rank bound m op :
  isTopologicalRank rank bound m = true →
  op < length (opTable m) →
  rank op < bound
  ∧ ∀ p i, OpResult p i ∈ getOperands (getOp m op) → rank p < rank op.
Proof.
  unfold isTopologicalRank. rewrite forallb_forall. intros Hall Hop.
  assert (Hin : In op (seq 0 (length (opTable m)))) by (apply in_seq; lia).
  apply Hall in Hin. apply andb_true_iff in Hin as [Hb Hops].
  split; [by apply Nat.ltb_lt|].
  intros p i Hv. rewrite forallb_forall in Hops.
  apply list_elem_of_In, Hops in Hv. by apply Nat.ltb_lt in Hv.
Qed.

(** ** Termination of the traversal *)

Section Termination.
Variable m : ModuleOp.
Variable rank : nat → nat.
Variable bound : nat.
Hypothesis Hconsistent : useListsConsistent m = true.
Hypothesis Hrank : isTopologicalRank rank bound m = true.

Lemma frontierAt_connected k parent values :
  frontierAt m rank k parent →
  frontierAt m rank (S k) (recordConnected m parent ([], values)).1.
Proof.
  intros Hparent o Ho.
  apply elem_of_recordConnected in Ho
    as [Ho|(p & r & use & Hp & Hr & Huse & Hown & Htag)].
  { by apply elem_of_nil in Ho. }
  split; [done|].
  pose proof (useListsConsistent_use _ _ _ _ Hconsistent Hr Huse) as Hval.
  apply elem_of_getResults in Hr as (i & -> & _).
  unfold getOperandValue in Hval. rewrite Hown in Hval.
  apply list_elem_of_lookup_2 in Hval.
  apply HasOutsideCompilationAttribute_in_arena in Htag.
  destruct (isTopologicalRank_op _ _ _ _ Hrank Htag) as [_ Hless].
  specialize (Hless _ _ Hval). destruct (Hparent _ Hp) as [_ Hk]. lia.
Qed.

Lemma frontierAt_bound k parent :
  frontierAt m rank k parent → parent ≠ [] → k < bound.
Proof.
  intros Hparent Hne. destruct parent as [|o parent]; [done|].
  destruct (Hparent o) as [Htag Hk]; [left|].
  apply HasOutsideCompilationAttribute_in_arena in Htag.
  destruct (isTopologicalRank_op _ _ _ _ Hrank Htag) as [Hb _]. lia.
Qed.

Lemma traverseConnected_terminates fuel k parent values ops :
  frontierAt m rank k parent → bound ≤ k + fuel →
  is_Some (traverseConnected fuel m parent values ops).
Proof.
  revert k parent values ops.
  induction fuel as [|fuel IH]; intros k parent values ops Hparent Hfuel;
    destruct (decide (parent = [])) as [->|Hne];
    try (rewrite traverseConnected_nil; eauto).
  - pose proof (frontierAt_bound _ _ Hparent Hne). lia.
  - rewrite traverseConnected_step by done.
    apply (IH (S k)); [by apply frontierAt_connected|lia].
Qed.

Lemma Extract_terminates fuel input values ops :
  bound ≤ fuel →
  is_Some (ExtractOutsideCompiledOpsConnectedToHead fuel m input values ops).
Proof.
  intros Hfuel. unfold ExtractOutsideCompiledOpsConnectedToHead.
  destruct (recordUses m (getUses m input) ([], values))
    as [parent values1] eqn:Hrec.
  apply (traverseConnected_terminates fuel 0); [|lia].
  intros o Ho.
  assert (Ho' : o ∈ (recordUses m (getUses m input) ([], values)).1)
    by (by rewrite Hrec).
  apply elem_of_recordUses in Ho' as [Ho'|(use & _ & _ & Htag)].
  - by apply elem_of_nil in Ho'.
  - split; [done|lia].
Qed.

Lemma extractFromInputs_terminates fuel inputs values ops :
  bound ≤ fuel → is_Some (extractFromInputs fuel m inputs values ops).
Proof.
  intros Hfuel. revert values ops.
  induction inputs as [|input rest IH]; intros values ops; simpl; [eauto|].
  destruct (Extract_terminates fuel input values ops Hfuel) as [[v o] ->].
  apply IH.
Qed.

Lemma Identify_terminates fuel cluster :
  bound ≤ fuel → is_Some (IdentifyOutsideCompiledOpsAtHead fuel m cluster).
Proof.
  intros Hfuel. unfold IdentifyOutsideCompiledOpsAtHead.
  destruct (extractFromInputs_terminates fuel
              (getUsedValuesDefinedAbove m cluster)
              (getUsedValuesDefinedAbove m cluster) [] Hfuel) as [[v o] ->].
  eauto.
Qed.
End Termination.

(** ** Reading a module after an update *)

Lemma getOp_updateOp m o f o' :
  getOp (updateOp m o f) o'
  = if decide (o = o') then default nullOperation (f <$> opTable m !! o)
    else getOp m o'.
Proof.
  unfold getOp, updateOp; simpl. destruct (decide (o = o')) as [->|Hne].
  - by rewrite list_lookup_alter_eq.
  - by rewrite list_lookup_alter_ne.
Qed.

Lemma getValueImpl_updateUseList m v f v' :
  getValueImpl (updateUseList m v f) v'
  = if decide (v = v') then updateUses f <$> getValueImpl m v
    else getValueImpl m v'.
Proof.
  destruct (decide (v = v')) as [<-|Hne].
  - destruct v as [n|o i]; simpl; [apply list_lookup_alter_eq|].
    rewrite getOp_updateOp, decide_True by done.
    unfold getOp. destruct (opTable m !! o) as [op|]; simpl; [|done].
    apply list_lookup_alter_eq.
  - destruct v as [n|o i], v' as [n'|o' i']; simpl; try done.
    + apply list_lookup_alter_ne. congruence.
    + rewrite getOp_updateOp. destruct (decide (o = o')) as [->|]; [|done].
      unfold getOp. destruct (opTable m !! o') as [op|]; simpl; [|done].
      apply list_lookup_alter_ne. congruence.
Qed.

Lemma getUses_updateUseList_ne m v f v' :
  v ≠ v' → getUses (updateUseList m v f) v' = getUses m v'.
Proof.
  intros Hne. unfold getUses.
  by rewrite getValueImpl_updateUseList, decide_False.
Qed.

Lemma getUses_updateUseList_eq m v f :
  getUses (updateUseList m v f) v
  = match getValueImpl m v with Some _ => f (getUses m v) | None => [] end.
Proof.
  unfold getUses. rewrite getValueImpl_updateUseList, decide_True by done.
  by destruct (getValueImpl m v).
Qed.

Lemma getValueImpl_setOperandValue m o use x v :
  getValueImpl (updateOp m o (setOperandValue use x)) v = getValueImpl m v.
Proof.
  destruct v as [n|p i]; simpl; [done|].
  rewrite getOp_updateOp. destruct (decide (o = p)) as [->|]; [|done].
  unfold getOp. by destruct (opTable m !! p).
Qed.

Lemma getUses_setOperandValue m o use x v :
  getUses (updateOp m o (setOperandValue use x)) v = getUses m v.
Proof. unfold getUses. by rewrite getValueImpl_setOperandValue. Qed.

(** A use-list that is empty stays empty when an operand is unlinked. *)
Lemma getUses_removeFromCurrent_nil m use v :
  getUses m v = [] → getUses (removeFromCurrent m use) v = [].
Proof.
  intros Hnil. unfold removeFromCurrent.
  destruct (getOperandValue m use) as [old|]; [|done].
  destruct (decide (old = v)) as [->|Hne].
  - rewrite getUses_updateUseList_eq, Hnil. by destruct (getValueImpl m v).
  - by rewrite getUses_updateUseList_ne.
Qed.

Lemma getUses_insertIntoCurrent_ne m use newValue v :
  getOperandValue m use = Some newValue → v ≠ newValue →
  getUses (insertIntoCurrent m use) v = getUses m v.
Proof.
  intros Hval Hne. unfold insertIntoCurrent. rewrite Hval.
  by rewrite getUses_updateUseList_ne.
Qed.

Lemma getOperandValue_setOperandValue m use x :
  getOperandValue (updateOp m (getOwner use) (setOperandValue use x)) use
  = match getOperandValue m use with Some _ => Some x | None => None end.
Proof.
  unfold getOperandValue. rewrite getOp_updateOp, decide_True by done.
  unfold getOp. destruct (opTable m !! getOwner use) as [op|]; simpl; [|done].
  destruct (getOperands op !! getOperandNumber use) eqn:Hk.
  - apply list_lookup_insert_eq. eapply lookup_lt_Some, Hk.
  - rewrite list_insert_ge; [done|]. by apply lookup_ge_None.
Qed.

(** After [use.set(newValue)] on a value that had no use, the operand is the
    only node of the use-list of [newValue], and every other list that was
    empty still is. *)
Lemma getUses_set_fresh m use newValue :
  getUses m newValue = [] →
  tail (getUses (OpOperand_set m use newValue) newValue) = [].
Proof.
  intros Hnil. unfold OpOperand_set.
  set (m1 := removeFromCurrent m use).
  set (m2 := updateOp m1 (getOwner use) (setOperandValue use newValue)).
  assert (H2 : getUses m2 newValue = []).
  { unfold m2. rewrite getUses_setOperandValue.
    by apply getUses_removeFromCurrent_nil. }
  unfold insertIntoCurrent. destruct (getOperandValue m2 use) as [v|] eqn:Hv.
  - destruct (decide (v = newValue)) as [->|Hne].
    + rewrite getUses_updateUseList_eq, H2. by destruct (getValueImpl m2 newValue).
    + by rewrite getUses_updateUseList_ne, H2.
  - by rewrite H2.
Qed.

Lemma getUses_set_other_nil m use newValue v :
  v ≠ newValue → getUses m v = [] →
  getUses (OpOperand_set m use newValue) v = [].
Proof.
  intros Hne Hnil. unfold OpOperand_set.
  set (m1 := removeFromCurrent m use).
  set (m2 := updateOp m1 (getOwner use) (setOperandValue use newValue)).
  assert (H2 : getUses m2 v = []).
  { unfold m2. rewrite getUses_setOperandValue.
    by apply getUses_removeFromCurrent_nil. }
  unfold insertIntoCurrent. destruct (getOperandValue m2 use) as [x|] eqn:Hx;
    [|done].
  assert (x = newValue) as ->.
  { unfold m2 in Hx. rewrite getOperandValue_setOperandValue in Hx.
    destruct (getOperandValue m1 use); congruence. }
  by rewrite getUses_updateUseList_ne.
Qed.

(** ** The use replacement always completes on a new launch operation *)

Lemma replaceUses_fresh m head launch j uses :
  (∀ j', j ≤ j' → getUses m (OpResult launch j') = []) →
  ∃ m', replaceUses m head (OpResult launch j) uses = Some m'
        ∧ ∀ j', S j ≤ j' → getUses m' (OpResult launch j') = [].
Proof.
  intros Hfresh. induction uses as [|use rest IH]; simpl.
  - exists m. split; [done|]. intros j' Hj. apply Hfresh. lia.
  - destruct (SetVector.count (getOwner use) head =? 0); [|exact IH].
    rewrite getUses_set_fresh by (apply Hfresh; lia).
    eexists. split; [done|]. intros j' Hj.
    apply getUses_set_other_nil; [|apply Hfresh; lia].
    intros [=]. lia.
Qed.

Lemma replaceOutputs_fresh m head launch j outputs :
  (∀ j', j ≤ j' → getUses m (OpResult launch j') = []) →
  is_Some (replaceOutputs m head launch j outputs).
Proof.
  revert m j. induction outputs as [|output rest IH]; intros m j Hfresh; simpl;
    [eauto|].
  destruct (replaceUses_fresh m head launch j (getUses m output) Hfresh)
    as (m' & -> & Hfresh').
  by apply IH.
Qed.

Lemma getOp_mapBlocks f m o :
  getOp (mapBlocks f m) o
  = default nullOperation (setBody f <$> opTable m !! o).
Proof. unfold getOp, mapBlocks; simpl. by rewrite list_lookup_fmap. Qed.

Lemma getUses_mapBlocks f m v :
  getUses (mapBlocks f m) v = getUses m v.
Proof.
  unfold getUses. destruct v as [n|o i]; simpl; [done|].
  rewrite getOp_mapBlocks. unfold getOp. by destruct (opTable m !! o).
Qed.

Lemma getOp_createOperation_new m name attributes resultTypes :
  getOp (createOperation m name attributes [] resultTypes).1
        (length (opTable m))
  = mkOperation name attributes []
      (map (fun t => mkValueImpl t []) resultTypes) [].
Proof.
  unfold getOp, createOperation; simpl.
  by rewrite lookup_app_r, Nat.sub_diag by lia.
Qed.

Lemma getUses_new_launch f m name attributes resultTypes j :
  getUses (mapBlocks f (createOperation m name attributes [] resultTypes).1)
          (OpResult (length (opTable m)) j) = [].
Proof.
  rewrite getUses_mapBlocks. unfold getUses, getValueImpl.
  rewrite getOp_createOperation_new; simpl.
  rewrite list_lookup_fmap. by destruct (resultTypes !! j).
Qed.

(** The transformation returns on every module and every head set. *)
Lemma Isolate_total m cluster head :
  is_Some (IsolateHeadExtractedOpsToLaunchOp m cluster head).
Proof.
  unfold IsolateHeadExtractedOpsToLaunchOp.
  destruct (SetVector.empty head); [eauto|].
  set (outputs := GetHeadExtractedClusterOutputs m head).
  set (types := map (Value_getType m) outputs).
  destruct (createOperation m "tf_device.launch"
              [("device", StringAttr EmptyString)] [] types)
    as [m1 launch] eqn:Hcreate.
  assert (launch = length (opTable m)) as -> by (by inversion Hcreate).
  assert (m1 = (createOperation m "tf_device.launch"
                  [("device", StringAttr EmptyString)] [] types).1) as ->
    by (by rewrite Hcreate).
  destruct (replaceOutputs_fresh
              (mapBlocks (insertBefore cluster (length (opTable m)))
                 (createOperation m "tf_device.launch"
                    [("device", StringAttr EmptyString)] [] types).1)
              head (length (opTable m)) 0 outputs) as [m3 ->].
  { intros j _. apply getUses_new_launch. }
  destruct (createOperation m3 "tf_device.return" [] outputs []). eauto.
Qed.

(** ** Blocks *)

Lemma length_blocks m : length (blocks m) = S (length (opTable m)).
Proof. unfold blocks. simpl. by rewrite length_map. Qed.

Lemma getBody_blocks m o : getBody (getOp m o) = default [] (blocks m !! S o).
Proof.
  unfold blocks, getOp; simpl. change (map getBody (opTable m))
    with (getBody <$> opTable m). rewrite list_lookup_fmap.
  by destruct (opTable m !! o).
Qed.

Lemma blocks_updateOp m o f :
  (∀ x, getBody (f x) = getBody x) → blocks (updateOp m o f) = blocks m.
Proof.
  intros Hf. unfold blocks, updateOp; simpl. f_equal.
  apply list_eq. intros i.
  change (map getBody ?l) with (getBody <$> l). rewrite !list_lookup_fmap.
  destruct (decide (o = i)) as [->|Hne].
  - rewrite list_lookup_alter_eq. destruct (opTable m !! i); simpl; [|done].
    by rewrite Hf.
  - by rewrite list_lookup_alter_ne.
Qed.

Lemma blocks_updateUseList m v f : blocks (updateUseList m v f) = blocks m.
Proof. destruct v; simpl; [done|]. by apply blocks_updateOp. Qed.

Lemma blocks_OpOperand_set m use v : blocks (OpOperand_set m use v) = blocks m.
Proof.
  unfold OpOperand_set, insertIntoCurrent, removeFromCurrent.
  destruct (getOperandValue (updateOp _ _ _) use);
    rewrite ?blocks_updateUseList, blocks_updateOp by done;
    by destruct (getOperandValue m use); rewrite ?blocks_updateUseList.
Qed.

Lemma blocks_replaceUses m head v uses m' :
  replaceUses m head v uses = Some m' → blocks m' = blocks m.
Proof.
  induction uses as [|use rest IH]; simpl; [by intros [= ->]|].
  destruct (SetVector.count (getOwner use) head =? 0); [|exact IH].
  destruct (tail _); [|done]. intros [= <-]. apply blocks_OpOperand_set.
Qed.

Lemma blocks_replaceOutputs m head launch j outputs m' :
  replaceOutputs m head launch j outputs = Some m' → blocks m' = blocks m.
Proof.
  revert m j. induction outputs as [|output rest IH]; intros m j; simpl;
    [by intros [= ->]|].
  destruct (replaceUses m head (OpResult launch j) (getUses m output))
    as [m1|] eqn:H1; [|done].
  intros Hrest. apply IH in Hrest. apply blocks_replaceUses in H1. congruence.
Qed.

Lemma blocks_linkOperands m op index operands :
  blocks (linkOperands m op index operands) = blocks m.
Proof.
  revert m index. induction operands as [|v rest IH]; intros m index; simpl;
    [done|]. by rewrite IH, blocks_updateUseList.
Qed.

Lemma blocks_createOperation m name attributes operands resultTypes :
  blocks (createOperation m name attributes operands resultTypes).1
  = blocks m ++ [[]].
Proof.
  unfold createOperation; simpl. rewrite blocks_linkOperands.
  unfold blocks; simpl. by rewrite map_app.
Qed.

Lemma blocks_mapBlocks f m : blocks (mapBlocks f m) = map f (blocks m).
Proof.
  unfold blocks, mapBlocks; simpl. f_equal. rewrite !map_map. done.
Qed.

Lemma blocks_setBody m o f :
  blocks (updateOp m o (setBody f)) = alter f (S o) (blocks m).
Proof.
  unfold blocks, updateOp; simpl. f_equal.
  change (map getBody ?l) with (getBody <$> l).
  apply list_fmap_alter, Forall_forall. done.
Qed.

Lemma blocks_moveOpsBefore m ops terminator :
  blocks (moveOpsBefore m ops terminator)
  = map (moveBlock ops terminator) (blocks m).
Proof.
  revert m. induction ops as [|op rest IH]; intros m; cbn [moveOpsBefore].
  - rewrite <- (map_id (blocks m)) at 1. by apply map_ext.
  - rewrite IH. unfold moveBefore. rewrite !blocks_mapBlocks, !map_map.
    by apply map_ext.
Qed.

Lemma elem_of_unlink (x y : nat) l : y ∈ unlink x l ↔ y ∈ l ∧ y ≠ x.
Proof.
  induction l as [|z l IH]; simpl.
  - rewrite elem_of_nil. tauto.
  - destruct (decide (z = x)) as [->|Hne]; rewrite ?elem_of_cons, IH.
    + split; [tauto|]. intros [[->|?] ?]; done.
    + split; [|tauto]. intros [->|[? ?]]; auto.
Qed.

Lemma unlink_not_in (x : nat) l : x ∉ l → unlink x l = l.
Proof.
  induction l as [|z l IH]; simpl; [done|].
  intros [Hz Hl]%not_elem_of_cons.
  rewrite decide_False by done. by rewrite IH.
Qed.

Lemma insertBefore_not_in before op l : before ∉ l → insertBefore before op l = l.
Proof.
  induction l as [|z l IH]; simpl; [done|].
  intros [Hz Hl]%not_elem_of_cons.
  rewrite decide_False by done. by rewrite IH.
Qed.

Lemma insertBefore_last before op l :
  before ∉ l → insertBefore before op (l ++ [before]) = l ++ [op; before].
Proof.
  induction l as [|z l IH]; simpl.
  - by rewrite decide_True.
  - intros [Hz Hl]%not_elem_of_cons. rewrite decide_False by done.
    by rewrite IH.
Qed.

Lemma elem_of_insertBefore before op l x :
  x ∈ insertBefore before op l ↔ x ∈ l ∨ (x = op ∧ before ∈ l).
Proof.
  induction l as [|z l IH]; simpl.
  - rewrite elem_of_nil. split; [tauto|]. intros [?|[_ H]]; [done|].
    by apply elem_of_nil in H.
  - destruct (decide (z = before)) as [->|Hne].
    + rewrite !elem_of_cons. split.
      * intros [->|[->|?]]; auto.
      * intros [[->|?]|[-> _]]; auto.
    + rewrite !elem_of_cons, IH. split.
      * intros [->|[?|[-> ?]]]; auto.
      * intros [[->|?]|[-> [->|?]]]; auto. done.
Qed.

(** In the block that ends with the terminator, the moved operations line up
    in front of it in the order of the moves. *)
Lemma moveBlock_terminator ops terminator pre :
  NoDup ops → terminator ∉ ops → terminator ∉ pre →
  (∀ op, op ∈ ops → op ∉ pre) →
  moveBlock ops terminator (pre ++ [terminator]) = pre ++ ops ++ [terminator].
Proof.
  revert pre. induction ops as [|op rest IH]; intros pre Hnd Ht Hpre Hdisj;
    simpl; [done|].
  apply NoDup_cons in Hnd as [Hop Hnd].
  apply not_elem_of_cons in Ht as [Hne Ht].
  rewrite unlink_not_in.
  2:{ rewrite elem_of_app, list_elem_of_singleton.
      intros [?| ->]; [|done]. eapply Hdisj; [left|done]. }
  rewrite insertBefore_last by done.
  change (pre ++ [op; terminator]) with (pre ++ [op] ++ [terminator]).
  rewrite app_assoc, IH; [by rewrite <- app_assoc|done|done| |].
  - rewrite elem_of_app, list_elem_of_singleton. intros [?| ->]; done.
  - intros x Hx. rewrite elem_of_app, list_elem_of_singleton.
    intros [?| ->]; [|done]. eapply Hdisj; [by right|done].
Qed.

(** A block without the terminator only loses the moved operations. *)
Lemma elem_of_moveBlock_other ops terminator block x :
  terminator ∉ block →
  x ∈ moveBlock ops terminator block ↔ x ∈ block ∧ x ∉ ops.
Proof.
  revert block. induction ops as [|op rest IH]; intros block Ht; simpl.
  - rewrite elem_of_nil. tauto.
  - assert (Ht' : terminator ∉ unlink op block).
    { rewrite elem_of_unlink. tauto. }
    rewrite insertBefore_not_in by done.
    rewrite IH, elem_of_unlink, not_elem_of_cons by done. tauto.
Qed.

(** ** The blocks after the transformation *)

(** With [launch] the next free slot of the arena and [launch + 1] the
    terminator: the launch is linked in front of the cluster, the terminator
    is the body of the launch, and then the head operations are moved. *)
Lemma Isolate_blocks m cluster head m' result :
  head ≠ [] →
  IsolateHeadExtractedOpsToLaunchOp m cluster head = Some (m', result) →
  let launch := length (opTable m) in
  result = Some launch
  ∧ blocks m'
    = map (moveBlock head (S launch))
        (alter (fun b => b ++ [S launch]) (S launch)
           (map (insertBefore cluster launch) (blocks m ++ [[]]) ++ [[]])).
Proof.
  intros Hne. unfold IsolateHeadExtractedOpsToLaunchOp.
  destruct (SetVector.empty head) eqn:Hempty; [by apply empty_true in Hempty|].
  set (outputs := GetHeadExtractedClusterOutputs m head).
  set (types := map (Value_getType m) outputs).
  destruct (createOperation m "tf_device.launch"
              [("device", StringAttr EmptyString)] [] types)
    as [m1 launch] eqn:Hcreate.
  assert (launch = length (opTable m)) as -> by (by inversion Hcreate).
  assert (Hb1 : blocks m1 = blocks m ++ [[]]).
  { rewrite <- (blocks_createOperation m "tf_device.launch"
                  [("device", StringAttr EmptyString)] [] types).
    by rewrite Hcreate. }
  destruct (replaceOutputs _ head _ 0 outputs) as [m3|] eqn:Hrep; [|done].
  apply blocks_replaceOutputs in Hrep. rewrite blocks_mapBlocks, Hb1 in Hrep.
  destruct (createOperation m3 "tf_device.return" [] outputs [])
    as [m4 terminator] eqn:Hret.
  assert (terminator = S (length (opTable m))) as ->.
  { assert (terminator = length (opTable m3)) as -> by (by inversion Hret).
    apply (f_equal length) in Hrep.
    rewrite length_blocks, length_map, length_app, length_blocks in Hrep.
    simpl in Hrep. lia. }
  assert (Hb4 : blocks m4 = blocks m3 ++ [[]]).
  { rewrite <- (blocks_createOperation m3 "tf_device.return" [] outputs []).
    by rewrite Hret. }
  intros Heq. apply Some_inj, pair_equal_spec in Heq as [<- <-].
  split; [done|].
  by rewrite blocks_moveOpsBefore, blocks_setBody, Hb4, Hrep.
Qed.

(** The head operations of a computed head set are distinct operations of
    the arena. *)
Lemma Identify_head_ops fuel m cluster head :
  IdentifyOutsideCompiledOpsAtHead fuel m cluster = Some head →
  NoDup head ∧ ∀ op, op ∈ head → op < length (opTable m).
Proof.
  intros Hord%Identify_Ordered. split; [by eapply Ordered_NoDup|].
  intros op (pre & post & ->)%list_elem_of_split.
  eapply HasOutsideCompilationAttribute_in_arena, Ordered_split; eauto.
Qed.

(** The body of the new launch: the head operations in the order of the head
    set, then the terminator. *)
Lemma Isolate_launch_body m cluster head m' result :
  head ≠ [] → NoDup head → (∀ op, op ∈ head → op < length (opTable m)) →
  IsolateHeadExtractedOpsToLaunchOp m cluster head = Some (m', result) →
  result = Some (length (opTable m))
  ∧ getBody (getOp m' (length (opTable m)))
    = head ++ [S (length (opTable m))].
Proof.
  intros Hne Hnd Harena Hrun.
  destruct (Isolate_blocks _ _ _ _ _ Hne Hrun) as [-> Hblocks].
  split; [done|]. rewrite getBody_blocks, Hblocks.
  set (n := length (opTable m)).
  change (map ?f ?l) with (f <$> l). rewrite list_lookup_fmap.
  rewrite list_lookup_alter_eq.
  change (map ?f ?l) with (f <$> l).
  assert (Hlen : length (insertBefore cluster n <$> (blocks m ++ [[]])) = S (S n)).
  { rewrite length_fmap, length_app, length_blocks. simpl. lia. }
  rewrite lookup_app_l by lia.
  rewrite list_lookup_fmap, lookup_app_r by (rewrite length_blocks; lia).
  rewrite length_blocks, Nat.sub_diag. simpl.
  apply (moveBlock_terminator head (S n) []); [done| |apply not_elem_of_nil|].
  - intros Hin. apply Harena in Hin. unfold n in Hin. lia.
  - intros op _. apply not_elem_of_nil.
Qed.

(** ** What the transformation leaves alone *)

Lemma signature_getOp m o :
  signature (getOp m o)
  = default (signature nullOperation) (signatures m !! o).
Proof.
  unfold signatures, getOp. change (map ?f ?l) with (f <$> l).
  rewrite list_lookup_fmap. by destruct (opTable m !! o).
Qed.

Lemma signatures_updateOp m o f :
  (∀ x, signature (f x) = signature x) →
  signatures (updateOp m o f) = signatures m.
Proof.
  intros Hf. unfold signatures, updateOp; simpl. apply list_eq. intros i.
  change (map ?f ?l) with (f <$> l). rewrite !list_lookup_fmap.
  destruct (decide (o = i)) as [->|Hne].
  - rewrite list_lookup_alter_eq. destruct (opTable m !! i); simpl; [|done].
    by rewrite Hf.
  - by rewrite list_lookup_alter_ne.
Qed.

Lemma signature_updateResult i f x :
  signature (updateResult i f x) = signature x.
Proof.
  unfold signature, updateResult; simpl. f_equal.
  change (map ?f ?l) with (f <$> l).
  rewrite (list_fmap_alter getType (updateUses f) id).
  - apply list_eq. intros k. destruct (decide (i = k)) as [->|].
    + rewrite list_lookup_alter_eq. by destruct (_ !! k).
    + by rewrite list_lookup_alter_ne.
  - by apply Forall_forall.
Qed.

Lemma signatures_updateUseList m v f :
  signatures (updateUseList m v f) = signatures m.
Proof.
  destruct v; simpl; [done|].
  apply signatures_updateOp. intros x. apply signature_updateResult.
Qed.

Lemma signatures_OpOperand_set m use v :
  signatures (OpOperand_set m use v) = signatures m.
Proof.
  unfold OpOperand_set, insertIntoCurrent, removeFromCurrent.
  destruct (getOperandValue (updateOp _ _ _) use);
    rewrite ?signatures_updateUseList, signatures_updateOp by done;
    by destruct (getOperandValue m use); rewrite ?signatures_updateUseList.
Qed.

Lemma signatures_replaceUses m head v uses m' :
  replaceUses m head v uses = Some m' → signatures m' = signatures m.
Proof.
  induction uses as [|use rest IH]; simpl; [by intros [= ->]|].
  destruct (SetVector.count (getOwner use) head =? 0); [|exact IH].
  destruct (tail _); [|done]. intros [= <-]. apply signatures_OpOperand_set.
Qed.

Lemma signatures_replaceOutputs m head launch j outputs m' :
  replaceOutputs m head launch j outputs = Some m' →
  signatures m' = signatures m.
Proof.
  revert m j. induction outputs as [|output rest IH]; intros m j; simpl;
    [by intros [= ->]|].
  destruct (replaceUses m head (OpResult launch j) (getUses m output))
    as [m1|] eqn:H1; [|done].
  intros Hrest. apply IH in Hrest. apply signatures_replaceUses in H1.
  congruence.
Qed.

Lemma signatures_linkOperands m op index operands :
  signatures (linkOperands m op index operands) = signatures m.
Proof.
  revert m index. induction operands as [|v rest IH]; intros m index; simpl;
    [done|]. by rewrite IH, signatures_updateUseList.
Qed.

Lemma signatures_createOperation m name attributes operands resultTypes :
  signatures (createOperation m name attributes operands resultTypes).1
  = signatures m ++ [(name, attributes, resultTypes)].
Proof.
  unfold createOperation; simpl. rewrite signatures_linkOperands.
  unfold signatures, signature; simpl. rewrite map_app; simpl.
  rewrite map_map; simpl. by rewrite map_id.
Qed.

Lemma signatures_mapBlocks f m : signatures (mapBlocks f m) = signatures m.
Proof. unfold signatures, mapBlocks; simpl. by rewrite map_map. Qed.

Lemma signatures_moveOpsBefore m ops terminator :
  signatures (moveOpsBefore m ops terminator) = signatures m.
Proof.
  revert m. induction ops as [|op rest IH]; intros m; simpl; [done|].
  rewrite IH. unfold moveBefore. by rewrite !signatures_mapBlocks.
Qed.

(** Every operation keeps its name, attributes and result types; the launch
    and its terminator are added at the end of the arena. *)
Lemma Isolate_signatures m cluster head m' result :
  head ≠ [] →
  IsolateHeadExtractedOpsToLaunchOp m cluster head = Some (m', result) →
  signatures m'
  = signatures m
    ++ [("tf_device.launch", [("device", StringAttr EmptyString)],
         map (Value_getType m) (GetHeadExtractedClusterOutputs m head));
        ("tf_device.return", [], [])].
Proof.
  intros Hne. unfold IsolateHeadExtractedOpsToLaunchOp.
  destruct (SetVector.empty head) eqn:Hempty; [by apply empty_true in Hempty|].
  set (outputs := GetHeadExtractedClusterOutputs m head).
  set (types := map (Value_getType m) outputs).
  destruct (createOperation m "tf_device.launch"
              [("device", StringAttr EmptyString)] [] types)
    as [m1 launch] eqn:Hcreate.
  assert (Hs1 : signatures m1 = signatures m
                ++ [("tf_device.launch", [("device", StringAttr EmptyString)],
                     types)]).
  { rewrite <- signatures_createOperation with (operands := []).
    by rewrite Hcreate. }
  destruct (replaceOutputs _ head _ 0 outputs) as [m3|] eqn:Hrep; [|done].
  apply signatures_replaceOutputs in Hrep.
  rewrite signatures_mapBlocks, Hs1 in Hrep.
  destruct (createOperation m3 "tf_device.return" [] outputs [])
    as [m4 terminator] eqn:Hret.
  assert (Hs4 : signatures m4 = signatures m3 ++ [("tf_device.return", [], [])]).
  { rewrite <- signatures_createOperation with (operands := outputs).
    by rewrite Hret. }
  intros Heq. apply Some_inj, pair_equal_spec in Heq as [<- _].
  rewrite signatures_moveOpsBefore, signatures_updateOp by done.
  by rewrite Hs4, Hrep, <- app_assoc.
Qed.

(** ** The blocks that existed before the transformation *)

Lemma blocksInArena_lt m k block x :
  blocksInArena m = true → blocks m !! k = Some block → x ∈ block →
  x < length (opTable m).
Proof.
  unfold blocksInArena. rewrite forallb_forall. intros Hall Hk Hx.
  apply list_elem_of_lookup_2, list_elem_of_In, Hall in Hk.
  rewrite forallb_forall in Hk. apply list_elem_of_In, Hk in Hx.
  by apply Nat.ltb_lt in Hx.
Qed.

Lemma Isolate_block_lookup m cluster head m' result k block :
  head ≠ [] →
  IsolateHeadExtractedOpsToLaunchOp m cluster head = Some (m', result) →
  blocks m !! k = Some block →
  blocks m' !! k
  = Some (moveBlock head (S (length (opTable m)))
            (insertBefore cluster (length (opTable m)) block)).
Proof.
  intros Hne Hrun Hk.
  destruct (Isolate_blocks _ _ _ _ _ Hne Hrun) as [_ ->].
  set (n := length (opTable m)).
  pose proof (lookup_lt_Some _ _ _ Hk) as Hlt. rewrite length_blocks in Hlt.
  change (map ?f ?l) with (f <$> l).
  rewrite list_lookup_fmap, list_lookup_alter_ne by (unfold n; lia).
  rewrite lookup_app_l.
  2:{ rewrite length_fmap, length_app, length_blocks. simpl. lia. }
  rewrite list_lookup_fmap, lookup_app_l by (rewrite length_blocks; lia).
  by rewrite Hk.
Qed.

(** Such a block gains the launch, in front of the cluster if it holds the
    cluster, and loses the head operations. *)
Lemma Isolate_block_elem m cluster head m' result k block x :
  head ≠ [] → blocksInArena m = true →
  IsolateHeadExtractedOpsToLaunchOp m cluster head = Some (m', result) →
  blocks m !! k = Some block →
  ∃ block', blocks m' !! k = Some block'
    ∧ (x ∈ block'
       ↔ (x ∈ block ∨ (x = length (opTable m) ∧ cluster ∈ block))
         ∧ x ∉ head).
Proof.
  intros Hne Harena Hrun Hk. eexists. split.
  { by eapply Isolate_block_lookup. }
  rewrite elem_of_moveBlock_other, elem_of_insertBefore; [done|].
  rewrite elem_of_insertBefore. intros [Hin|[? _]]; [|lia].
  pose proof (blocksInArena_lt _ _ _ _ Harena Hk Hin). lia.
Qed.

(** ** The output list *)

Lemma GetHeadExtractedClusterOutputs_loop_exporting m ops head op :
  op ∈ ops →
  existsb (fun user => SetVector.count user head =? 0) (getUsers m op) = true →
  ∃ pre post,
    GetHeadExtractedClusterOutputs_loop m ops head
    = pre ++ getResults m op ++ post.
Proof.
  intros Hop Hex. induction ops as [|o rest IH]; [by apply elem_of_nil in Hop|].
  simpl. destruct (decide (o = op)) as [->|Hne].
  - rewrite Hex. by exists [], (GetHeadExtractedClusterOutputs_loop m rest head).
  - apply elem_of_cons in Hop as [->|Hop]; [done|].
    destruct (IH Hop) as (pre & post & ->).
    eexists (_ ++ pre), post. by rewrite <- app_assoc.
Qed.

Lemma GetHeadExtractedClusterOutputs_loop_elem m ops head v :
  v ∈ GetHeadExtractedClusterOutputs_loop m ops head →
  ∃ op, op ∈ ops ∧ v ∈ getResults m op
        ∧ existsb (fun user => SetVector.count user head =? 0) (getUsers m op)
          = true.
Proof.
  induction ops as [|o rest IH]; simpl; [by intros ?%elem_of_nil|].
  intros [Hv|Hv]%elem_of_app.
  - destruct (existsb _ (getUsers m o)) eqn:Hex; [|by apply elem_of_nil in Hv].
    exists o. split; [left|done].
  - destruct (IH Hv) as (op & ? & ?). exists op. split; [by right|done].
Qed.

Lemma existsb_users m head op :
  existsb (fun user => SetVector.count user head =? 0) (getUsers m op) = true
  ↔ ∃ r use, r ∈ getResults m op ∧ use ∈ getUses m r ∧ getOwner use ∉ head.
Proof.
  rewrite existsb_exists. unfold getUsers. split.
  - intros (user & Hin & Hc). apply in_flat_map in Hin as (r & Hr & Hu).
    apply in_map_iff in Hu as (use & <- & Huse).
    exists r, use. rewrite <- !list_elem_of_In in *.
    by apply count_eqb_0 in Hc.
  - intros (r & use & Hr & Huse & Hout). exists (getOwner use). split.
    + apply in_flat_map. exists r. split; [by apply list_elem_of_In|].
      apply in_map, list_elem_of_In, Huse.
    + by apply count_eqb_0.
Qed.

Lemma blocks_lookup_body m o :
  o < length (opTable m) → blocks m !! S o = Some (getBody (getOp m o)).
Proof.
  intros Ho. unfold blocks, getOp; simpl.
  change (map ?f ?l) with (f <$> l). rewrite list_lookup_fmap.
  destruct (lookup_lt_is_Some_2 _ _ Ho) as [op ->]. done.
Qed.

(** ** The block that holds the cluster *)

Lemma unlink_filter (x : nat) l : unlink x l = filter (fun y => y ≠ x) l.
Proof.
  induction l as [|y l IH]; simpl; [done|].
  destruct (decide (y = x)) as [->|Hne].
  - by rewrite filter_cons_False by (intros H; by apply H).
  - by rewrite filter_cons_True, IH.
Qed.

Lemma filter_not_in_nil (block : list nat) :
  filter (fun x => x ∉ ([] : list nat)) block = block.
Proof.
  induction block as [|y block IH]; [done|].
  rewrite filter_cons_True by apply not_elem_of_nil. by rewrite IH.
Qed.

Lemma moveBlock_filter ops terminator block :
  terminator ∉ block →
  moveBlock ops terminator block = filter (fun x => x ∉ ops) block.
Proof.
  revert block. induction ops as [|op rest IH]; intros block Ht; simpl.
  - by rewrite filter_not_in_nil.
  - assert (Ht' : terminator ∉ unlink op block).
    { rewrite elem_of_unlink. tauto. }
    rewrite insertBefore_not_in, IH, unlink_filter, list_filter_filter by done.
    apply list_filter_iff. intros x. rewrite not_elem_of_cons. tauto.
Qed.

Lemma insertBefore_split before op pre post :
  before ∉ pre →
  insertBefore before op (pre ++ before :: post) = pre ++ op :: before :: post.
Proof.
  induction pre as [|y pre IH]; simpl.
  - intros _. by rewrite decide_True.
  - intros [Hne Hpre]%not_elem_of_cons. rewrite decide_False by done.
    by rewrite IH.
Qed.

Lemma Region_front_lookup m region :
  Region_front m region ≠ [] →
  ∃ k, blocks m !! k = Some (Region_front m region)
       ∧ ∀ m', Region_front m' region = default [] (blocks m' !! k).
Proof.
  destruct region as [|holder]; simpl; intros Hne.
  - by exists 0.
  - exists (S holder). split; [|intros m'; apply getBody_blocks].
    apply blocks_lookup_body. apply lookup_lt_is_Some.
    unfold getOp in Hne. destruct (opTable m !! holder); [done|].
    by simpl in Hne.
Qed.

(** In the block that holds the cluster the launch stands directly in front
    of the cluster, the operations around them being the former ones without
    the head operations. *)
Lemma Isolate_holding_block m cluster head m' result region pre post :
  head ≠ [] → (∀ op, op ∈ head → op < length (opTable m)) →
  blocksInArena m = true →
  IsolateHeadExtractedOpsToLaunchOp m cluster head = Some (m', result) →
  Region_front m region = pre ++ cluster :: post → cluster ∉ pre →
  Region_front m' region
  = filter (fun x => x ∉ head) pre
    ++ (length (opTable m) :: filter (fun x => x ∉ head) (cluster :: post)).
Proof.
  intros Hne Hlt Harena Hrun Hblock Hpre.
  destruct (Region_front_lookup m region) as (k & Hk & Hfront).
  { rewrite Hblock. by destruct pre. }
  rewrite Hfront, (Isolate_block_lookup _ _ _ _ _ _ _ Hne Hrun Hk). simpl.
  rewrite moveBlock_filter.
  - rewrite Hblock, insertBefore_split, filter_app by done.
    rewrite filter_cons_True; [done|]. intros Hin%Hlt. lia.
  - rewrite elem_of_insertBefore. intros [Hin|[? _]]; [|lia].
    pose proof (blocksInArena_lt _ _ _ _ Harena Hk Hin). lia.
Qed.


(** In the head set every operand that is not a boundary input is a result
    of an operation recorded earlier. *)
Lemma producers_recorded_first fuel m cluster pre op post v :
  IdentifyOutsideCompiledOpsAtHead fuel m cluster = Some (pre ++ op :: post) →
  v ∈ getOperands (getOp m op) →
  v ∉ getUsedValuesDefinedAbove m cluster →
  ∃ producer i, v = OpResult producer i ∧ producer ∈ pre.
Proof.
  intros Hord%Identify_Ordered Hv Hnb.
  destruct (Ordered_split _ _ _ _ _ _ Hord eq_refl) as [_ Hprod].
  by destruct (Hprod v Hv).
Qed.

(** ** The operands of the head operations *)

Lemma getOperands_updateOp m o f o' :
  o ≠ o' ∨ (∀ x, getOperands (f x) = getOperands x) →
  getOperands (getOp (updateOp m o f) o') = getOperands (getOp m o').
Proof.
  intros Hsame. rewrite getOp_updateOp.
  destruct (decide (o = o')) as [->|Hne]; [|done].
  destruct Hsame as [?|Hf]; [done|].
  unfold getOp. destruct (opTable m !! o'); simpl; [apply Hf|done].
Qed.

Lemma getOperands_updateUseList m v f o :
  getOperands (getOp (updateUseList m v f) o) = getOperands (getOp m o).
Proof.
  destruct v as [n|p i]; simpl; [done|].
  apply getOperands_updateOp. by right.
Qed.

Lemma getOperands_OpOperand_set m use v o :
  o ≠ getOwner use →
  getOperands (getOp (OpOperand_set m use v) o) = getOperands (getOp m o).
Proof.
  intros Hne. unfold OpOperand_set, insertIntoCurrent, removeFromCurrent.
  destruct (getOperandValue (updateOp _ _ _) use);
    rewrite ?getOperands_updateUseList, getOperands_updateOp by auto;
    by destruct (getOperandValue m use); rewrite ?getOperands_updateUseList.
Qed.

Lemma getOperands_replaceUses m head v uses m' o :
  o ∈ head → replaceUses m head v uses = Some m' →
  getOperands (getOp m' o) = getOperands (getOp m o).
Proof.
  intros Ho. induction uses as [|use rest IH]; simpl; [by intros [= ->]|].
  destruct (SetVector.count (getOwner use) head =? 0) eqn:Hc; [|exact IH].
  apply count_eqb_0 in Hc.
  destruct (tail _); [|done]. intros [= <-].
  apply getOperands_OpOperand_set. by intros ->.
Qed.

Lemma getOperands_replaceOutputs m head launch j outputs m' o :
  o ∈ head → replaceOutputs m head launch j outputs = Some m' →
  getOperands (getOp m' o) = getOperands (getOp m o).
Proof.
  intros Ho. revert m j.
  induction outputs as [|output rest IH]; intros m j; simpl;
    [by intros [= ->]|].
  destruct (replaceUses m head (OpResult launch j) (getUses m output))
    as [m1|] eqn:H1; [|done].
  intros Hrest. apply IH in Hrest.
  apply (getOperands_replaceUses _ _ _ _ _ o Ho) in H1. congruence.
Qed.

Lemma getOperands_linkOperands m op index operands o :
  getOperands (getOp (linkOperands m op index operands) o)
  = getOperands (getOp m o).
Proof.
  revert m index. induction operands as [|v rest IH]; intros m index; simpl;
    [done|]. by rewrite IH, getOperands_updateUseList.
Qed.

Lemma getOperands_createOperation m name attributes operands resultTypes o :
  o < length (opTable m) →
  getOperands (getOp (createOperation m name attributes operands resultTypes).1 o)
  = getOperands (getOp m o).
Proof.
  intros Ho. unfold createOperation; simpl. rewrite getOperands_linkOperands.
  unfold getOp; simpl. by rewrite lookup_app_l.
Qed.

Lemma getOperands_mapBlocks f m o :
  getOperands (getOp (mapBlocks f m) o) = getOperands (getOp m o).
Proof. rewrite getOp_mapBlocks. unfold getOp. by destruct (opTable m !! o). Qed.

Lemma getOperands_moveOpsBefore m ops terminator o :
  getOperands (getOp (moveOpsBefore m ops terminator) o)
  = getOperands (getOp m o).
Proof.
  revert m. induction ops as [|op rest IH]; intros m; simpl; [done|].
  rewrite IH. unfold moveBefore. by rewrite !getOperands_mapBlocks.
Qed.

(** The transformation leaves every operand slot of a head operation as it
    was. *)
Lemma Isolate_head_operands m cluster head m' result o :
  o ∈ head → o < length (opTable m) →
  IsolateHeadExtractedOpsToLaunchOp m cluster head = Some (m', result) →
  getOperands (getOp m' o) = getOperands (getOp m o).
Proof.
  intros Ho Hlt. unfold IsolateHeadExtractedOpsToLaunchOp.
  destruct (SetVector.empty head) eqn:Hempty.
  { apply empty_true in Hempty. subst. by apply elem_of_nil in Ho. }
  set (outputs := GetHeadExtractedClusterOutputs m head).
  set (types := map (Value_getType m) outputs).
  destruct (createOperation m "tf_device.launch"
              [("device", StringAttr EmptyString)] [] types)
    as [m1 launch] eqn:Hcreate.
  assert (H1 : getOperands (getOp m1 o) = getOperands (getOp m o)).
  { rewrite <- (getOperands_createOperation m "tf_device.launch"
                  [("device", StringAttr EmptyString)] [] types o Hlt).
    by rewrite Hcreate. }
  assert (Hlen1 : length (opTable m1) = S (length (opTable m))).
  { pose proof (blocks_createOperation m "tf_device.launch"
                  [("device", StringAttr EmptyString)] [] types) as Hb.
    rewrite Hcreate in Hb. apply (f_equal length) in Hb.
    rewrite length_app, !length_blocks in Hb. simpl in Hb. lia. }
  destruct (replaceOutputs _ head _ 0 outputs) as [m3|] eqn:Hrep; [|done].
  pose proof (getOperands_replaceOutputs _ _ _ _ _ _ o Ho Hrep) as H3.
  rewrite getOperands_mapBlocks, H1 in H3.
  apply blocks_replaceOutputs in Hrep. rewrite blocks_mapBlocks in Hrep.
  apply (f_equal length) in Hrep.
  rewrite length_map, !length_blocks, Hlen1 in Hrep.
  destruct (createOperation m3 "tf_device.return" [] outputs [])
    as [m4 terminator] eqn:Hret.
  assert (H4 : getOperands (getOp m4 o) = getOperands (getOp m3 o)).
  { rewrite <- (getOperands_createOperation m3 "tf_device.return" [] outputs []
                  o) by lia.
    by rewrite Hret. }
  intros Heq. apply Some_inj, pair_equal_spec in Heq as [<- _].
  rewrite getOperands_moveOpsBefore, getOperands_updateOp by (by right).
  congruence.
Qed.

(** When the new value has no use yet, the replacement loop redirects the
    first use of the list that a head operation does not own, and stops. *)
Lemma replaceUses_first_outside m head newValue inside use rest :
  (∀ u, u ∈ inside → getOwner u ∈ head) →
  getOwner use ∉ head →
  getUses m newValue = [] →
  replaceUses m head newValue (inside ++ use :: rest)
  = Some (OpOperand_set m use newValue).
Proof.
  intros Hinside Houtside Hfresh.
  induction inside as [|u inside IH]; simpl.
  - apply count_eqb_0 in Houtside. rewrite Houtside.
    by rewrite getUses_set_fresh.
  - assert (Hu : getOwner u ∈ head) by (apply Hinside; left).
    apply count_eqb_0_false in Hu. rewrite Hu.
    apply IH. intros u' Hu'. apply Hinside. by right.
Qed.

(** ** Order in the body of the launch *)

Lemma indexOf_in_prefix x pre rest :
  x ∈ pre → ∃ i, indexOf x (pre ++ rest) = Some i ∧ i < length pre.
Proof.
  induction pre as [|y pre IH]; [by intros ?%elem_of_nil|]. simpl.
  destruct (decide (y = x)) as [->|Hne].
  - intros _. exists 0. split; [done|lia].
  - intros [->|Hx]%elem_of_cons; [done|].
    destruct (IH Hx) as (i & -> & Hi). exists (S i). split; [done|lia].
Qed.

Lemma indexOf_after_prefix x pre rest :
  x ∉ pre → indexOf x (pre ++ x :: rest) = Some (length pre).
Proof.
  induction pre as [|y pre IH]; simpl.
  - intros _. by rewrite decide_True.
  - intros [Hne Hx]%not_elem_of_cons. rewrite decide_False by done.
    by rewrite IH.
Qed.

Lemma comesBefore_prefix p x pre rest :
  p ∈ pre → x ∉ pre → comesBefore p x (pre ++ x :: rest) = true.
Proof.
  intros Hp Hx. unfold comesBefore.
  destruct (indexOf_in_prefix p pre (x :: rest) Hp) as (i & -> & Hi).
  rewrite indexOf_after_prefix by done. by apply Nat.ltb_lt.
Qed.

(** X13.  In the body of the new launch every head operation stands behind
    the head operations that define those of its operands that are not
    boundary inputs of the cluster, the boundary inputs being the values
    that [getUsedValuesDefinedAbove] collects: values of the regions around
    the cluster, at any depth, that are read inside the cluster region. *)
Lemma host_body_def_before_use fuel m cluster head m' result op v :
  IdentifyOutsideCompiledOpsAtHead fuel m cluster = Some head →
  IsolateHeadExtractedOpsToLaunchOp m cluster head = Some (m', result) →
  op ∈ head →
  v ∈ getOperands (getOp m' op) →
  v ∉ getUsedValuesDefinedAbove m cluster →
  ∃ producer i,
    v = OpResult producer i
    ∧ comesBefore producer op (getBody (getOp m' (length (opTable m)))) = true.
Proof.
  intros Hid Hrun Hop Hv Hnb.
  destruct (Identify_head_ops _ _ _ _ Hid) as [Hnd Hlt].
  assert (Hne : head ≠ []) by (intros ->; by apply elem_of_nil in Hop).
  destruct (Isolate_launch_body _ _ _ _ _ Hne Hnd Hlt Hrun) as [_ ->].
  rewrite (Isolate_head_operands _ _ _ _ _ _ Hop (Hlt _ Hop) Hrun) in Hv.
  apply list_elem_of_split in Hop as (pre & post & ->).
  destruct (producers_recorded_first _ _ _ _ _ _ _ Hid Hv Hnb)
    as (p & i & -> & Hp).
  exists p, i. split; [done|].
  rewrite <- app_assoc. simpl. apply comesBefore_prefix; [done|].
  by apply NoDup_app in Hnd as (_ & Hdisj & _); intros Hin;
    apply (Hdisj _ Hin); left.
Qed.

(** ** The pass on small modules *)

(** Two chained tagged operations are moved into launch 4 and the untagged
    consumer reads its result. *)
Example run_chained :
  ∃ m', runOnOperation unit devicesAvailable 3 chained = Some (success, m')
        ∧ getBlock m' = [4; 0]
        ∧ getBody (getOp m' 4) = [1; 2; 5]
        ∧ getOperands (getOp m' 5) = [OpResult 2 0]
        ∧ getBody (getOp m' 0) = [3]
        ∧ getOperands (getOp m' 3) = [OpResult 4 0].
Proof. eexists. split; [vm_compute; reflexivity|]. by vm_compute. Qed.

(** A cluster that reads no value defined above it is left alone. *)
Example run_self_contained :
  let m := addOp (Some 0) "tf.A" outsideCompiled [] [7]
             (addOp None "tf_device.cluster" [] [] [] (emptyModule [])) in
  IdentifyOutsideCompiledOpsAtHead 0 m 0 = Some []
  ∧ runOnOperation unit devicesAvailable 0 m = Some (success, m).
Proof. split; reflexivity. Qed.

(** An untagged operation stops the head set: only the first operation is
    moved. *)
Example run_untagged_consumer :
  let m := addOp (Some 0) "tf.C" [] [OpResult 2 0] [7]
             (addOp (Some 0) "tf.B" [] [OpResult 1 0] [7]
             (addOp (Some 0) "tf.A" outsideCompiled [arg_a] [7]
             (addOp None "tf_device.cluster" [] [] [] (emptyModule [7])))) in
  IdentifyOutsideCompiledOpsAtHead 2 m 0 = Some [1]
  ∧ GetHeadExtractedClusterOutputs m [1] = [OpResult 1 0]
  ∧ ∃ m', runOnOperation unit devicesAvailable 2 m = Some (success, m')
          ∧ getBody (getOp m' 4) = [1; 5]
          ∧ getBody (getOp m' 0) = [2; 3]
          ∧ getOperands (getOp m' 2) = [OpResult 4 0].
Proof.
  split; [reflexivity|]. split; [reflexivity|].
  eexists. split; [vm_compute; reflexivity|]. by vm_compute.
Qed.

(** A cluster nested in a replicate: the result of operation 1 of the body
    of the replicate is a boundary input of the cluster; head operation 3 is
    moved into launch 5, linked in front of the cluster in the body of the
    replicate. *)
Example run_nested_cluster :
  properAncestors nestedCluster 2 = [BodyOf 0; FunctionBody]
  ∧ getUsedValuesDefinedAbove nestedCluster 2 = [OpResult 1 0]
  ∧ IdentifyOutsideCompiledOpsAtHead 2 nestedCluster 2 = Some [3]
  ∧ ∃ m', runOnOperation unit devicesAvailable 2 nestedCluster
          = Some (success, m')
          ∧ getBlock m' = [0]
          ∧ getBody (getOp m' 0) = [1; 5; 2]
          ∧ getBody (getOp m' 5) = [3; 6]
          ∧ getBody (getOp m' 2) = [4]
          ∧ getOperands (getOp m' 4) = [OpResult 5 0].
Proof.
  split; [reflexivity|]. split; [reflexivity|]. split; [reflexivity|].
  eexists. split; [vm_compute; reflexivity|]. by vm_compute.
Qed.

(** A region inside the cluster: the walk of the cluster region reaches
    operation 2 in the body of operation 1, [%a] is a boundary input, and
    operation 2 is moved out of that body into launch 3. *)
Example run_nested_user :
  Region_walk nestedUser (BodyOf 0) = [2; 1]
  ∧ getUsedValuesDefinedAbove nestedUser 0 = [arg_a]
  ∧ IdentifyOutsideCompiledOpsAtHead 1 nestedUser 0 = Some [2]
  ∧ ∃ m', runOnOperation unit devicesAvailable 1 nestedUser
          = Some (success, m')
          ∧ getBlock m' = [3; 0]
          ∧ getBody (getOp m' 3) = [2; 4]
          ∧ getBody (getOp m' 0) = [1]
          ∧ getBody (getOp m' 1) = [].
Proof.
  split; [reflexivity|]. split; [reflexivity|]. split; [reflexivity|].
  eexists. split; [vm_compute; reflexivity|]. by vm_compute.
Qed.

(** The head set of cluster 0 holds operation 2, which follows the cluster
    in the function block and which the walk has fetched: the transformation
    moves it into launch 3 and the walk does not return. *)
Example run_followed_by_head :
  IdentifyOutsideCompiledOpsAtHead 1 followedByHead 0 = Some [2; 1]
  ∧ fetchedNextNodes followedByHead 0 = [2]
  ∧ (∃ m', IsolateHeadExtractedOpsToLaunchOp followedByHead 0 [2; 1]
           = Some (m', Some 3)
           ∧ getBlock m' = [3; 0]
           ∧ getBody (getOp m' 3) = [2; 1; 4])
  ∧ ∀ fuel, runOnOperation unit devicesAvailable fuel followedByHead = None.
Proof.
  split; [reflexivity|]. split; [reflexivity|]. split.
  - eexists. split; [vm_compute; reflexivity|]. by vm_compute.
  - intros [|fuel]; [reflexivity|].
    unfold runOnOperation. simpl devicesAvailable. cbv iota.
    change (filter _ (Region_walk followedByHead FunctionBody)) with [0].
    cbn [walkClusters].
    change (isNestedIn followedByHead [] 0) with false. cbv iota.
    assert (Hhead : IdentifyOutsideCompiledOpsAtHead (S fuel) followedByHead 0
                    = Some [2; 1])
      by (apply (Identify_mono 1); [lia|reflexivity]).
    by rewrite Hhead.
Qed.

(** * The claims *)

(** C1, as amended.  When the head set of a cluster is not empty and no head
    operation has a user outside the head set, the output list is empty and
    the transformation still runs: it creates a [tf_device.launch] with no
    result; in the block that holds the cluster, at whatever depth, the
    launch is linked at the place of the cluster, directly in front of it
    (the cluster stays unless it is a head operation itself), the operations
    around them being the former ones without the head operations; the body
    of the launch is the head operations followed by the terminator, and no
    head operation is left in the body of the cluster.  Only an empty head
    set leaves the module as it is. *)
Theorem hoists_head_without_outputs fuel m cluster head :
  IdentifyOutsideCompiledOpsAtHead fuel m cluster = Some head →
  head ≠ [] →
  GetHeadExtractedClusterOutputs m head = [] →
  blocksInArena m = true →
  cluster < length (opTable m) →
  ∃ m',
    IsolateHeadExtractedOpsToLaunchOp m cluster head
    = Some (m', Some (length (opTable m)))
    ∧ getName (getOp m' (length (opTable m))) = "tf_device.launch"
    ∧ opResults (getOp m' (length (opTable m))) = []
    ∧ (∀ region pre post,
         Region_front m region = pre ++ cluster :: post → cluster ∉ pre →
         Region_front m' region
         = filter (fun x => x ∉ head) pre
           ++ (length (opTable m)
               :: filter (fun x => x ∉ head) (cluster :: post))
         ∧ (cluster ∉ head →
            Region_front m' region
            = filter (fun x => x ∉ head) pre
              ++ (length (opTable m)
                  :: cluster :: filter (fun x => x ∉ head) post)))
    ∧ getBody (getOp m' (length (opTable m)))
      = head ++ [S (length (opTable m))]
    ∧ (∀ op, op ∈ head → op ∉ getBody (getOp m' cluster))
    ∧ IsolateHeadExtractedOpsToLaunchOp m cluster [] = Some (m, None).
Proof.
  intros Hid Hne Hout Harena Hcluster.
  destruct (Identify_head_ops _ _ _ _ Hid) as [Hnd Hlt].
  destruct (Isolate_total m cluster head) as [[m' result] Hrun].
  destruct (Isolate_launch_body _ _ _ _ _ Hne Hnd Hlt Hrun) as [-> Hbody].
  exists m'. split; [done|].
  pose proof (Isolate_signatures _ _ _ _ _ Hne Hrun) as Hsig.
  rewrite Hout in Hsig. simpl in Hsig.
  pose proof (signature_getOp m' (length (opTable m))) as Hlaunch.
  rewrite Hsig, lookup_app_r in Hlaunch
    by (unfold signatures; rewrite length_map; lia).
  unfold signatures in Hlaunch. rewrite length_map, Nat.sub_diag in Hlaunch.
  simpl in Hlaunch. injection Hlaunch as Hname _ Hres.
  apply map_eq_nil in Hres.
  split; [done|]. split; [done|]. split; [|split; [done|split; [|done]]].
  - intros region pre post Hblock Hpre.
    pose proof (Isolate_holding_block _ _ _ _ _ _ _ _ Hne Hlt Harena Hrun
                  Hblock Hpre) as Hfront.
    split; [done|]. intros Hout'. by rewrite Hfront, filter_cons_True.
  - intros op Hop.
    destruct (Isolate_block_elem m cluster head m' _ (S cluster)
                (getBody (getOp m cluster)) op Hne Harena Hrun
                (blocks_lookup_body _ _ Hcluster))
      as (block' & Hk & Helem).
    rewrite getBody_blocks, Hk. simpl. rewrite Helem. tauto.
Qed.

Lemma hoists_head_without_outputs_witness :
  IdentifyOutsideCompiledOpsAtHead 2 unusedHead 0 = Some [1]
  ∧ GetHeadExtractedClusterOutputs unusedHead [1] = []
  ∧ Region_front unusedHead FunctionBody = [] ++ 0 :: []
  ∧ ∃ m',
      IsolateHeadExtractedOpsToLaunchOp unusedHead 0 [1]
      = Some (m', Some (length (opTable unusedHead)))
      ∧ getName (getOp m' (length (opTable unusedHead))) = "tf_device.launch"
      ∧ opResults (getOp m' (length (opTable unusedHead))) = []
      ∧ (∀ region pre post,
           Region_front unusedHead region = pre ++ 0 :: post → 0 ∉ pre →
           Region_front m' region
           = filter (fun x => x ∉ [1]) pre
             ++ (length (opTable unusedHead)
                 :: filter (fun x => x ∉ [1]) (0 :: post))
           ∧ (0 ∉ [1] →
              Region_front m' region
              = filter (fun x => x ∉ [1]) pre
                ++ (length (opTable unusedHead)
                    :: 0 :: filter (fun x => x ∉ [1]) post)))
      ∧ getBody (getOp m' (length (opTable unusedHead)))
        = [1] ++ [S (length (opTable unusedHead))]
      ∧ (∀ op, op ∈ [1] → op ∉ getBody (getOp m' 0))
      ∧ IsolateHeadExtractedOpsToLaunchOp unusedHead 0 [] = Some (unusedHead, None).
Proof.
  split; [reflexivity|]. split; [reflexivity|]. split; [reflexivity|].
  apply (hoists_head_without_outputs 2 unusedHead 0 [1]).
  - reflexivity.
  - discriminate.
  - reflexivity.
  - reflexivity.
  - vm_compute. lia.
Defined.

(** C1, the claim as stated fails.  In [unusedHead] the head set is [[1]] and
    the output list is empty, yet the transformation creates launch 2 in
    front of the cluster and empties the body of the cluster into it. *)
Lemma no_output_head_is_still_hoisted :
  IdentifyOutsideCompiledOpsAtHead 2 unusedHead 0 = Some [1]
  ∧ GetHeadExtractedClusterOutputs unusedHead [1] = []
  ∧ IsolateHeadExtractedOpsToLaunchOp unusedHead 0 [1]
    ≠ Some (unusedHead, None)
  ∧ ∃ m', IsolateHeadExtractedOpsToLaunchOp unusedHead 0 [1]
          = Some (m', Some 2)
          ∧ runOnOperation unit devicesAvailable 2 unusedHead
            = Some (success, m')
          ∧ getName (getOp m' 2) = "tf_device.launch"
          ∧ getBlock unusedHead = [0] ∧ getBlock m' = [2; 0]
          ∧ getBody (getOp unusedHead 0) = [1]
          ∧ getBody (getOp m' 0) = []
          ∧ getBody (getOp m' 2) = [1; 3].
Proof.
  split; [reflexivity|]. split; [reflexivity|]. split.
  - vm_compute. discriminate.
  - eexists. split; [vm_compute; reflexivity|]. by vm_compute.
Qed.

(** C2, as amended.  The operations moved into the new launch stand in its
    body in the order in which the head set recorded them (boundary input by
    boundary input, frontier by frontier, each frontier in use-list order),
    followed by the terminator.  That order need not be the order of the
    original cluster body. *)
Theorem host_body_in_head_set_order fuel m cluster head :
  IdentifyOutsideCompiledOpsAtHead fuel m cluster = Some head →
  head ≠ [] →
  ∃ m',
    IsolateHeadExtractedOpsToLaunchOp m cluster head
    = Some (m', Some (length (opTable m)))
    ∧ getBody (getOp m' (length (opTable m)))
      = head ++ [S (length (opTable m))].
Proof.
  intros Hid Hne.
  destruct (Identify_head_ops _ _ _ _ Hid) as [Hnd Hlt].
  destruct (Isolate_total m cluster head) as [[m' result] Hrun].
  destruct (Isolate_launch_body _ _ _ _ _ Hne Hnd Hlt Hrun) as [-> Hbody].
  by exists m'.
Qed.

Lemma host_body_in_head_set_order_witness :
  IdentifyOutsideCompiledOpsAtHead 3 chained 0 = Some [1; 2]
  ∧ ∃ m',
      IsolateHeadExtractedOpsToLaunchOp chained 0 [1; 2]
      = Some (m', Some (length (opTable chained)))
      ∧ getBody (getOp m' (length (opTable chained)))
        = [1; 2] ++ [S (length (opTable chained))].
Proof.
  split; [reflexivity|].
  apply (host_body_in_head_set_order 3 chained 0 [1; 2]).
  - reflexivity.
  - discriminate.
Defined.

(** C2, the claim as stated fails.  In [interleaved] the body of the cluster
    is [1; 2; 3; 4] and all of 1, 2 and 3 are moved; 2 stands in front of 3
    in the cluster and behind 3 in the launch.  Operation 3 reads [%a] and is
    recorded in the first frontier, operation 2 reads the result of 1 and is
    recorded in the second, whichever way the uses of [%a] are linked. *)
Lemma host_body_order_differs :
  getBody (getOp interleaved 0) = [1; 2; 3; 4]
  ∧ IdentifyOutsideCompiledOpsAtHead 4 interleaved 0 = Some [3; 1; 2]
  ∧ (∃ m', IsolateHeadExtractedOpsToLaunchOp interleaved 0 [3; 1; 2]
           = Some (m', Some 5)
           ∧ getBody (getOp m' 5) = [3; 1; 2; 6]
           ∧ comesBefore 2 3 (getBody (getOp interleaved 0)) = true
           ∧ comesBefore 2 3 (getBody (getOp m' 5)) = false
           ∧ comesBefore 3 2 (getBody (getOp m' 5)) = true)
  ∧ getBody (getOp interleaved_rev 0) = [1; 2; 3; 4]
  ∧ IdentifyOutsideCompiledOpsAtHead 4 interleaved_rev 0 = Some [1; 3; 2]
  ∧ (∃ m', IsolateHeadExtractedOpsToLaunchOp interleaved_rev 0 [1; 3; 2]
           = Some (m', Some 5)
           ∧ getBody (getOp m' 5) = [1; 3; 2; 6]
           ∧ comesBefore 2 3 (getBody (getOp interleaved_rev 0)) = true
           ∧ comesBefore 2 3 (getBody (getOp m' 5)) = false).
Proof.
  split; [reflexivity|]. split; [reflexivity|]. split.
  { eexists. split; [vm_compute; reflexivity|]. by vm_compute. }
  split; [reflexivity|]. split; [reflexivity|].
  eexists. split; [vm_compute; reflexivity|]. by vm_compute.
Qed.

(** C3.  Every operand of every operation of the computed head set is a
    boundary input of the cluster, that is a value whose parent region is a
    proper ancestor of the cluster region (the value is defined outside the
    region) and that an operation nested in the cluster region reads (it is
    used inside), or a result of another operation of the head set. *)
Theorem head_set_closed fuel m cluster head op v :
  IdentifyOutsideCompiledOpsAtHead fuel m cluster = Some head →
  op ∈ head →
  v ∈ getOperands (getOp m op) →
  (isDefinedAbove m (properAncestors m cluster) v = true
   ∧ ∃ user, user ∈ Region_walk m (BodyOf cluster)
             ∧ v ∈ getOperands (getOp m user))
  ∨ (∃ producer i, v = OpResult producer i ∧ producer ∈ head ∧ producer ≠ op).
Proof.
  intros Hid Hop Hv. pose proof (Identify_Ordered _ _ _ _ Hid) as Hord.
  pose proof (Ordered_NoDup _ _ _ Hord) as Hnd.
  apply list_elem_of_split in Hop as (pre & post & ->).
  destruct (Ordered_split _ _ _ _ _ _ Hord eq_refl) as [_ Hprod].
  destruct (Hprod v Hv) as [Hb|(p & i & -> & Hp)].
  - left. by apply elem_of_getUsedValuesDefinedAbove.
  - right. exists p, i. split; [done|]. split.
    + apply elem_of_app. by left.
    + intros ->. apply NoDup_app in Hnd as (_ & Hdisj & _).
      apply (Hdisj op Hp). left.
Qed.

Lemma head_set_closed_witness :
  IdentifyOutsideCompiledOpsAtHead 3 nestedChain 2 = Some [3; 4]
  ∧ getOperands (getOp nestedChain 3) = [OpResult 1 0]
  ∧ getOperands (getOp nestedChain 4) = [OpResult 3 0]
  ∧ isDefinedAbove nestedChain (properAncestors nestedChain 2) (OpResult 1 0)
    = true
  ∧ isDefinedAbove nestedChain (properAncestors nestedChain 2) (OpResult 3 0)
    = false
  ∧ ((isDefinedAbove nestedChain (properAncestors nestedChain 2)
        (OpResult 1 0) = true
      ∧ ∃ user, user ∈ Region_walk nestedChain (BodyOf 2)
                ∧ OpResult 1 0 ∈ getOperands (getOp nestedChain user))
     ∨ (∃ producer i, OpResult 1 0 = OpResult producer i
                      ∧ producer ∈ [3; 4] ∧ producer ≠ 3))
  ∧ ((isDefinedAbove nestedChain (properAncestors nestedChain 2)
        (OpResult 3 0) = true
      ∧ ∃ user, user ∈ Region_walk nestedChain (BodyOf 2)
                ∧ OpResult 3 0 ∈ getOperands (getOp nestedChain user))
     ∨ (∃ producer i, OpResult 3 0 = OpResult producer i
                      ∧ producer ∈ [3; 4] ∧ producer ≠ 4)).
Proof.
  assert (H1 : IdentifyOutsideCompiledOpsAtHead 3 nestedChain 2 = Some [3; 4])
    by reflexivity.
  assert (H3 : 3 ∈ [3; 4]) by left.
  assert (H4 : 4 ∈ [3; 4]) by (right; left).
  assert (Hv3 : OpResult 1 0 ∈ getOperands (getOp nestedChain 3))
    by (vm_compute; left).
  assert (Hv4 : OpResult 3 0 ∈ getOperands (getOp nestedChain 4))
    by (vm_compute; left).
  split; [exact H1|]. do 4 (split; [reflexivity|]). split.
  - exact (head_set_closed 3 nestedChain 2 [3; 4] 3 (OpResult 1 0) H1 H3 Hv3).
  - exact (head_set_closed 3 nestedChain 2 [3; 4] 4 (OpResult 3 0) H1 H4 Hv4).
Defined.

(** C4.  Every operation of the computed head set carries the
    [_xla_outside_compilation] string attribute, and an operation without it
    is in no head set, whatever its operands are. *)
Theorem head_set_tagged fuel m cluster head :
  IdentifyOutsideCompiledOpsAtHead fuel m cluster = Some head →
  (∀ op, op ∈ head →
         HasOutsideCompilationAttribute (getOp m op) = true
         ∧ ∃ s, getAttr (getOp m op) kXlaOutsideCompilationAttr
                = Some (StringAttr s))
  ∧ (∀ op, HasOutsideCompilationAttribute (getOp m op) = false → op ∉ head)
  ∧ (∀ op, getAttr (getOp m op) kXlaOutsideCompilationAttr = None →
           op ∉ head).
Proof.
  intros Hid. pose proof (Identify_Ordered _ _ _ _ Hid) as Hord.
  assert (Htag : ∀ op, op ∈ head →
                       HasOutsideCompilationAttribute (getOp m op) = true).
  { intros op (pre & post & ->)%list_elem_of_split.
    by destruct (Ordered_split _ _ _ _ _ _ Hord eq_refl). }
  split; [|split].
  - intros op Hop. specialize (Htag op Hop). split; [done|].
    unfold HasOutsideCompilationAttribute, getAttrOfType_StringAttr in Htag.
    destruct (getAttr (getOp m op) kXlaOutsideCompilationAttr) as [[s|]|];
      try discriminate. by exists s.
  - intros op Hno Hop. specialize (Htag op Hop). congruence.
  - intros op Hno Hop. specialize (Htag op Hop).
    unfold HasOutsideCompilationAttribute, getAttrOfType_StringAttr in Htag.
    by rewrite Hno in Htag.
Qed.

Lemma head_set_tagged_witness :
  IdentifyOutsideCompiledOpsAtHead 3 chained 0 = Some [1; 2]
  ∧ (∀ op, op ∈ [1; 2] →
           HasOutsideCompilationAttribute (getOp chained op) = true
           ∧ ∃ s, getAttr (getOp chained op) kXlaOutsideCompilationAttr
                  = Some (StringAttr s))
  ∧ (∀ op, HasOutsideCompilationAttribute (getOp chained op) = false →
           op ∉ [1; 2])
  ∧ (∀ op, getAttr (getOp chained op) kXlaOutsideCompilationAttr = None →
           op ∉ [1; 2]).
Proof.
  assert (H1 : IdentifyOutsideCompiledOpsAtHead 3 chained 0 = Some [1; 2])
    by reflexivity.
  split; [exact H1|]. exact (head_set_tagged 3 chained 0 [1; 2] H1).
Defined.

(** C5.  For a head operation with a result that has a use owned by an
    operation outside the head set, all the results of the operation stand
    in the output list, next to each other and in result order, also those
    without any such use.  No result of a head operation whose results are
    used inside the head set only is in the output list. *)
Theorem outputs_are_all_results_of_exporting_ops m head op :
  op ∈ head →
  getResults m op
  = map (OpResult op) (seq 0 (length (opResults (getOp m op))))
  ∧ ((∃ r use, r ∈ getResults m op ∧ use ∈ getUses m r
               ∧ getOwner use ∉ head) →
     ∃ pre post,
       GetHeadExtractedClusterOutputs m head
       = pre ++ getResults m op ++ post)
  ∧ ((∀ r use, r ∈ getResults m op → use ∈ getUses m r →
               getOwner use ∈ head) →
     ∀ r, r ∈ getResults m op → r ∉ GetHeadExtractedClusterOutputs m head).
Proof.
  intros Hop. split; [done|]. split.
  - intros Hext%existsb_users.
    by apply GetHeadExtractedClusterOutputs_loop_exporting.
  - intros Hinside r Hr Hout.
    apply GetHeadExtractedClusterOutputs_loop_elem in Hout
      as (op' & _ & Hr' & Hex).
    apply elem_of_getResults in Hr as (i & -> & _).
    apply elem_of_getResults in Hr' as (i' & [= <- _] & _).
    apply existsb_users in Hex as (r & use & Hr & Huse & Hext).
    apply Hext. by eapply Hinside.
Qed.

Lemma outputs_are_all_results_of_exporting_ops_witness :
  2 ∈ [1; 2]
  ∧ GetHeadExtractedClusterOutputs chained [1; 2] = [OpResult 2 0]
  ∧ getResults chained 2
    = map (OpResult 2) (seq 0 (length (opResults (getOp chained 2))))
  ∧ ((∃ r use, r ∈ getResults chained 2 ∧ use ∈ getUses chained r
               ∧ getOwner use ∉ [1; 2]) →
     ∃ pre post,
       GetHeadExtractedClusterOutputs chained [1; 2]
       = pre ++ getResults chained 2 ++ post)
  ∧ ((∀ r use, r ∈ getResults chained 2 → use ∈ getUses chained r →
               getOwner use ∈ [1; 2]) →
     ∀ r, r ∈ getResults chained 2 →
          r ∉ GetHeadExtractedClusterOutputs chained [1; 2]).
Proof.
  assert (H : 2 ∈ [1; 2]) by (right; left).
  split; [exact H|]. split; [reflexivity|].
  exact (outputs_are_all_results_of_exporting_ops chained [1; 2] 2 H).
Defined.

(** C6, evaluated where it fails.  In [twoConsumers] the result of head
    operation 1 is read by operations 2 and 3, neither in the head set.  The
    replacement loop redirects the first use of the list, that of 3, to
    result 0 of launch 4 and then stops: operation 2 still reads the result
    of operation 1, which now sits in the body of the launch. *)
Theorem second_consumer_keeps_original_value :
  IdentifyOutsideCompiledOpsAtHead 2 twoConsumers 0 = Some [1]
  ∧ GetHeadExtractedClusterOutputs twoConsumers [1] = [OpResult 1 0]
  ∧ getUses twoConsumers (OpResult 1 0) = [mkOpOperand 3 0; mkOpOperand 2 0]
  ∧ ∃ m', IsolateHeadExtractedOpsToLaunchOp twoConsumers 0 [1]
          = Some (m', Some 4)
          ∧ getOperands (getOp m' 3) = [OpResult 4 0]
          ∧ getOperands (getOp m' 2) = [OpResult 1 0]
          ∧ SetVector.count 2 [1] = 0
          ∧ getUses m' (OpResult 4 0) = [mkOpOperand 3 0]
          ∧ getUses m' (OpResult 1 0) = [mkOpOperand 5 0; mkOpOperand 2 0]
          ∧ getBody (getOp m' 4) = [1; 5]
          ∧ getBody (getOp m' 0) = [2; 3].
Proof.
  split; [reflexivity|]. split; [reflexivity|]. split; [reflexivity|].
  eexists. split; [vm_compute; reflexivity|]. by vm_compute.
Qed.

(** C7.  When the device lookup fails, the pass signals failure and the
    module is the one it was given, with any amount of fuel: no cluster is
    looked at. *)
Theorem failure_leaves_module (RuntimeDevices : Type)
    (GetDevicesFromOp : ModuleOp → option RuntimeDevices) fuel module :
  GetDevicesFromOp module = None →
  runOnOperation RuntimeDevices GetDevicesFromOp fuel module
  = Some (failure, module).
Proof. intros Hfail. unfold runOnOperation. by rewrite Hfail. Qed.

Lemma failure_leaves_module_witness :
  devicesMissing chained = None
  ∧ runOnOperation unit devicesMissing 0 chained = Some (failure, chained)
  ∧ ∃ m', runOnOperation unit devicesAvailable 3 chained = Some (success, m')
          ∧ m' ≠ chained.
Proof.
  split; [reflexivity|]. split.
  - apply (failure_leaves_module unit devicesMissing 0 chained). reflexivity.
  - eexists. split; [vm_compute; reflexivity|].
    intros H. apply (f_equal getBlock) in H. vm_compute in H. discriminate.
Defined.

(** C8, evaluated where it fails.  In [sharedInput] the argument [%a] is read
    by head operation 1 and by operation 2, which stays in the cluster.  The
    first run moves 1 into launch 3.  In the second run [%a] is still a
    boundary input of the cluster and operation 1, now in the body of launch
    3, is still one of its users and still tagged: the head set is [[1]]
    again, a second launch 5 is created and operation 1 is moved into it. *)
Theorem second_run_hoists_again :
  ∃ m1 m2,
    runOnOperation unit devicesAvailable 2 sharedInput = Some (success, m1)
    ∧ getBlock m1 = [3; 0]
    ∧ getBody (getOp m1 3) = [1; 4]
    ∧ getBody (getOp m1 0) = [2]
    ∧ IdentifyOutsideCompiledOpsAtHead 2 m1 0 = Some [1]
    ∧ runOnOperation unit devicesAvailable 2 m1 = Some (success, m2)
    ∧ getBlock m2 = [3; 5; 0]
    ∧ getBody (getOp m2 3) = [4]
    ∧ getBody (getOp m2 5) = [1; 6]
    ∧ getOperands (getOp m2 4) = [OpResult 5 0]
    ∧ m2 ≠ m1.
Proof.
  eexists _, _. split; [vm_compute; reflexivity|].
  do 4 (split; [reflexivity|]).
  split; [vm_compute; reflexivity|].
  do 4 (split; [reflexivity|]).
  intros H. apply (f_equal getBlock) in H. vm_compute in H. discriminate.
Qed.

(** C9.  On a finite acyclic graph, one whose use-lists agree with the
    operands and whose operations have a topological rank below [bound],
    the traversal loop ends within [bound] rounds: with that much fuel the
    traversal from any input value returns, and so does the head set
    computation of every cluster. *)
Theorem head_set_builder_terminates m rank bound fuel :
  useListsConsistent m = true →
  isTopologicalRank rank bound m = true →
  bound ≤ fuel →
  (∀ input values ops,
     ∃ result,
       ExtractOutsideCompiledOpsConnectedToHead fuel m input values ops
       = Some result)
  ∧ (∀ cluster,
       ∃ head, IdentifyOutsideCompiledOpsAtHead fuel m cluster = Some head).
Proof.
  intros Hcons Hrank Hfuel. split.
  - intros input values ops.
    by apply (Extract_terminates m rank bound Hcons Hrank).
  - intros cluster. by apply (Identify_terminates m rank bound Hcons Hrank).
Qed.

Lemma head_set_builder_terminates_witness :
  useListsConsistent chained = true
  ∧ isTopologicalRank (fun op => op) 4 chained = true
  ∧ IdentifyOutsideCompiledOpsAtHead 4 chained 0 = Some [1; 2]
  ∧ (∀ input values ops,
       ∃ result,
         ExtractOutsideCompiledOpsConnectedToHead 4 chained input values ops
         = Some result)
  ∧ (∀ cluster,
       ∃ head, IdentifyOutsideCompiledOpsAtHead 4 chained cluster = Some head).
Proof.
  split; [reflexivity|]. split; [reflexivity|]. split; [reflexivity|].
  apply (head_set_builder_terminates chained (fun op => op) 4 4).
  - reflexivity.
  - reflexivity.
  - lia.
Defined.

(** C10, evaluated where it fails.  In [taggedOutside] the tagged operation 0
    sits in the function block, reads [%a] and defines a boundary input of
    cluster 1, read by the tagged operation 2 of the cluster.  Operation 2 is
    recorded first, from the uses of that boundary input; operation 0 is
    recorded afterwards, from the uses of [%a].  Both are moved, and in the
    body of launch 4 operation 2 stands in front of operation 0, whose result
    it reads.  The module is well formed and acyclic. *)
Theorem consumer_hoisted_ahead_of_producer :
  useListsConsistent taggedOutside = true
  ∧ isTopologicalRank (fun op => op) 4 taggedOutside = true
  ∧ blocksInArena taggedOutside = true
  ∧ getBlock taggedOutside = [0; 1]
  ∧ getBody (getOp taggedOutside 1) = [2; 3]
  ∧ getUsedValuesDefinedAbove taggedOutside 1 = [OpResult 0 0; arg_a]
  ∧ IdentifyOutsideCompiledOpsAtHead 4 taggedOutside 1 = Some [2; 0]
  ∧ ∃ m', IsolateHeadExtractedOpsToLaunchOp taggedOutside 1 [2; 0]
          = Some (m', Some 4)
          ∧ runOnOperation unit devicesAvailable 4 taggedOutside
            = Some (success, m')
          ∧ getBody (getOp m' 4) = [2; 0; 5]
          ∧ getOperands (getOp m' 2) = [OpResult 0 0]
          ∧ comesBefore 2 0 (getBody (getOp m' 4)) = true
          ∧ comesBefore 0 2 (getBody (getOp m' 4)) = false.
Proof.
  do 7 (split; [reflexivity|]).
  eexists. split; [vm_compute; reflexivity|]. by vm_compute.
Qed.

(** * Further properties *)

(** ** The operand test *)

(** X1.  [OpContainsOperandsFromSet] answers whether every operand of the
    operation is in the set; an operation without operands passes. *)
Theorem OpContainsOperandsFromSet_spec op input_value_set :
  (OpContainsOperandsFromSet op input_value_set = true
   ↔ ∀ v, v ∈ getOperands op → v ∈ input_value_set)
  ∧ (getOperands op = [] → OpContainsOperandsFromSet op input_value_set = true).
Proof.
  unfold OpContainsOperandsFromSet. split.
  - apply OpContainsOperandsFromSet_loop_true.
  - by intros ->.
Qed.

Lemma OpContainsOperandsFromSet_false op values :
  OpContainsOperandsFromSet op values = false →
  ∃ v, v ∈ getOperands op ∧ v ∉ values.
Proof.
  unfold OpContainsOperandsFromSet.
  induction (getOperands op) as [|operand rest IH]; simpl; [done|].
  destruct (SetVector.count operand values =? 0) eqn:Hc.
  - apply count_eqb_0 in Hc. intros _. exists operand. split; [left|done].
  - intros (v & Hv & Hout)%IH. exists v. split; [by right|done].
Qed.

(** ** A module without tagged operation *)

Lemma noOutsideCompiledOp_getOp m op :
  noOutsideCompiledOp m = true →
  HasOutsideCompilationAttribute (getOp m op) = false.
Proof.
  unfold noOutsideCompiledOp, getOp. rewrite forallb_forall. intros Hall.
  destruct (opTable m !! op) as [o|] eqn:Hop; simpl; [|done].
  apply list_elem_of_lookup_2, list_elem_of_In, Hall in Hop.
  by apply negb_true_iff in Hop.
Qed.

Lemma recordUses_untagged m uses st :
  noOutsideCompiledOp m = true → recordUses m uses st = st.
Proof.
  intros Hno. revert st. induction uses as [|usage rest IH]; intros st; simpl;
    [done|].
  rewrite IH. destruct st as [ops values].
  unfold RecordOutsideCompiledOpsAndUsages.
  by rewrite noOutsideCompiledOp_getOp.
Qed.

Lemma extractFromInputs_untagged fuel m inputs values ops :
  noOutsideCompiledOp m = true →
  extractFromInputs fuel m inputs values ops = Some (values, ops).
Proof.
  intros Hno. induction inputs as [|input rest IH]; simpl; [done|].
  unfold ExtractOutsideCompiledOpsConnectedToHead.
  rewrite recordUses_untagged by done.
  by rewrite traverseConnected_nil.
Qed.

Lemma existsb_elem_of_nil (l : list nat) :
  existsb (fun o => bool_decide (o ∈ @nil nat)) l = false.
Proof.
  induction l as [|o rest IH]; [done|]. cbn [existsb].
  rewrite IH, orb_false_r. apply bool_decide_eq_false_2, not_elem_of_nil.
Qed.

Lemma walkClusters_untagged fuel m clusters :
  noOutsideCompiledOp m = true → walkClusters fuel m [] clusters = Some m.
Proof.
  intros Hno. induction clusters as [|cluster rest IH]; [done|].
  cbn [walkClusters]. unfold isNestedIn. rewrite existsb_elem_of_nil.
  unfold IdentifyOutsideCompiledOpsAtHead.
  rewrite extractFromInputs_untagged by done.
  by rewrite existsb_elem_of_nil.
Qed.

(** X2.  When no operation of the module carries the attribute, no cluster
    has a head operation and the pass, with device information at hand,
    succeeds and leaves the module as it is, whatever the fuel. *)
Theorem untagged_module_unchanged (RuntimeDevices : Type)
    (GetDevicesFromOp : ModuleOp → option RuntimeDevices) devices fuel m :
  noOutsideCompiledOp m = true →
  GetDevicesFromOp m = Some devices →
  (∀ cluster, IdentifyOutsideCompiledOpsAtHead fuel m cluster = Some [])
  ∧ runOnOperation RuntimeDevices GetDevicesFromOp fuel m = Some (success, m).
Proof.
  intros Hno Hdev. split.
  - intros cluster. unfold IdentifyOutsideCompiledOpsAtHead.
    by rewrite extractFromInputs_untagged.
  - unfold runOnOperation. rewrite Hdev.
    by rewrite walkClusters_untagged.
Qed.

Lemma untagged_module_unchanged_witness :
  noOutsideCompiledOp untagged = true
  ∧ devicesAvailable untagged = Some tt
  ∧ (∀ cluster, IdentifyOutsideCompiledOpsAtHead 0 untagged cluster = Some [])
  ∧ runOnOperation unit devicesAvailable 0 untagged = Some (success, untagged).
Proof.
  split; [reflexivity|]. split; [reflexivity|].
  apply (untagged_module_unchanged unit devicesAvailable tt 0 untagged);
    reflexivity.
Defined.

(** ** Shape of the head set *)

(** X3.  The head set lists no operation twice and lists operations of the
    arena only. *)
Theorem head_set_distinct_existing fuel m cluster head :
  IdentifyOutsideCompiledOpsAtHead fuel m cluster = Some head →
  NoDup head ∧ ∀ op, op ∈ head → op < length (opTable m).
Proof. apply Identify_head_ops. Qed.

Lemma head_set_distinct_existing_witness :
  IdentifyOutsideCompiledOpsAtHead 4 interleaved 0 = Some [3; 1; 2]
  ∧ NoDup [3; 1; 2]
  ∧ ∀ op, op ∈ [3; 1; 2] → op < length (opTable interleaved).
Proof.
  assert (H : IdentifyOutsideCompiledOpsAtHead 4 interleaved 0 = Some [3; 1; 2])
    by reflexivity.
  split; [exact H|].
  exact (head_set_distinct_existing 4 interleaved 0 [3; 1; 2] H).
Defined.

(** ** Head operations are users *)

Lemma getUses_in_allValues m v use :
  use ∈ getUses m v → v ∈ allValues m.
Proof.
  unfold getUses. destruct (getValueImpl m v) as [impl|] eqn:Himpl;
    [|by intros ?%elem_of_nil].
  intros _. unfold allValues. apply elem_of_app. destruct v as [n|p i]; simpl in *.
  - left. apply list_elem_of_fmap. exists n. split; [done|].
    apply elem_of_seq. pose proof (lookup_lt_Some _ _ _ Himpl). lia.
  - right. pose proof (lookup_lt_Some _ _ _ Himpl) as Hi.
    assert (Hr : OpResult p i ∈ getResults m p).
    { apply elem_of_getResults. by exists i. }
    apply list_elem_of_In, in_flat_map. exists p. split.
    + apply in_seq. pose proof (getResults_in_arena _ _ _ Hr). lia.
    + by apply list_elem_of_In.
Qed.

Lemma useListsConsistent_getUses m v use :
  useListsConsistent m = true → use ∈ getUses m v →
  getOperandValue m use = Some v.
Proof.
  unfold useListsConsistent. rewrite forallb_forall. intros Hall Huse.
  pose proof (getUses_in_allValues _ _ _ Huse) as Hin.
  apply list_elem_of_In, Hall in Hin. rewrite forallb_forall in Hin.
  apply list_elem_of_In, Hin in Huse. by apply bool_decide_eq_true in Huse.
Qed.

Lemma isUser_recordUses m v st o :
  (∀ x, x ∈ st.1 → isUser m x) →
  o ∈ (recordUses m (getUses m v) st).1 → isUser m o.
Proof.
  intros Hst [Ho|(use & Huse & Hown & _)]%elem_of_recordUses; [auto|].
  by exists v, use.
Qed.

Lemma isUser_recordConnected m parent st o :
  (∀ x, x ∈ st.1 → isUser m x) →
  o ∈ (recordConnected m parent st).1 → isUser m o.
Proof.
  intros Hst [Ho|(p & r & use & _ & _ & Huse & Hown & _)]%elem_of_recordConnected;
    [auto|]. by exists r, use.
Qed.

Lemma isUser_traverseConnected fuel m parent values ops values' ops' :
  (∀ x, x ∈ parent → isUser m x) → (∀ x, x ∈ ops → isUser m x) →
  traverseConnected fuel m parent values ops = Some (values', ops') →
  ∀ x, x ∈ ops' → isUser m x.
Proof.
  revert parent values ops.
  induction fuel as [|fuel IH]; intros parent values ops Hparent Hops Hrun;
    destruct (decide (parent = [])) as [->|Hne].
  - rewrite traverseConnected_nil in Hrun. by simplify_eq.
  - by rewrite traverseConnected_0 in Hrun.
  - rewrite traverseConnected_nil in Hrun. by simplify_eq.
  - rewrite traverseConnected_step in Hrun by done.
    eapply IH; [| |exact Hrun].
    + intros x Hx. eapply isUser_recordConnected; [|exact Hx].
      by intros y ?%elem_of_nil.
    + intros x [?|?]%elem_of_insert_range; auto.
Qed.

Lemma isUser_extractFromInputs fuel m inputs values ops values' ops' :
  (∀ x, x ∈ ops → isUser m x) →
  extractFromInputs fuel m inputs values ops = Some (values', ops') →
  ∀ x, x ∈ ops' → isUser m x.
Proof.
  revert values ops. induction inputs as [|input rest IH];
    intros values ops Hops Hrun; simpl in Hrun; [by simplify_eq|].
  destruct (ExtractOutsideCompiledOpsConnectedToHead fuel m input values ops)
    as [[values1 ops1]|] eqn:Hex; [|done].
  eapply IH; [|exact Hrun].
  unfold ExtractOutsideCompiledOpsConnectedToHead in Hex.
  destruct (recordUses m (getUses m input) ([], values))
    as [parent values0] eqn:Hrec.
  eapply isUser_traverseConnected; [|exact Hops|exact Hex].
  intros x Hx. apply (isUser_recordUses m input ([], values)).
  - by intros y ?%elem_of_nil.
  - by rewrite Hrec.
Qed.

(** X4.  With use-lists that agree with the operands, every operation of the
    head set has an operand: a tagged operation without operands is never
    picked up, whatever its place in the cluster. *)
Theorem head_operations_have_operands fuel m cluster head op :
  useListsConsistent m = true →
  IdentifyOutsideCompiledOpsAtHead fuel m cluster = Some head →
  op ∈ head →
  getOperands (getOp m op) ≠ [].
Proof.
  intros Hcons Hid Hop. unfold IdentifyOutsideCompiledOpsAtHead in Hid.
  destruct (extractFromInputs fuel m _ _ []) as [[values ops]|] eqn:Hex;
    [|done]. simplify_eq.
  assert (Huser : isUser m op).
  { eapply isUser_extractFromInputs; [|exact Hex|exact Hop].
    by intros y ?%elem_of_nil. }
  destruct Huser as (v & use & Huse & <-).
  pose proof (useListsConsistent_getUses _ _ _ Hcons Huse) as Hval.
  unfold getOperandValue in Hval. intros Hnil. by rewrite Hnil in Hval.
Qed.

Lemma head_operations_have_operands_witness :
  useListsConsistent chained = true
  ∧ IdentifyOutsideCompiledOpsAtHead 3 chained 0 = Some [1; 2]
  ∧ 1 ∈ [1; 2]
  ∧ getOperands (getOp chained 1) ≠ [].
Proof.
  assert (H1 : useListsConsistent chained = true) by reflexivity.
  assert (H2 : IdentifyOutsideCompiledOpsAtHead 3 chained 0 = Some [1; 2])
    by reflexivity.
  assert (H3 : 1 ∈ [1; 2]) by left.
  split; [exact H1|]. split; [exact H2|]. split; [exact H3|].
  exact (head_operations_have_operands 3 chained 0 [1; 2] 1 H1 H2 H3).
Defined.

(** ** The head set misses no operation *)

Lemma useListsComplete_use m op k v :
  useListsComplete m = true → op < length (opTable m) →
  getOperands (getOp m op) !! k = Some v →
  mkOpOperand op k ∈ getUses m v.
Proof.
  unfold useListsComplete. rewrite forallb_forall. intros Hall Hop Hk.
  assert (Hin : In op (seq 0 (length (opTable m)))) by (apply in_seq; lia).
  apply Hall in Hin. rewrite forallb_forall in Hin.
  assert (Hkin : In k (seq 0 (length (getOperands (getOp m op))))).
  { apply in_seq. pose proof (lookup_lt_Some _ _ _ Hk). lia. }
  apply Hin in Hkin. rewrite Hk in Hkin. by apply bool_decide_eq_true in Hkin.
Qed.

Lemma record_grows m op ops values :
  let st' := RecordOutsideCompiledOpsAndUsages m op (ops, values) in
  (∀ v, v ∈ values → v ∈ st'.2) ∧ (∀ o, o ∈ ops → o ∈ st'.1).
Proof.
  unfold RecordOutsideCompiledOpsAndUsages.
  destruct (_ && _); simpl; [|done]. split.
  - intros v Hv. apply elem_of_insert_range. by left.
  - intros o Ho. apply elem_of_insert. by left.
Qed.

Lemma record_new m op ops values o :
  let st' := RecordOutsideCompiledOpsAndUsages m op (ops, values) in
  o ∈ st'.1 →
  o ∈ ops ∨ (o = op ∧ ∀ r, r ∈ getResults m op → r ∈ st'.2).
Proof.
  unfold RecordOutsideCompiledOpsAndUsages.
  destruct (_ && _); simpl; [|by left].
  intros [Ho| ->]%elem_of_insert; [by left|]. right. split; [done|].
  intros r Hr. apply elem_of_insert_range. by right.
Qed.

Lemma record_accepts m op ops values :
  HasOutsideCompilationAttribute (getOp m op) = true →
  OpContainsOperandsFromSet (getOp m op) values = true →
  op ∈ (RecordOutsideCompiledOpsAndUsages m op (ops, values)).1.
Proof.
  intros Htag Hin. unfold RecordOutsideCompiledOpsAndUsages.
  rewrite Htag, Hin. simpl. apply elem_of_insert. by right.
Qed.

Lemma Explored_record m prefix use v0 ops values visited :
  Explored m (prefix ++ ops) values visited →
  getOperandValue m use = Some v0 → v0 ∈ values →
  Explored m
    (prefix ++ (RecordOutsideCompiledOpsAndUsages m (getOwner use) (ops, values)).1)
    (RecordOutsideCompiledOpsAndUsages m (getOwner use) (ops, values)).2
    (visited ++ [use]).
Proof.
  intros (Hpend & Hvis & Hres) Hval Hv0.
  destruct (record_grows m (getOwner use) ops values) as [Hvalues Hops].
  pose proof (record_new m (getOwner use) ops values) as Hnew.
  pose proof (record_accepts m (getOwner use) ops values) as Haccept.
  set (st' := RecordOutsideCompiledOpsAndUsages m (getOwner use) (ops, values))
    in *. simpl in Hvalues, Hops, Hnew.
  split; [|split].
  - intros op Htag Hne Hall.
    destruct (OpContainsOperandsFromSet (getOp m op) values) eqn:Hin.
    + destruct (decide (op = getOwner use)) as [->|Hother].
      * left. apply elem_of_app. right. by apply Haccept.
      * pose proof (proj1 (OpContainsOperandsFromSet_loop_true _ _) Hin) as Hold.
        destruct (Hpend op Htag Hne Hold) as [Hop|(k & Hk & Hnot)].
        -- left. apply elem_of_app in Hop as [?|?]; apply elem_of_app; auto.
        -- right. exists k. split; [done|].
           rewrite elem_of_app, list_elem_of_singleton.
           intros [?|Heq]; [done|]. apply Hother. by rewrite <- Heq.
    + apply OpContainsOperandsFromSet_false in Hin as (v & Hv & Hout).
      apply list_elem_of_lookup_1 in Hv as (k & Hk).
      right. exists k. split; [eapply lookup_lt_Some, Hk|].
      rewrite elem_of_app, list_elem_of_singleton. intros [Hin|Heq].
      * destruct (Hvis _ Hin) as (v' & Hv' & Hav).
        unfold getOperandValue in Hv'. simpl in Hv'. congruence.
      * rewrite <- Heq in Hval. unfold getOperandValue in Hval. simpl in Hval.
        congruence.
  - intros u [Hu| ->%list_elem_of_singleton]%elem_of_app.
    + destruct (Hvis _ Hu) as (v & ? & ?). exists v. auto.
    + exists v0. auto.
  - intros op r [Hop|Hop]%elem_of_app Hr.
    + apply Hvalues, (Hres op); [|done]. apply elem_of_app. by left.
    + destruct (Hnew _ Hop) as [Hold|[-> Hall]]; [|by apply Hall].
      apply Hvalues, (Hres op); [|done]. apply elem_of_app. by right.
Qed.

Lemma Explored_recordUses m prefix uses st visited :
  Explored m (prefix ++ st.1) st.2 visited →
  (∀ use, use ∈ uses →
          ∃ v0, getOperandValue m use = Some v0 ∧ v0 ∈ st.2) →
  Explored m (prefix ++ (recordUses m uses st).1) (recordUses m uses st).2
    (visited ++ uses)
  ∧ (∀ v, v ∈ st.2 → v ∈ (recordUses m uses st).2).
Proof.
  revert st visited. induction uses as [|use rest IH];
    intros [ops values] visited Hexp Huses; cbn [recordUses].
  - by rewrite app_nil_r.
  - destruct (Huses use) as (v0 & Hval & Hv0); [left|]. simpl in Hv0.
    pose proof (Explored_record _ _ _ _ _ _ _ Hexp Hval Hv0) as Hstep.
    destruct (record_grows m (getOwner use) ops values) as [Hvalues _].
    destruct (IH _ _ Hstep) as [Hrest Hmono].
    { intros u Hu. destruct (Huses u) as (v & ? & ?); [by right|].
      exists v. split; [done|]. by apply Hvalues. }
    split.
    + rewrite <- app_assoc in Hrest. exact Hrest.
    + intros v Hv. by apply Hmono, Hvalues.
Qed.

Lemma Explored_recordResults m prefix results st visited :
  useListsConsistent m = true →
  Explored m (prefix ++ st.1) st.2 visited →
  (∀ r, r ∈ results → r ∈ st.2) →
  Explored m (prefix ++ (recordResults m results st).1)
    (recordResults m results st).2
    (visited ++ flat_map (getUses m) results)
  ∧ (∀ v, v ∈ st.2 → v ∈ (recordResults m results st).2).
Proof.
  intros Hcons. revert st visited. induction results as [|r rest IH];
    intros st visited Hexp Hres; cbn [recordResults flat_map].
  - by rewrite app_nil_r.
  - destruct (Explored_recordUses m prefix (getUses m r) st visited Hexp)
      as [Hstep Hmono1].
    { intros use Huse. exists r. split.
      - by apply useListsConsistent_getUses.
      - apply Hres. left. }
    destruct (IH _ _ Hstep) as [Hrest Hmono2].
    { intros r' Hr'. apply Hmono1, Hres. by right. }
    split.
    + by rewrite app_assoc.
    + intros v Hv. by apply Hmono2, Hmono1.
Qed.

Lemma Explored_recordConnected m prefix parent st visited :
  useListsConsistent m = true →
  Explored m (prefix ++ st.1) st.2 visited →
  (∀ p r, p ∈ parent → r ∈ getResults m p → r ∈ st.2) →
  Explored m (prefix ++ (recordConnected m parent st).1)
    (recordConnected m parent st).2
    (visited ++ flat_map (fun p => flat_map (getUses m) (getResults m p)) parent)
  ∧ (∀ v, v ∈ st.2 → v ∈ (recordConnected m parent st).2).
Proof.
  intros Hcons. revert st visited. induction parent as [|p rest IH];
    intros st visited Hexp Hres; cbn [recordConnected flat_map].
  - by rewrite app_nil_r.
  - destruct (Explored_recordResults m prefix (getResults m p) st visited
                Hcons Hexp) as [Hstep Hmono1].
    { intros r Hr. apply (Hres p); [left|done]. }
    destruct (IH _ _ Hstep) as [Hrest Hmono2].
    { intros p' r Hp' Hr. apply Hmono1, (Hres p'); [by right|done]. }
    split.
    + by rewrite app_assoc.
    + intros v Hv. by apply Hmono2, Hmono1.
Qed.

Lemma Explored_equiv m ops ops' values visited :
  (∀ o, o ∈ ops ↔ o ∈ ops') →
  Explored m ops values visited → Explored m ops' values visited.
Proof.
  intros Heq (Hpend & Hvis & Hres). split; [|split; [done|]].
  - intros op Htag Hne Hall. destruct (Hpend op Htag Hne Hall) as [?|?];
      [left; by apply Heq|by right].
  - intros op r Hop. apply Hres. by apply Heq.
Qed.

Lemma Explored_traverseConnected fuel m parent values ops visited values' ops' :
  useListsConsistent m = true →
  Explored m (ops ++ parent) values visited →
  Covered m ops visited →
  traverseConnected fuel m parent values ops = Some (values', ops') →
  ∃ visited',
    Explored m ops' values' visited'
    ∧ Covered m ops' visited'
    ∧ (∀ use, use ∈ visited → use ∈ visited')
    ∧ (∀ v, v ∈ values → v ∈ values').
Proof.
  intros Hcons. revert parent values ops visited.
  induction fuel as [|fuel IH]; intros parent values ops visited Hexp Hcov Hrun;
    destruct (decide (parent = [])) as [->|Hne];
    try (rewrite traverseConnected_nil in Hrun; simplify_eq;
         exists visited; rewrite app_nil_r in Hexp; done).
  - by rewrite traverseConnected_0 in Hrun.
  - rewrite traverseConnected_step in Hrun by done.
    destruct (Explored_recordConnected m (ops ++ parent) parent ([], values)
                visited Hcons) as [Hstep Hmono].
    { simpl. by rewrite app_nil_r. }
    { intros p r Hp Hr. destruct Hexp as (_ & _ & Hres).
      apply (Hres p); [|done]. apply elem_of_app. by right. }
    set (connected := (recordConnected m parent ([], values)).1) in *.
    set (values1 := (recordConnected m parent ([], values)).2) in *.
    set (visited1 := visited ++ flat_map
                       (fun p => flat_map (getUses m) (getResults m p)) parent)
      in *.
    destruct (IH connected values1 (SetVector.insert_range parent ops) visited1)
      as (visited' & Hexp' & Hcov' & Hvis' & Hval'); [| |exact Hrun|].
    + eapply Explored_equiv; [|exact Hstep]. intros o.
      rewrite !elem_of_app, elem_of_insert_range. tauto.
    + intros op r use [Hop|Hop]%elem_of_insert_range Hr Huse;
        apply elem_of_app.
      * left. by eapply Hcov.
      * right. apply list_elem_of_In, in_flat_map. exists op.
        split; [by apply list_elem_of_In|].
        apply in_flat_map. exists r. by rewrite <- !list_elem_of_In.
    + exists visited'. split; [done|]. split; [done|]. split.
      * intros use Huse. apply Hvis', elem_of_app. by left.
      * intros v Hv. by apply Hval', Hmono.
Qed.

Lemma Explored_Extract fuel m input values ops visited values' ops' :
  useListsConsistent m = true →
  input ∈ values →
  Explored m ops values visited →
  Covered m ops visited →
  ExtractOutsideCompiledOpsConnectedToHead fuel m input values ops
    = Some (values', ops') →
  ∃ visited',
    Explored m ops' values' visited'
    ∧ Covered m ops' visited'
    ∧ (∀ use, use ∈ visited → use ∈ visited')
    ∧ (∀ v, v ∈ values → v ∈ values')
    ∧ (∀ use, use ∈ getUses m input → use ∈ visited').
Proof.
  intros Hcons Hin Hexp Hcov. unfold ExtractOutsideCompiledOpsConnectedToHead.
  destruct (Explored_recordUses m ops (getUses m input) ([], values) visited)
    as [Hstep Hmono].
  { simpl. by rewrite app_nil_r. }
  { intros use Huse. exists input. split; [|done].
    by apply useListsConsistent_getUses. }
  destruct (recordUses m (getUses m input) ([], values))
    as [parent values1] eqn:Hrec. simpl in Hstep, Hmono.
  intros Hrun.
  assert (Hcov1 : Covered m ops (visited ++ getUses m input)).
  { intros op r use Hop Hr Huse. apply elem_of_app. left. by eapply Hcov. }
  destruct (Explored_traverseConnected fuel m parent values1 ops
              (visited ++ getUses m input) values' ops' Hcons Hstep Hcov1 Hrun)
    as (visited' & Hexp' & Hcov' & Hvis' & Hval').
  exists visited'. split; [done|]. split; [done|]. split; [|split].
  - intros use Huse. apply Hvis', elem_of_app. by left.
  - intros v Hv. by apply Hval', Hmono.
  - intros use Huse. apply Hvis', elem_of_app. by right.
Qed.

Lemma Explored_extractFromInputs fuel m inputs values ops visited values' ops' :
  useListsConsistent m = true →
  (∀ input, input ∈ inputs → input ∈ values) →
  Explored m ops values visited →
  Covered m ops visited →
  extractFromInputs fuel m inputs values ops = Some (values', ops') →
  ∃ visited',
    Explored m ops' values' visited'
    ∧ Covered m ops' visited'
    ∧ (∀ use, use ∈ visited → use ∈ visited')
    ∧ (∀ v, v ∈ values → v ∈ values')
    ∧ (∀ input use, input ∈ inputs → use ∈ getUses m input → use ∈ visited').
Proof.
  intros Hcons. revert values ops visited.
  induction inputs as [|input rest IH];
    intros values ops visited Hin Hexp Hcov Hrun; simpl in Hrun.
  - simplify_eq. exists visited. do 4 (split; [done|]).
    by intros input use ?%elem_of_nil.
  - destruct (ExtractOutsideCompiledOpsConnectedToHead fuel m input values ops)
      as [[values1 ops1]|] eqn:Hex; [|done].
    destruct (Explored_Extract _ _ _ _ _ _ _ _ Hcons (Hin input ltac:(left))
                Hexp Hcov Hex)
      as (visited1 & Hexp1 & Hcov1 & Hvis1 & Hval1 & Hinput).
    assert (Hin1 : ∀ i, i ∈ rest → i ∈ values1).
    { intros i Hi. apply Hval1, Hin. by right. }
    destruct (IH values1 ops1 visited1 Hin1 Hexp1 Hcov1 Hrun)
      as (visited' & Hexp' & Hcov' & Hvis' & Hval' & Hinputs).
    exists visited'. split; [done|]. split; [done|]. split; [|split].
    + intros use Huse. by apply Hvis', Hvis1.
    + intros v Hv. by apply Hval', Hval1.
    + intros i use [->|Hi]%elem_of_cons Huse.
      * by apply Hvis', Hinput.
      * by eapply Hinputs.
Qed.

(** X5.  With use-lists that hold exactly the operand slots, the head set
    misses no operation: a tagged operation that has an operand and reads
    only boundary inputs of the cluster and results of head operations is in
    the head set. *)
Theorem head_set_complete fuel m cluster head op :
  useListsConsistent m = true →
  useListsComplete m = true →
  IdentifyOutsideCompiledOpsAtHead fuel m cluster = Some head →
  HasOutsideCompilationAttribute (getOp m op) = true →
  getOperands (getOp m op) ≠ [] →
  (∀ v, v ∈ getOperands (getOp m op) →
        v ∈ getUsedValuesDefinedAbove m cluster
        ∨ ∃ producer i, v = OpResult producer i ∧ producer ∈ head) →
  op ∈ head.
Proof.
  intros Hcons Hcomp Hid Htag Hne Hall.
  unfold IdentifyOutsideCompiledOpsAtHead in Hid.
  set (boundary := getUsedValuesDefinedAbove m cluster) in *.
  destruct (extractFromInputs fuel m boundary boundary [])
    as [[values ops]|] eqn:Hex; [|done]. simplify_eq.
  destruct (Explored_extractFromInputs fuel m boundary boundary [] []
              values head Hcons)
    as (visited & (Hpend & _ & Hres) & Hcov & _ & Hval & Hinputs);
    [done| |by intros ? ? ? ?%elem_of_nil|exact Hex|].
  { split; [|split].
    - intros o _ Ho _. right. exists 0. split; [|apply not_elem_of_nil].
      destruct (getOperands (getOp m o)); [done|simpl; lia].
    - by intros use ?%elem_of_nil.
    - by intros o r ?%elem_of_nil. }
  destruct (Hpend op Htag Hne) as [Hop|(k & Hk & Hnot)]; [|done|].
  { intros v Hv. destruct (Hall v Hv) as [Hb|(p & i & -> & Hp)].
    - by apply Hval.
    - apply list_elem_of_lookup_1 in Hv as (k & Hk).
      apply (useListsComplete_use _ _ _ _ Hcomp) in Hk;
        [|by apply HasOutsideCompilationAttribute_in_arena].
      apply getUses_in_allValues in Hk.
      apply (Hres p); [done|]. apply elem_of_getResults. exists i.
      split; [done|]. unfold allValues in Hk.
      apply elem_of_app in Hk as [Hk|Hk].
      + apply list_elem_of_fmap in Hk as (n & [=] & _).
      + apply list_elem_of_In, in_flat_map in Hk as (p' & _ & Hr).
        apply list_elem_of_In, elem_of_getResults in Hr as (i' & [= <- <-] & Hi).
        done. }
  exfalso. apply Hnot.
  destruct (lookup_lt_is_Some_2 _ _ Hk) as [v Hv].
  pose proof (useListsComplete_use _ _ _ _ Hcomp
                (HasOutsideCompilationAttribute_in_arena _ _ Htag) Hv) as Huse.
  destruct (Hall v (list_elem_of_lookup_2 _ _ _ Hv)) as [Hb|(p & i & -> & Hp)].
  - by eapply Hinputs.
  - eapply (Hcov p); [done| |exact Huse].
    apply getUses_in_allValues in Huse. unfold allValues in Huse.
    apply elem_of_app in Huse as [Hin|Hin].
    + apply list_elem_of_fmap in Hin as (n & [=] & _).
    + apply list_elem_of_In, in_flat_map in Hin as (p' & _ & Hr).
      apply list_elem_of_In in Hr.
      pose proof Hr as Hr'. apply elem_of_getResults in Hr' as (i' & [= <- <-] & _).
      done.
Qed.

Lemma head_set_complete_witness :
  useListsConsistent interleaved = true
  ∧ useListsComplete interleaved = true
  ∧ IdentifyOutsideCompiledOpsAtHead 4 interleaved 0 = Some [3; 1; 2]
  ∧ HasOutsideCompilationAttribute (getOp interleaved 2) = true
  ∧ getOperands (getOp interleaved 2) ≠ []
  ∧ 2 ∈ [3; 1; 2].
Proof.
  assert (H1 : useListsConsistent interleaved = true) by reflexivity.
  assert (H2 : useListsComplete interleaved = true) by reflexivity.
  assert (H3 : IdentifyOutsideCompiledOpsAtHead 4 interleaved 0
               = Some [3; 1; 2]) by reflexivity.
  assert (H4 : HasOutsideCompilationAttribute (getOp interleaved 2) = true)
    by reflexivity.
  assert (H5 : getOperands (getOp interleaved 2) ≠ []) by (vm_compute; discriminate).
  do 5 (split; [assumption|]).
  apply (head_set_complete 4 interleaved 0 [3; 1; 2] 2 H1 H2 H3 H4 H5).
  vm_compute. intros v [->|Hv]%elem_of_cons.
  - right. exists 1, 0. split; [done|]. right; left.
  - by apply elem_of_nil in Hv.
Defined.

(** ** The output list and the launch *)

Lemma NoDup_getResults m op : NoDup (getResults m op).
Proof.
  unfold getResults. change (map ?f ?l) with (f <$> l).
  apply NoDup_fmap_2; [|apply NoDup_seq]. by intros i j [=].
Qed.

Lemma NoDup_GetHeadExtractedClusterOutputs_loop m ops head :
  NoDup ops → NoDup (GetHeadExtractedClusterOutputs_loop m ops head).
Proof.
  induction 1 as [|op rest Hop Hnd IH]; simpl; [constructor|].
  apply NoDup_app. split; [|split; [|done]].
  - destruct (existsb _ _); [apply NoDup_getResults|constructor].
  - intros v Hv Hrest.
    apply GetHeadExtractedClusterOutputs_loop_elem in Hrest
      as (op' & Hop' & Hr' & _).
    destruct (existsb _ (getUsers m op)); [|by apply elem_of_nil in Hv].
    apply elem_of_getResults in Hv as (i & -> & _).
    apply elem_of_getResults in Hr' as (i' & [= <- _] & _). done.
Qed.

(** X6.  The output list of a head set without duplicates holds no value
    twice, and every output is a result of a head operation one of whose
    results is used by an operation outside the head set. *)
Theorem outputs_distinct_head_results m head :
  NoDup head →
  NoDup (GetHeadExtractedClusterOutputs m head)
  ∧ ∀ v, v ∈ GetHeadExtractedClusterOutputs m head →
         ∃ op i,
           v = OpResult op i ∧ op ∈ head
           ∧ i < length (opResults (getOp m op))
           ∧ ∃ r use, r ∈ getResults m op ∧ use ∈ getUses m r
                      ∧ getOwner use ∉ head.
Proof.
  intros Hnd. split.
  - by apply NoDup_GetHeadExtractedClusterOutputs_loop.
  - intros v (op & Hop & Hr & Hex)%GetHeadExtractedClusterOutputs_loop_elem.
    apply elem_of_getResults in Hr as (i & -> & Hi).
    exists op, i. do 3 (split; [done|]). by apply existsb_users.
Qed.

Lemma outputs_distinct_head_results_witness :
  NoDup [3; 1; 2]
  ∧ GetHeadExtractedClusterOutputs interleaved [3; 1; 2]
    = [OpResult 3 0; OpResult 2 0]
  ∧ NoDup (GetHeadExtractedClusterOutputs interleaved [3; 1; 2]).
Proof.
  assert (H : NoDup [3; 1; 2])
    by (apply (bool_decide_unpack _); vm_compute; exact I).
  split; [exact H|]. split; [reflexivity|].
  exact (proj1 (outputs_distinct_head_results interleaved [3; 1; 2] H)).
Defined.

Lemma getOperands_OpOperand_set_any m use v o :
  getOperands (getOp (OpOperand_set m use v) o)
  = if decide (o = getOwner use)
    then <[getOperandNumber use := v]> (getOperands (getOp m o))
    else getOperands (getOp m o).
Proof.
  destruct (decide (o = getOwner use)) as [->|Hne];
    [|by apply getOperands_OpOperand_set].
  unfold OpOperand_set, insertIntoCurrent.
  assert (Hrem : ∀ x, getOp (removeFromCurrent m use) x = getOp m x
                      ∨ getOperands (getOp (removeFromCurrent m use) x)
                        = getOperands (getOp m x)).
  { intros x. right. unfold removeFromCurrent.
    destruct (getOperandValue m use); [|done].
    apply getOperands_updateUseList. }
  set (m1 := removeFromCurrent m use) in *.
  assert (H2 : getOperands
                 (getOp (updateOp m1 (getOwner use) (setOperandValue use v))
                    (getOwner use))
               = <[getOperandNumber use := v]> (getOperands (getOp m (getOwner use)))).
  { rewrite getOp_updateOp, decide_True by done.
    destruct (Hrem (getOwner use)) as [Heq|Heq]; rewrite <- Heq;
      unfold getOp; by destruct (opTable m1 !! getOwner use). }
  destruct (getOperandValue _ use); [|done].
  by rewrite getOperands_updateUseList.
Qed.

Lemma length_getOperands_replaceUses m head v uses m' o :
  replaceUses m head v uses = Some m' →
  length (getOperands (getOp m' o)) = length (getOperands (getOp m o)).
Proof.
  induction uses as [|use rest IH]; simpl; [by intros [= ->]|].
  destruct (SetVector.count (getOwner use) head =? 0); [|exact IH].
  destruct (tail _); [|done]. intros [= <-].
  rewrite getOperands_OpOperand_set_any. destruct (decide _); [|done].
  apply length_insert.
Qed.

Lemma length_getOperands_replaceOutputs m head launch j outputs m' o :
  replaceOutputs m head launch j outputs = Some m' →
  length (getOperands (getOp m' o)) = length (getOperands (getOp m o)).
Proof.
  revert m j. induction outputs as [|output rest IH]; intros m j; simpl;
    [by intros [= ->]|].
  destruct (replaceUses m head (OpResult launch j) (getUses m output))
    as [m1|] eqn:H1; [|done].
  intros Hrest. apply IH in Hrest.
  apply (length_getOperands_replaceUses _ _ _ _ _ o) in H1. congruence.
Qed.

Lemma getOperands_createOperation_new m name attributes operands resultTypes :
  getOperands
    (getOp (createOperation m name attributes operands resultTypes).1
       (length (opTable m)))
  = operands.
Proof.
  unfold createOperation; simpl. rewrite getOperands_linkOperands.
  unfold getOp; simpl. by rewrite lookup_app_r, Nat.sub_diag by lia.
Qed.

Lemma length_opTable_blocks m m' :
  blocks m' = blocks m → length (opTable m') = length (opTable m).
Proof.
  intros H. apply (f_equal length) in H. rewrite !length_blocks in H. lia.
Qed.

(** X7.  Whenever the head set is not empty the transformation returns a
    launch, the next free slot of the arena.  The launch is a
    [tf_device.launch] with the empty device string, no operand and one
    result per output value, of the type of that value; its terminator, the
    slot after it, is a [tf_device.return] of exactly the output values, in
    the order of the output list. *)
Theorem launch_returns_outputs m cluster head :
  head ≠ [] →
  ∃ m',
    IsolateHeadExtractedOpsToLaunchOp m cluster head
    = Some (m', Some (length (opTable m)))
    ∧ signature (getOp m' (length (opTable m)))
      = ("tf_device.launch", [("device", StringAttr EmptyString)],
         map (Value_getType m) (GetHeadExtractedClusterOutputs m head))
    ∧ getOperands (getOp m' (length (opTable m))) = []
    ∧ signature (getOp m' (S (length (opTable m))))
      = ("tf_device.return", [], [])
    ∧ getOperands (getOp m' (S (length (opTable m))))
      = GetHeadExtractedClusterOutputs m head
    ∧ length (opTable m') = S (S (length (opTable m))).
Proof.
  intros Hne.
  destruct (Isolate_total m cluster head) as [[m' result] Hrun].
  destruct (Isolate_blocks _ _ _ _ _ Hne Hrun) as [-> Hblocks].
  exists m'. split; [done|].
  pose proof (Isolate_signatures _ _ _ _ _ Hne Hrun) as Hsig.
  assert (Hlen : length (signatures m) = length (opTable m))
    by (unfold signatures; apply length_map).
  split; [|split; [|split; [|split]]].
  - rewrite signature_getOp, Hsig, lookup_app_r by lia.
    by rewrite Hlen, Nat.sub_diag.
  - clear Hblocks Hsig. revert Hrun.
    unfold IsolateHeadExtractedOpsToLaunchOp.
    destruct (SetVector.empty head) eqn:Hempty;
      [by apply empty_true in Hempty|].
    set (outputs := GetHeadExtractedClusterOutputs m head).
    set (types := map (Value_getType m) outputs).
    pose proof (getOperands_createOperation_new m "tf_device.launch"
                  [("device", StringAttr EmptyString)] [] types) as H1.
    pose proof (blocks_createOperation m "tf_device.launch"
                  [("device", StringAttr EmptyString)] [] types) as Hb1.
    destruct (createOperation m "tf_device.launch" _ [] types)
      as [m1 launch] eqn:Hcreate.
    assert (launch = length (opTable m)) as -> by (by inversion Hcreate).
    cbn [fst] in H1, Hb1.
    destruct (replaceOutputs _ head _ 0 outputs) as [m3|] eqn:Hrep; [|done].
    pose proof (length_getOperands_replaceOutputs _ _ _ _ _ _
                  (length (opTable m)) Hrep) as H3.
    rewrite getOperands_mapBlocks, H1 in H3.
    apply blocks_replaceOutputs, (f_equal length) in Hrep.
    rewrite blocks_mapBlocks, length_map, Hb1, length_app, !length_blocks
      in Hrep. simpl in Hrep.
    pose proof (getOperands_createOperation m3 "tf_device.return" [] outputs []
                  (length (opTable m)) ltac:(lia)) as H4.
    destruct (createOperation m3 "tf_device.return" [] outputs [])
      as [m4 terminator]. cbn [fst] in H4.
    intros Heq. apply Some_inj, pair_equal_spec in Heq as [<- _].
    rewrite getOperands_moveOpsBefore, getOperands_updateOp by (by right).
    rewrite H4. by apply nil_length_inv.
  - rewrite signature_getOp, Hsig, lookup_app_r by lia.
    rewrite Hlen. by replace (S (length (opTable m)) - length (opTable m))
      with 1 by lia.
  - clear Hblocks Hsig. revert Hrun.
    unfold IsolateHeadExtractedOpsToLaunchOp.
    destruct (SetVector.empty head) eqn:Hempty;
      [by apply empty_true in Hempty|].
    set (outputs := GetHeadExtractedClusterOutputs m head).
    set (types := map (Value_getType m) outputs).
    pose proof (blocks_createOperation m "tf_device.launch"
                  [("device", StringAttr EmptyString)] [] types) as Hb1.
    destruct (createOperation m "tf_device.launch" _ [] types)
      as [m1 launch] eqn:Hcreate.
    assert (launch = length (opTable m)) as -> by (by inversion Hcreate).
    cbn [fst] in Hb1.
    destruct (replaceOutputs _ head _ 0 outputs) as [m3|] eqn:Hrep; [|done].
    apply blocks_replaceOutputs, (f_equal length) in Hrep.
    rewrite blocks_mapBlocks, length_map, Hb1, length_app, !length_blocks
      in Hrep. simpl in Hrep.
    pose proof (getOperands_createOperation_new m3 "tf_device.return" []
                  outputs []) as H4.
    destruct (createOperation m3 "tf_device.return" [] outputs [])
      as [m4 terminator]. cbn [fst] in H4.
    intros Heq. apply Some_inj, pair_equal_spec in Heq as [<- _].
    rewrite getOperands_moveOpsBefore, getOperands_updateOp by (by right).
    replace (S (length (opTable m))) with (length (opTable m3)) by lia.
    exact H4.
  - apply (f_equal length) in Hsig. unfold signatures in Hsig at 1.
    rewrite length_map, length_app, Hlen in Hsig. simpl in Hsig. lia.
Qed.

Lemma launch_returns_outputs_witness :
  [3; 1; 2] ≠ []
  ∧ ∃ m',
      IsolateHeadExtractedOpsToLaunchOp interleaved 0 [3; 1; 2]
      = Some (m', Some (length (opTable interleaved)))
      ∧ signature (getOp m' (length (opTable interleaved)))
        = ("tf_device.launch", [("device", StringAttr EmptyString)],
           map (Value_getType interleaved)
             (GetHeadExtractedClusterOutputs interleaved [3; 1; 2]))
      ∧ getOperands (getOp m' (length (opTable interleaved))) = []
      ∧ signature (getOp m' (S (length (opTable interleaved))))
        = ("tf_device.return", [], [])
      ∧ getOperands (getOp m' (S (length (opTable interleaved))))
        = GetHeadExtractedClusterOutputs interleaved [3; 1; 2]
      ∧ length (opTable m') = S (S (length (opTable interleaved))).
Proof.
  assert (H : [3; 1; 2] ≠ []) by discriminate.
  split; [exact H|].
  exact (launch_returns_outputs interleaved 0 [3; 1; 2] H).
Defined.

(** ** What the pass keeps *)

Lemma Isolate_signatures_grow m cluster head m' result :
  IsolateHeadExtractedOpsToLaunchOp m cluster head = Some (m', result) →
  ∃ added,
    signatures m' = signatures m ++ added
    ∧ ∀ sig, sig ∈ added →
             sig.1.1 = "tf_device.launch" ∨ sig.1.1 = "tf_device.return".
Proof.
  intros Hrun. destruct (decide (head = [])) as [->|Hne].
  - injection Hrun as <- _. exists []. rewrite app_nil_r. split; [done|].
    by intros sig ?%elem_of_nil.
  - eexists. split; [by eapply Isolate_signatures|].
    intros sig [->|[->|?%elem_of_nil]%elem_of_cons]%elem_of_cons; auto.
    done.
Qed.

Lemma walkClusters_signatures fuel m moved clusters m' :
  walkClusters fuel m moved clusters = Some m' →
  ∃ added,
    signatures m' = signatures m ++ added
    ∧ ∀ sig, sig ∈ added →
             sig.1.1 = "tf_device.launch" ∨ sig.1.1 = "tf_device.return".
Proof.
  revert m moved. induction clusters as [|cluster rest IH]; intros m moved;
    cbn [walkClusters].
  - intros [= ->]. exists []. rewrite app_nil_r. split; [done|].
    by intros sig ?%elem_of_nil.
  - destruct (isNestedIn m moved cluster); [by apply IH|].
    destruct (IdentifyOutsideCompiledOpsAtHead fuel m cluster) as [head|];
      [|done].
    destruct (existsb _ (fetchedNextNodes m cluster ++ _)); [done|].
    destruct (IsolateHeadExtractedOpsToLaunchOp m cluster head)
      as [[m1 result]|] eqn:Hrun; [|done].
    intros (added2 & -> & Hnames2)%IH.
    destruct (Isolate_signatures_grow _ _ _ _ _ Hrun) as (added1 & -> & Hnames1).
    exists (added1 ++ added2). rewrite app_assoc. split; [done|].
    intros sig [?|?]%elem_of_app; auto.
Qed.

(** X8.  The pass deletes, renames and retypes no operation, and changes no
    attribute: every operation of the module is found at the same place of
    the arena with the same name, attributes and result types, so a moved
    operation still carries its tag.  The operations the pass adds are
    [tf_device.launch] and [tf_device.return] operations. *)
Theorem pass_keeps_operations (RuntimeDevices : Type)
    (GetDevicesFromOp : ModuleOp → option RuntimeDevices) fuel m result m' :
  runOnOperation RuntimeDevices GetDevicesFromOp fuel m = Some (result, m') →
  length (opTable m) ≤ length (opTable m')
  ∧ (∀ op, op < length (opTable m) →
           signature (getOp m' op) = signature (getOp m op)
           ∧ HasOutsideCompilationAttribute (getOp m' op)
             = HasOutsideCompilationAttribute (getOp m op))
  ∧ (∀ op, length (opTable m) ≤ op < length (opTable m') →
           getName (getOp m' op) = "tf_device.launch"
           ∨ getName (getOp m' op) = "tf_device.return").
Proof.
  unfold runOnOperation. intros Hrun.
  assert (Hgrow : ∃ added,
             signatures m' = signatures m ++ added
             ∧ ∀ sig, sig ∈ added →
                      sig.1.1 = "tf_device.launch"
                      ∨ sig.1.1 = "tf_device.return").
  { destruct (GetDevicesFromOp m).
    - destruct (walkClusters fuel m [] _) as [m1|] eqn:Hwalk; [|done].
      injection Hrun as _ <-. by eapply walkClusters_signatures.
    - injection Hrun as _ <-. exists []. rewrite app_nil_r. split; [done|].
      by intros sig ?%elem_of_nil. }
  destruct Hgrow as (added & Hsig & Hnames).
  assert (Hlen : ∀ x, length (signatures x) = length (opTable x))
    by (intros x; unfold signatures; apply length_map).
  pose proof (f_equal length Hsig) as Hl.
  rewrite length_app, !Hlen in Hl.
  split; [lia|]. split.
  - intros op Hop.
    assert (Hs : signature (getOp m' op) = signature (getOp m op)).
    { rewrite !signature_getOp, Hsig, lookup_app_l by (rewrite Hlen; lia).
      done. }
    split; [done|]. injection Hs as _ Hattrs _.
    unfold HasOutsideCompilationAttribute, getAttrOfType_StringAttr, getAttr.
    by rewrite Hattrs.
  - intros op [Hlo Hhi].
    pose proof (signature_getOp m' op) as Hs.
    rewrite Hsig, lookup_app_r in Hs by (rewrite Hlen; lia).
    destruct (lookup_lt_is_Some_2 added (op - length (signatures m))) as [sig Hk].
    { rewrite Hlen. lia. }
    rewrite Hk in Hs. simpl in Hs.
    specialize (Hnames sig (list_elem_of_lookup_2 _ _ _ Hk)).
    by rewrite <- Hs in Hnames.
Qed.

Lemma pass_keeps_operations_witness :
  ∃ m',
    runOnOperation unit devicesAvailable 3 chained = Some (success, m')
    ∧ length (opTable chained) ≤ length (opTable m')
    ∧ (∀ op, op < length (opTable chained) →
             signature (getOp m' op) = signature (getOp chained op)
             ∧ HasOutsideCompilationAttribute (getOp m' op)
               = HasOutsideCompilationAttribute (getOp chained op))
    ∧ (∀ op, length (opTable chained) ≤ op < length (opTable m') →
             getName (getOp m' op) = "tf_device.launch"
             ∨ getName (getOp m' op) = "tf_device.return").
Proof.
  eexists. split; [vm_compute; reflexivity|].
  eapply (pass_keeps_operations unit devicesAvailable 3 chained success).
  vm_compute. reflexivity.
Defined.

(** ** Where the remaining operations are *)

(** X9.  The blocks that existed keep what is not moved, in the order it
    had: the body of an operation that does not hold the cluster is its
    former body without the head operations, and in the function block the
    launch stands directly in front of the cluster, the operations around
    them being the former ones without the head operations. *)
Theorem remaining_operations_keep_order fuel m cluster head m' result :
  IdentifyOutsideCompiledOpsAtHead fuel m cluster = Some head →
  head ≠ [] →
  blocksInArena m = true →
  IsolateHeadExtractedOpsToLaunchOp m cluster head = Some (m', result) →
  (∀ op, op < length (opTable m) →
         cluster ∉ getBody (getOp m op) →
         getBody (getOp m' op)
         = filter (fun x => x ∉ head) (getBody (getOp m op)))
  ∧ (∀ pre post,
       getBlock m = pre ++ cluster :: post → cluster ∉ pre →
       getBlock m'
       = filter (fun x => x ∉ head) pre
         ++ (length (opTable m)
             :: filter (fun x => x ∉ head) (cluster :: post))).
Proof.
  intros Hid Hne Harena Hrun.
  destruct (Identify_head_ops _ _ _ _ Hid) as [_ Hlt].
  assert (Hterm : ∀ k block,
             blocks m !! k = Some block →
             S (length (opTable m))
             ∉ insertBefore cluster (length (opTable m)) block).
  { intros k block Hk. rewrite elem_of_insertBefore. intros [Hin|[? _]]; [|lia].
    pose proof (blocksInArena_lt _ _ _ _ Harena Hk Hin). lia. }
  split.
  - intros op Hop Hc.
    pose proof (blocks_lookup_body _ _ Hop) as Hk.
    rewrite getBody_blocks, (Isolate_block_lookup _ _ _ _ _ _ _ Hne Hrun Hk).
    simpl. rewrite moveBlock_filter by (by eapply Hterm).
    by rewrite insertBefore_not_in.
  - intros pre post Hblock Hpre.
    assert (Hk : blocks m !! 0 = Some (getBlock m)) by done.
    pose proof (Isolate_block_lookup _ _ _ _ _ _ _ Hne Hrun Hk) as Hk'.
    simpl in Hk'. injection Hk' as ->.
    rewrite moveBlock_filter by (by eapply Hterm).
    rewrite Hblock, insertBefore_split, filter_app by done.
    rewrite filter_cons_True; [done|]. intros Hin%Hlt. lia.
Qed.

Lemma remaining_operations_keep_order_witness :
  IdentifyOutsideCompiledOpsAtHead 4 interleaved 0 = Some [3; 1; 2]
  ∧ blocksInArena interleaved = true
  ∧ ∃ m',
      IsolateHeadExtractedOpsToLaunchOp interleaved 0 [3; 1; 2]
      = Some (m', Some 5)
      ∧ getBody (getOp m' 0) = [4]
      ∧ getBlock m' = [5; 0]
      ∧ (∀ op, op < length (opTable interleaved) →
               0 ∉ getBody (getOp interleaved op) →
               getBody (getOp m' op)
               = filter (fun x => x ∉ [3; 1; 2]) (getBody (getOp interleaved op)))
      ∧ (∀ pre post,
           getBlock interleaved = pre ++ 0 :: post → 0 ∉ pre →
           getBlock m'
           = filter (fun x => x ∉ [3; 1; 2]) pre
             ++ (length (opTable interleaved)
                 :: filter (fun x => x ∉ [3; 1; 2]) (0 :: post))).
Proof.
  assert (H1 : IdentifyOutsideCompiledOpsAtHead 4 interleaved 0
               = Some [3; 1; 2]) by reflexivity.
  assert (H2 : [3; 1; 2] ≠ []) by discriminate.
  assert (H3 : blocksInArena interleaved = true) by reflexivity.
  split; [exact H1|]. split; [exact H3|].
  eexists. split; [vm_compute; reflexivity|].
  split; [reflexivity|]. split; [reflexivity|].
  eapply (remaining_operations_keep_order 4 interleaved 0 [3; 1; 2] _ _
            H1 H2 H3).
  vm_compute. reflexivity.
Defined.

Lemma host_body_def_before_use_witness :
  getUsedValuesDefinedAbove nestedChain 2 = [OpResult 1 0]
  ∧ IdentifyOutsideCompiledOpsAtHead 3 nestedChain 2 = Some [3; 4]
  ∧ 4 ∈ [3; 4]
  ∧ (OpResult 3 0 ∉ getUsedValuesDefinedAbove nestedChain 2)
  ∧ ∃ m',
      IsolateHeadExtractedOpsToLaunchOp nestedChain 2 [3; 4]
      = Some (m', Some 6)
      ∧ getBody (getOp m' 6) = [3; 4; 7]
      ∧ OpResult 3 0 ∈ getOperands (getOp m' 4)
      ∧ ∃ producer i,
          OpResult 3 0 = OpResult producer i
          ∧ comesBefore producer 4
              (getBody (getOp m' (length (opTable nestedChain)))) = true.
Proof.
  assert (H1 : IdentifyOutsideCompiledOpsAtHead 3 nestedChain 2 = Some [3; 4])
    by reflexivity.
  assert (H2 : 4 ∈ [3; 4]) by (right; left).
  assert (H3 : OpResult 3 0 ∉ getUsedValuesDefinedAbove nestedChain 2).
  { intros [Habove _]%elem_of_getUsedValuesDefinedAbove.
    vm_compute in Habove. discriminate. }
  split; [reflexivity|]. split; [exact H1|]. split; [exact H2|].
  split; [exact H3|].
  destruct (IsolateHeadExtractedOpsToLaunchOp nestedChain 2 [3; 4])
    as [[m' result]|] eqn:Hrun; [|vm_compute in Hrun; discriminate].
  assert (Hresult : result = Some 6)
    by (vm_compute in Hrun; by injection Hrun as _ <-).
  subst result. exists m'. split; [reflexivity|].
  assert (H4 : OpResult 3 0 ∈ getOperands (getOp m' 4)).
  { vm_compute in Hrun. injection Hrun as <-. vm_compute. left. }
  split; [vm_compute in Hrun; injection Hrun as <-; reflexivity|].
  split; [exact H4|].
  exact (host_body_def_before_use 3 nestedChain 2 [3; 4] m' (Some 6) 4
           (OpResult 3 0) H1 Hrun H2 H4 H3).
Defined.

(** ** What the use replacement writes *)

Lemma getOperandValue_set_other m use v use' :
  use' ≠ use →
  getOperandValue (OpOperand_set m use v) use' = getOperandValue m use'.
Proof.
  intros Hne. unfold getOperandValue. rewrite getOperands_OpOperand_set_any.
  destruct (decide (getOwner use' = getOwner use)) as [Heq|]; [|done].
  apply list_lookup_insert_ne. intros Hk. apply Hne.
  destruct use, use'; simpl in *; congruence.
Qed.

Lemma getOperandValue_set_same m use v x :
  getOperandValue (OpOperand_set m use v) use = Some x →
  x = v ∧ is_Some (getOperandValue m use).
Proof.
  unfold getOperandValue. rewrite getOperands_OpOperand_set_any.
  rewrite decide_True by done. intros Hx.
  pose proof (lookup_lt_Some _ _ _ Hx) as Hlt. rewrite length_insert in Hlt.
  rewrite list_lookup_insert_eq in Hx by done.
  split; [congruence|]. by apply lookup_lt_is_Some_2.
Qed.

Lemma elem_of_unlink_use (x y : OpOperand) l : y ∈ unlink x l → y ∈ l ∧ y ≠ x.
Proof.
  induction l as [|z l IH]; simpl; [by intros ?%elem_of_nil|].
  destruct (decide (z = x)) as [->|Hne].
  - intros [? ?]%IH. split; [by right|done].
  - intros [->|[? ?]%IH]%elem_of_cons; [split; [left|done]|].
    split; [by right|done].
Qed.

(** After [use.set(newValue)] the list of any other value holds uses it held
    before, and no longer [use] if [use] read that value. *)
Lemma getUses_set_old m use newValue w use' :
  w ≠ newValue →
  use' ∈ getUses (OpOperand_set m use newValue) w →
  use' ∈ getUses m w ∧ (getOperandValue m use = Some w → use' ≠ use).
Proof.
  intros Hne. unfold OpOperand_set.
  set (m1 := removeFromCurrent m use).
  set (m2 := updateOp m1 (getOwner use) (setOperandValue use newValue)).
  assert (H3 : getUses (insertIntoCurrent m2 use) w = getUses m1 w).
  { unfold insertIntoCurrent.
    destruct (getOperandValue m2 use) as [x|] eqn:Hx.
    - assert (x = newValue) as ->.
      { unfold m2 in Hx. rewrite getOperandValue_setOperandValue in Hx.
        destruct (getOperandValue m1 use); congruence. }
      rewrite getUses_updateUseList_ne by done.
      apply getUses_setOperandValue.
    - apply getUses_setOperandValue. }
  rewrite H3. unfold m1, removeFromCurrent.
  destruct (getOperandValue m use) as [old|] eqn:Hold.
  - destruct (decide (old = w)) as [->|Hother].
    + rewrite getUses_updateUseList_eq.
      destruct (getValueImpl m w); [|by intros ?%elem_of_nil].
      intros [Hin Hneq]%elem_of_unlink_use. split; [done|]. by intros _.
    + rewrite getUses_updateUseList_ne by done. intros Hin.
      split; [done|]. congruence.
  - intros Hin. split; [done|]. congruence.
Qed.

Lemma Redirected_mono base head launch done output m :
  Redirected base head launch done m →
  Redirected base head launch (done ++ [output]) m.
Proof.
  intros Hred op k v' Hv.
  destruct (Hred op k v' Hv) as [?|(j & w & ? & Hj & ?)]; [by left|].
  right. exists j, w. split; [done|]. split; [|done].
  by apply lookup_app_l_Some.
Qed.

Lemma redirect_set base head launch done output m use :
  (∀ i, output ≠ OpResult launch i) →
  UsesReadValue launch m →
  Redirected base head launch done m →
  use ∈ getUses m output →
  getOwner use ∉ head →
  UsesReadValue launch (OpOperand_set m use (OpResult launch (length done)))
  ∧ Redirected base head launch (done ++ [output])
      (OpOperand_set m use (OpResult launch (length done))).
Proof.
  intros Hout Hread Hred Huse Hown.
  pose proof (Hread output use Hout Huse) as Hval.
  split.
  - intros w use' Hw Hin.
    apply getUses_set_old in Hin as [Hin Hneq]; [|apply Hw].
    assert (use' ≠ use).
    { intros ->. pose proof (Hread w use Hw Hin). apply Hneq; [|done].
      congruence. }
    rewrite getOperandValue_set_other by done. by apply Hread.
  - intros op k v' Hv.
    destruct (decide (mkOpOperand op k = use)) as [<-|Hne].
    + apply (getOperandValue_set_same m (mkOpOperand op k)) in Hv as [-> _].
      right. exists (length done), output. split; [done|].
      split; [by apply list_lookup_middle|]. split; [|done].
      destruct (Hred op k output Hval) as [?|(j & w & Hj & _)]; [done|].
      by destruct (Hout j).
    + pose proof (getOperandValue_set_other m use
                    (OpResult launch (length done)) (mkOpOperand op k) Hne)
        as Hsame. unfold getOperandValue in Hsame. simpl in Hsame.
      rewrite Hsame in Hv.
      by apply (Redirected_mono base head launch done output m Hred).
Qed.

Lemma redirect_replaceUses base head launch done output m uses m' :
  (∀ i, output ≠ OpResult launch i) →
  UsesReadValue launch m →
  Redirected base head launch done m →
  (∀ use, use ∈ uses → use ∈ getUses m output) →
  replaceUses m head (OpResult launch (length done)) uses = Some m' →
  UsesReadValue launch m'
  ∧ Redirected base head launch (done ++ [output]) m'.
Proof.
  intros Hout Hread Hred. induction uses as [|use rest IH]; intros Huses; simpl.
  - intros [= <-]. split; [done|]. by apply Redirected_mono.
  - destruct (SetVector.count (getOwner use) head =? 0) eqn:Hc.
    + apply count_eqb_0 in Hc. destruct (tail _); [|done]. intros [= <-].
      apply redirect_set; try done. apply Huses. left.
    + apply IH. intros u Hu. apply Huses. by right.
Qed.

Lemma redirect_replaceOutputs base head launch done outputs m m' :
  (∀ output i, output ∈ outputs → output ≠ OpResult launch i) →
  UsesReadValue launch m →
  Redirected base head launch done m →
  replaceOutputs m head launch (length done) outputs = Some m' →
  Redirected base head launch (done ++ outputs) m'.
Proof.
  revert done m. induction outputs as [|output rest IH];
    intros done m Hout Hread Hred; simpl.
  - intros [= <-]. by rewrite app_nil_r.
  - destruct (replaceUses m head (OpResult launch (length done))
                (getUses m output)) as [m1|] eqn:H1; [|done].
    assert (Hout1 : ∀ i, output ≠ OpResult launch i)
      by (intros i; apply Hout; left).
    destruct (redirect_replaceUses base head launch done output m
                (getUses m output) m1 Hout1 Hread Hred ltac:(done) H1)
      as [Hread1 Hred1].
    intros Hrest.
    replace (done ++ output :: rest) with ((done ++ [output]) ++ rest)
      by (by rewrite <- app_assoc).
    apply (IH (done ++ [output]) m1); try done.
    + intros o i Ho. apply Hout. by right.
    + by rewrite length_app, Nat.add_1_r.
Qed.

(** The module in which the replacement starts: its use-lists are those of
    the module the transformation was given. *)
Lemma getUses_new_launch_old f m name attributes resultTypes v use :
  use ∈ getUses
          (mapBlocks f (createOperation m name attributes [] resultTypes).1) v →
  use ∈ getUses m v.
Proof.
  rewrite getUses_mapBlocks. unfold getUses, getValueImpl.
  destruct v as [n|p i]; [done|].
  destruct (decide (p = length (opTable m))) as [->|Hne].
  - rewrite getOp_createOperation_new. simpl. rewrite list_lookup_fmap.
    destruct (resultTypes !! i); simpl; by intros ?%elem_of_nil.
  - unfold getOp, createOperation; simpl.
    destruct (decide (p < length (opTable m))).
    + by rewrite lookup_app_l.
    + rewrite (lookup_ge_None_2 (opTable m ++ _)).
      * simpl. by intros ?%elem_of_nil.
      * rewrite length_app. simpl. lia.
Qed.

Lemma getOperands_new_launch_old f m name attributes resultTypes op :
  op < length (opTable m) →
  getOperands
    (getOp (mapBlocks f (createOperation m name attributes [] resultTypes).1) op)
  = getOperands (getOp m op).
Proof.
  intros Hop. by rewrite getOperands_mapBlocks, getOperands_createOperation.
Qed.

(** X10.  With use-lists that agree with the operands, the transformation
    changes an operand slot of an operation of the module in one way only:
    a slot that read the [j]-th output value, owned by an operation outside
    the head set, may read result [j] of the new launch instead.  Every other
    slot, and every slot of a head operation, reads what it read; no operand
    is added or removed. *)
Theorem redirected_slots_read_same_index m cluster head m' result op :
  useListsConsistent m = true →
  IsolateHeadExtractedOpsToLaunchOp m cluster head = Some (m', result) →
  op < length (opTable m) →
  length (getOperands (getOp m' op)) = length (getOperands (getOp m op))
  ∧ (op ∈ head → getOperands (getOp m' op) = getOperands (getOp m op))
  ∧ ∀ k v',
      getOperands (getOp m' op) !! k = Some v' →
      getOperands (getOp m op) !! k = Some v'
      ∨ ∃ j w,
          v' = OpResult (length (opTable m)) j
          ∧ GetHeadExtractedClusterOutputs m head !! j = Some w
          ∧ getOperands (getOp m op) !! k = Some w
          ∧ op ∉ head.
Proof.
  intros Hcons Hrun Hop.
  destruct (decide (head = [])) as [->|Hne].
  { injection Hrun as <- _. split; [done|]. split; [done|]. by left. }
  assert (Hhead : op ∈ head →
                  getOperands (getOp m' op) = getOperands (getOp m op)).
  { intros Hin. by eapply Isolate_head_operands. }
  revert Hrun. unfold IsolateHeadExtractedOpsToLaunchOp.
  destruct (SetVector.empty head) eqn:Hempty; [by apply empty_true in Hempty|].
  set (outputs := GetHeadExtractedClusterOutputs m head).
  set (types := map (Value_getType m) outputs).
  set (n := length (opTable m)) in *.
  pose proof (getUses_new_launch_old (insertBefore cluster n) m
                "tf_device.launch" [("device", StringAttr EmptyString)] types)
    as Huses0.
  pose proof (getOperands_new_launch_old (insertBefore cluster n) m
                "tf_device.launch" [("device", StringAttr EmptyString)] types)
    as Hops0.
  pose proof (blocks_createOperation m "tf_device.launch"
                [("device", StringAttr EmptyString)] [] types) as Hb1.
  destruct (createOperation m "tf_device.launch" _ [] types)
    as [m1 launch] eqn:Hcreate.
  assert (launch = n) as -> by (by inversion Hcreate).
  cbn [fst] in Huses0, Hops0, Hb1.
  set (m0 := mapBlocks (insertBefore cluster n) m1) in *.
  destruct (replaceOutputs m0 head n 0 outputs) as [m3|] eqn:Hrep; [|done].
  assert (Hread0 : UsesReadValue n m0).
  { intros w use _ Huse. apply Huses0 in Huse.
    pose proof (useListsConsistent_getUses _ _ _ Hcons Huse) as Hval.
    unfold getOperandValue in *. rewrite Hops0; [done|].
    unfold getOp in Hval.
    destruct (opTable m !! getOwner use) eqn:Hlk; [|done].
    eapply lookup_lt_Some, Hlk. }
  assert (Hred0 : Redirected m0 head n [] m0) by (intros ? ? ? ?; by left).
  assert (Hout : ∀ output i, output ∈ outputs → output ≠ OpResult n i).
  { intros output i (o & _ & Hr & _)%GetHeadExtractedClusterOutputs_loop_elem.
    pose proof (getResults_in_arena _ _ _ Hr) as Hlt.
    apply elem_of_getResults in Hr as (i' & -> & _). intros [= ->]. unfold n in Hlt. lia. }
  pose proof (redirect_replaceOutputs m0 head n [] outputs m0 m3 Hout Hread0
                Hred0 Hrep) as Hred. simpl in Hred.
  pose proof (length_getOperands_replaceOutputs _ _ _ _ _ _ op Hrep) as Hlen3.
  apply blocks_replaceOutputs, (f_equal length) in Hrep.
  unfold m0 in Hrep.
  rewrite blocks_mapBlocks, length_map, Hb1, length_app, !length_blocks in Hrep.
  simpl in Hrep.
  pose proof (getOperands_createOperation m3 "tf_device.return" [] outputs []
                op ltac:(fold n in Hop; lia)) as H4.
  destruct (createOperation m3 "tf_device.return" [] outputs [])
    as [m4 terminator]. cbn [fst] in H4.
  intros Heq. apply Some_inj, pair_equal_spec in Heq as [<- _].
  rewrite getOperands_moveOpsBefore, getOperands_updateOp by (by right).
  rewrite getOperands_moveOpsBefore, getOperands_updateOp in Hhead
    by (by right).
  rewrite H4 in *. rewrite <- (Hops0 op Hop).
  split; [done|]. split; [by rewrite Hops0|].
  intros k v' Hv. apply Hred in Hv. done.
Qed.

Lemma redirected_slots_read_same_index_witness :
  useListsConsistent twoConsumers = true
  ∧ ∃ m',
      IsolateHeadExtractedOpsToLaunchOp twoConsumers 0 [1] = Some (m', Some 4)
      ∧ 3 < length (opTable twoConsumers)
      ∧ getOperands (getOp twoConsumers 3) = [OpResult 1 0]
      ∧ getOperands (getOp m' 3) = [OpResult 4 0]
      ∧ GetHeadExtractedClusterOutputs twoConsumers [1] !! 0
        = Some (OpResult 1 0)
      ∧ length (getOperands (getOp m' 3))
        = length (getOperands (getOp twoConsumers 3))
      ∧ (3 ∈ [1] →
         getOperands (getOp m' 3) = getOperands (getOp twoConsumers 3))
      ∧ ∀ k v',
          getOperands (getOp m' 3) !! k = Some v' →
          getOperands (getOp twoConsumers 3) !! k = Some v'
          ∨ ∃ j w,
              v' = OpResult (length (opTable twoConsumers)) j
              ∧ GetHeadExtractedClusterOutputs twoConsumers [1] !! j = Some w
              ∧ getOperands (getOp twoConsumers 3) !! k = Some w
              ∧ 3 ∉ [1].
Proof.
  assert (H1 : useListsConsistent twoConsumers = true) by reflexivity.
  assert (H3 : 3 < length (opTable twoConsumers)) by (vm_compute; lia).
  split; [exact H1|].
  eexists. split; [vm_compute; reflexivity|].
  split; [exact H3|]. do 3 (split; [reflexivity|]).
  apply (redirected_slots_read_same_index twoConsumers 0 [1] _ (Some 4) 3 H1);
    [|exact H3].
  vm_compute. reflexivity.
Defined.

(** X11.  No operation leaves the module: an operation of a block is, after
    the transformation, in the body of the new launch if it is a head
    operation and in the block it was in otherwise, and every head operation
    is in the body of the launch. *)
Theorem no_operation_is_lost fuel m cluster head m' result :
  IdentifyOutsideCompiledOpsAtHead fuel m cluster = Some head →
  head ≠ [] →
  blocksInArena m = true →
  IsolateHeadExtractedOpsToLaunchOp m cluster head = Some (m', result) →
  (∀ x, x ∈ head → x ∈ getBody (getOp m' (length (opTable m))))
  ∧ ∀ k block x,
      blocks m !! k = Some block → x ∈ block → x ∉ head →
      ∃ block', blocks m' !! k = Some block' ∧ x ∈ block'.
Proof.
  intros Hid Hne Harena Hrun.
  destruct (Identify_head_ops _ _ _ _ Hid) as [Hnd Hlt].
  destruct (Isolate_launch_body _ _ _ _ _ Hne Hnd Hlt Hrun) as [_ Hbody].
  split.
  - intros x Hx. rewrite Hbody. apply elem_of_app. by left.
  - intros k block x Hk Hx Hout.
    destruct (Isolate_block_elem m cluster head m' result k block x
                Hne Harena Hrun Hk) as (block' & Hk' & Helem).
    exists block'. split; [done|]. apply Helem. auto.
Qed.

Lemma no_operation_is_lost_witness :
  IdentifyOutsideCompiledOpsAtHead 3 chained 0 = Some [1; 2]
  ∧ blocksInArena chained = true
  ∧ ∃ m',
      IsolateHeadExtractedOpsToLaunchOp chained 0 [1; 2] = Some (m', Some 4)
      ∧ (∀ x, x ∈ [1; 2] → x ∈ getBody (getOp m' (length (opTable chained))))
      ∧ ∀ k block x,
          blocks chained !! k = Some block → x ∈ block → x ∉ [1; 2] →
          ∃ block', blocks m' !! k = Some block' ∧ x ∈ block'.
Proof.
  assert (H1 : IdentifyOutsideCompiledOpsAtHead 3 chained 0 = Some [1; 2])
    by reflexivity.
  assert (H2 : [1; 2] ≠ []) by discriminate.
  assert (H3 : blocksInArena chained = true) by reflexivity.
  split; [exact H1|]. split; [exact H3|].
  eexists. split; [vm_compute; reflexivity|].
  apply (no_operation_is_lost 3 chained 0 [1; 2] _ (Some 4) H1 H2 H3).
  vm_compute. reflexivity.
Defined.

(** ** The replacement loop *)










